(** * FCND motion planning: grid construction, A* search, path pruning and
      the flight state machine

    A shallow embedding of [planning_utils.py], [geo_utils.py] and
    [motion_planning.py], followed by the properties of the planner and of
    the flight state machine.

    Numbers.  The costs handled by [a_star] are Python floats; they are
    modelled by the binary64 floats of the kernel ([PrimFloat]), so that the
    order in which the frontier is emptied is the one of the interpreter.
    [create_grid] is given twice.  In [PlanningUtils] the obstacle records
    are exact rationals ([Q]) and floor, ceiling, clipping and truncation
    are the exact ones; [plan_path] is written over this one.  In
    [Binary64] the records are binary64 floats, with the rounding, the NaN
    and the infinities of numpy; what [create_grid] returns, and when it
    fails, is stated over this one.  The telemetry read by the flight
    state machine is modelled by exact rationals. *)

From Stdlib Require Import ZArith List Bool Lia Permutation.
From Stdlib Require Import QArith Qround Qminmax Qabs.
From Stdlib Require Import Floats.
From Stdlib Require Import Reals Psatz.
Import ListNotations.

Local Open Scope Z_scope.

(** ** Python results *)

Inductive exn : Type :=
| KeyError
| IndexError
| ValueError
| OverflowError
| MemoryError
| RecursionError.

(** The outcome of running a piece of Python: a value, a raised exception,
    or (for the loops that are run with fuel) no answer within the fuel. *)
Inductive result (A : Type) : Type :=
| Ok (a : A)
| Raise (e : exn)
| Diverge.

Arguments Ok {A} a.
Arguments Raise {A} e.
Arguments Diverge {A}.

Definition bind {A B : Type} (r : result A) (k : A -> result B) : result B :=
  match r with
  | Ok a => k a
  | Raise e => Raise e
  | Diverge => Diverge
  end.

Declare Scope result_scope.
Delimit Scope result_scope with result.
Notation "x <- r ;; k" := (bind r (fun x => k))
  (at level 61, r at next level, right associativity) : result_scope.
Notation "' p <- r ;; k" := (bind r (fun x => let p := x in k))
  (at level 61, p pattern, r at next level, right associativity) : result_scope.

(** ** planning_utils.py *)

Module PlanningUtils.

(** A grid position [(north index, east index)]. *)
Definition node : Type := (Z * Z)%type.

Definition node_eqb (a b : node) : bool :=
  (fst a =? fst b) && (snd a =? snd b).

(** A two-dimensional numpy array: its shape and its cells.  [cell] is only
    read at indices inside the shape.  [create_grid] writes 0 and 1. *)
Record grid : Type := mkGrid {
  shape0 : Z;
  shape1 : Z;
  cell : Z -> Z -> Z
}.

(** [class Action(Enum)], in definition order. *)
Inductive Action : Type :=
| WEST | EAST | NORTH | SOUTH
| NORTHWEST | NORTHEAST | SOUTHWEST | SOUTHEAST.

(** [2**0.5], that is 1.4142135623730951. *)
Definition SQRT2 : float := PrimFloat.sqrt 2%float.

Definition delta (a : Action) : Z * Z :=
  match a with
  | WEST => (0, -1)
  | EAST => (0, 1)
  | NORTH => (-1, 0)
  | SOUTH => (1, 0)
  | NORTHWEST => (-1, -1)
  | NORTHEAST => (-1, 1)
  | SOUTHWEST => (1, -1)
  | SOUTHEAST => (1, 1)
  end.

Definition cost (a : Action) : float :=
  match a with
  | WEST | EAST | NORTH | SOUTH => 1%float
  | NORTHWEST | NORTHEAST | SOUTHWEST | SOUTHEAST => SQRT2
  end.

(** [list(Action)] *)
Definition actions : list Action :=
  [WEST; EAST; NORTH; SOUTH; NORTHWEST; NORTHEAST; SOUTHWEST; SOUTHEAST].

(** [(current_node[0] + da[0], current_node[1] + da[1])] *)
Definition move (n : node) (a : Action) : node :=
  (fst n + fst (delta a), snd n + snd (delta a)).

Definition is_valid_node (g : grid) (nd : node) : bool :=
  let n := shape0 g - 1 in
  let m := shape1 g - 1 in
  let '(x, y) := nd in
  if (x <? 0) || (x >? n) || (y <? 0) || (y >? m) then false
  else if cell g x y =? 1 then false
  else true.

Definition valid_actions (g : grid) (current_node : node) : list Action :=
  filter (fun action => is_valid_node g (move current_node action)) actions.

(** *** The three containers of the search *)

(** The members of [visited].  [set(start)] holds the two coordinates of
    [start] (integers), the later [visited.add(next_node)] add positions
    (tuples); an integer is never equal to a tuple. *)
Inductive pyval : Type :=
| PyInt (z : Z)
| PyNode (n : node).

Definition pyval_eqb (a b : pyval) : bool :=
  match a, b with
  | PyInt x, PyInt y => x =? y
  | PyNode n, PyNode m => node_eqb n m
  | _, _ => false
  end.

(** [x in visited] *)
Definition mem (x : pyval) (visited : list pyval) : bool :=
  existsb (pyval_eqb x) visited.

(** [branch]: a dict from positions to [(cost, parent, action)], kept as an
    association list, newest binding first; a lookup returns the newest. *)
Definition record : Type := (float * node * Action)%type.
Definition branch_map : Type := list (node * record).

Fixpoint lookup (n : node) (branch : branch_map) : option record :=
  match branch with
  | [] => None
  | (k, r) :: rest => if node_eqb n k then Some r else lookup n rest
  end.

(** The entries of the priority queue, [(priority, position)], and their
    order, the one of Python tuples: the first components decide unless
    they are equal. *)
Definition item : Type := (float * node)%type.

Definition node_ltb (a b : node) : bool :=
  if fst a =? fst b then snd a <? snd b else fst a <? fst b.

Definition item_ltb (a b : item) : bool :=
  if PrimFloat.eqb (fst a) (fst b) then node_ltb (snd a) (snd b)
  else PrimFloat.ltb (fst a) (fst b).

(** [queue.get()] hands out the least entry.  The queue is kept as a bag;
    [extract_min x q] splits the least entry off [x :: q]. *)
Fixpoint extract_min (x : item) (q : list item) : item * list item :=
  match q with
  | [] => (x, [])
  | y :: q' =>
      let '(m, r) := extract_min y q' in
      if item_ltb m x then (m, x :: r) else (x, m :: r)
  end.

Definition queue_get (q : list item) : option (item * list item) :=
  match q with
  | [] => None
  | x :: q' => Some (extract_min x q')
  end.

Definition queue_put (i : item) (q : list item) : list item := i :: q.

(** *** a_star *)

Definition search_state : Type := (list pyval * branch_map * list item)%type.

(** The body of [for action in valid_actions(grid, current_node)]. *)
Definition visit (h : node -> node -> float) (goal current_node : node)
    (current_cost : float) (st : search_state) (action : Action)
  : search_state :=
  let '(visited, branch, queue) := st in
  let next_node := move current_node action in
  let branch_cost := (current_cost + cost action)%float in
  let queue_cost := (branch_cost + h next_node goal)%float in
  if negb (mem (PyNode next_node) visited) then
    (PyNode next_node :: visited,
     (next_node, (branch_cost, current_node, action)) :: branch,
     queue_put (queue_cost, next_node) queue)
  else st.

Definition expand (g : grid) (h : node -> node -> float)
    (goal current_node : node) (current_cost : float) (st : search_state)
  : search_state :=
  fold_left (visit h goal current_node current_cost)
            (valid_actions g current_node) st.

(** [while not queue.empty()]: the result is [found] and the final
    [branch]. *)
Fixpoint search (fuel : nat) (g : grid) (h : node -> node -> float)
    (start goal : node) (st : search_state) : result (bool * branch_map) :=
  match fuel with
  | O => Diverge
  | S fuel' =>
      let '(visited, branch, queue) := st in
      match queue_get queue with
      | None => Ok (false, branch)
      | Some (it, queue') =>
          let current_node := snd it in
          match (if node_eqb current_node start then Some 0%float
                 else option_map (fun r => fst (fst r))
                                 (lookup current_node branch)) with
          | None => Raise KeyError
          | Some current_cost =>
              if node_eqb current_node goal then Ok (true, branch)
              else search fuel' g h start goal
                     (expand g h goal current_node current_cost
                             (visited, branch, queue'))
          end
      end
  end.

(** [while branch[n][1] != start], followed by the last [append]. *)
Fixpoint retrace (fuel : nat) (branch : branch_map) (start n : node)
    (path : list node) : result (list node) :=
  match fuel with
  | O => Diverge
  | S fuel' =>
      match lookup n branch with
      | None => Raise KeyError
      | Some (_, parent, _) =>
          if negb (node_eqb parent start)
          then retrace fuel' branch start parent (path ++ [parent])
          else Ok (path ++ [parent])
      end
  end.

(** The number of cells of the grid. *)
Definition cells (g : grid) : nat :=
  (Z.to_nat (shape0 g) * Z.to_nat (shape1 g))%nat.

(** Each turn of the search loop removes an entry from the queue, and an
    entry is added only together with a new member of [visited]: fuel for
    one turn per cell, and two more. *)
Definition search_fuel (g : grid) : nat := S (S (cells g)).

(** [a_star] with the fuel of the search loop as a parameter.  The queue
    starts with [(0, start)]; the integers 0 of [queue.put((0, start))] and
    of [return [], 0] are the float 0.  The walk back gets one step of fuel
    per binding of [branch], and one more. *)
Definition a_star_fuel (fuel : nat) (g : grid) (h : node -> node -> float)
    (start goal : node) : result (list node * float) :=
  ('(found, branch) <-
     search fuel g h start goal
       ([PyInt (fst start); PyInt (snd start)], [], queue_put (0%float, start) []) ;;
   if (found : bool) then
     match lookup goal branch with
     | None => Raise KeyError
     | Some (path_cost, _, _) =>
         path <- retrace (S (length branch)) branch start goal [goal] ;;
         Ok (rev path, path_cost)
     end
   else Ok ([], 0%float))%result.

Definition a_star (g : grid) (h : node -> node -> float) (start goal : node)
  : result (list node * float) :=
  a_star_fuel (search_fuel g) g h start goal.

(** The float of an integer below 2^63 in magnitude: the integer itself
    below 2^53, and the nearest float above. *)
Definition float_of_Z (z : Z) : float :=
  if z <? 0 then (- PrimFloat.of_uint63 (Uint63.of_Z (- z)))%float
  else PrimFloat.of_uint63 (Uint63.of_Z z).

(** [np.linalg.norm(np.array(position) - np.array(goal_position))]: the
    differences, integers, are taken to floats, and the norm is the square
    root of the sum of their squares. *)
Definition heuristic (position goal_position : node) : float :=
  let dx := float_of_Z (fst position - fst goal_position) in
  let dy := float_of_Z (snd position - snd goal_position) in
  PrimFloat.sqrt (dx * dx + dy * dy)%float.

(** *** create_grid *)

(** A row of [data]: the centre of an obstacle and its half-extents. *)
Record obstacle : Type := mkObstacle {
  north : Q;
  east : Q;
  alt : Q;
  d_north : Q;
  d_east : Q;
  d_alt : Q
}.

(** [np.min] and [np.max] raise [ValueError] on an empty array. *)
Definition np_min (l : list Q) : result Q :=
  match l with
  | [] => Raise ValueError
  | x :: r => Ok (fold_left Qmin r x)
  end.

Definition np_max (l : list Q) : result Q :=
  match l with
  | [] => Raise ValueError
  | x :: r => Ok (fold_left Qmax r x)
  end.

Definition np_floor (q : Q) : Q := inject_Z (Qfloor q).
Definition np_ceil (q : Q) : Q := inject_Z (Qceiling q).

(** [np.clip(a, lo, hi)] is [minimum(maximum(a, lo), hi)]. *)
Definition np_clip (a lo hi : Q) : Q := Qmin (Qmax a lo) hi.

(** [int(x)] truncates towards zero. *)
Definition py_int (q : Q) : Z := Z.quot (Qnum q) (Zpos (Qden q)).

Definition Qltb (a b : Q) : bool := negb (Qle_bool b a).

(** [np.zeros((r, c))] refuses negative dimensions. *)
Definition np_zeros (r c : Z) : result grid :=
  if (r <? 0) || (c <? 0) then Raise ValueError
  else Ok (mkGrid r c (fun _ _ => 0)).

(** A bound of a slice along an axis of length [n]: a negative index counts
    from the end, and the result is brought back into [0 .. n]. *)
Definition slice_bound (n idx : Z) : Z :=
  let i := if idx <? 0 then idx + n else idx in
  Z.max 0 (Z.min n i).

(** [grid[a:b, c:d] = v] *)
Definition assign_block (g : grid) (a b c d v : Z) : grid :=
  let lo0 := slice_bound (shape0 g) a in
  let hi0 := slice_bound (shape0 g) b in
  let lo1 := slice_bound (shape1 g) c in
  let hi1 := slice_bound (shape1 g) d in
  mkGrid (shape0 g) (shape1 g)
    (fun x y =>
       if (lo0 <=? x) && (x <? hi0) && (lo1 <=? y) && (y <? hi1) then v
       else cell g x y).

(** The body of [for i in range(data.shape[0])]. *)
Definition mark_obstacle (drone_altitude safety_distance : Q)
    (north_min east_min : Q) (north_size east_size : Z)
    (g : grid) (o : obstacle) : grid :=
  if Qltb drone_altitude (alt o + d_alt o + safety_distance)%Q then
    let o0 := py_int (np_clip (north o - d_north o - safety_distance - north_min)%Q
                              0%Q (inject_Z (north_size - 1))) in
    let o1 := py_int (np_clip (north o + d_north o + safety_distance - north_min)%Q
                              0%Q (inject_Z (north_size - 1))) in
    let o2 := py_int (np_clip (east o - d_east o - safety_distance - east_min)%Q
                              0%Q (inject_Z (east_size - 1))) in
    let o3 := py_int (np_clip (east o + d_east o + safety_distance - east_min)%Q
                              0%Q (inject_Z (east_size - 1))) in
    assign_block g o0 (o1 + 1) o2 (o3 + 1) 1
  else g.

Definition create_grid (data : list obstacle)
    (drone_altitude safety_distance : Q) : result (grid * Z * Z) :=
  (lo_n <- np_min (map (fun o => north o - d_north o)%Q data) ;;
   hi_n <- np_max (map (fun o => north o + d_north o)%Q data) ;;
   lo_e <- np_min (map (fun o => east o - d_east o)%Q data) ;;
   hi_e <- np_max (map (fun o => east o + d_east o)%Q data) ;;
   let north_min := np_floor lo_n in
   let north_max := np_ceil hi_n in
   let east_min := np_floor lo_e in
   let east_max := np_ceil hi_e in
   let north_size := py_int (np_ceil (north_max - north_min)%Q) in
   let east_size := py_int (np_ceil (east_max - east_min)%Q) in
   g <- np_zeros north_size east_size ;;
   Ok (fold_left (mark_obstacle drone_altitude safety_distance
                                north_min east_min north_size east_size)
                 data g,
       py_int north_min, py_int east_min))%result.

(** A grid given by its rows. *)
Definition grid_of_rows (rows : list (list Z)) : grid :=
  mkGrid (Z.of_nat (length rows))
         (Z.of_nat (length (hd [] rows)))
         (fun x y => nth (Z.to_nat y) (nth (Z.to_nat x) rows []) 0).

End PlanningUtils.


(** ** geo_utils.py *)

Module GeoUtils.

Import PlanningUtils.

Definition local_pos_to_grid_pos (local_position : Q * Q * Q)
    (north_offset east_offset : Z) : node :=
  let '(n, e, _) := local_position in
  (py_int n - north_offset, py_int e - east_offset).

End GeoUtils.

(** ** The bresenham package *)

Module Bresenham.

Import PlanningUtils.

(** The generator [bresenham(x0, y0, x1, y1)] of the package of that name,
    which [motion_planning.py] imports: the cells of the rasterized segment,
    both ends included, in the order they are yielded. *)
Fixpoint line_loop (n : nat) (x0 y0 xx xy yx yy dx dy : Z) (x y D : Z)
  : list node :=
  match n with
  | O => []
  | S n' =>
      (x0 + x * xx + y * yx, y0 + x * xy + y * yy)
      :: (let '(y', D') := if D >=? 0 then (y + 1, D - 2 * dx) else (y, D) in
          line_loop n' x0 y0 xx xy yx yy dx dy (x + 1) y' (D' + 2 * dy))
  end.

Definition bresenham (x0 y0 x1 y1 : Z) : list node :=
  let dx := x1 - x0 in
  let dy := y1 - y0 in
  let xsign := if dx >? 0 then 1 else -1 in
  let ysign := if dy >? 0 then 1 else -1 in
  let dx := Z.abs dx in
  let dy := Z.abs dy in
  let '(dx, dy, xx, xy, yx, yy) :=
    if dx >? dy then (dx, dy, xsign, 0, 0, ysign)
    else (dy, dx, 0, ysign, xsign, 0) in
  line_loop (Z.to_nat (dx + 1)) x0 y0 xx xy yx yy dx dy 0 0 (2 * dy - dx).

End Bresenham.

(** ** motion_planning.py *)

Module MotionPlanning.

Import PlanningUtils.

Inductive States : Type :=
| MANUAL | ARMING | TAKEOFF | WAYPOINT | LANDING | DISARMING | PLANNING.

(** *** prune_path *)

(** [grid[i, j]]: an index below zero counts from the end of its axis, and
    an index outside the axis raises [IndexError]. *)
Definition grid_get (g : grid) (i j : Z) : result Z :=
  if (- shape0 g <=? i) && (i <? shape0 g)
     && (- shape1 g <=? j) && (j <? shape1 g)
  then Ok (cell g (if i <? 0 then i + shape0 g else i)
                  (if j <? 0 then j + shape1 g else j))
  else Raise IndexError.

Section Prune.

(** The rasterization of a segment is a parameter of the pruning;
    [motion_planning.py] uses [Bresenham.bresenham]. *)
Variable line : Z -> Z -> Z -> Z -> list node.
Variable g : grid.

(** [for pt in ...: if grid[pt[0], pt[1]]: return ...]: whether the loop
    meets a cell that is not zero. *)
Fixpoint crosses_obstacle (pts : list node) : result bool :=
  match pts with
  | [] => Ok false
  | pt :: rest =>
      (v <- grid_get g (fst pt) (snd pt) ;;
       if negb (v =? 0) then Ok true else crosses_obstacle rest)%result
  end.

Definition blocked (first third : node) : result bool :=
  crosses_obstacle (line (fst first) (snd first) (fst third) (snd third)).

(** [prune_path] on a path of at least two positions, [first :: second ::
    rest]: the recursive calls of the source are on [path[1:]], which is
    [second :: rest], and on [path[:1] + path[2:]], which is
    [first :: rest].  The interpreter bounds the depth of the calls (1000
    frames by default, of which the callers have taken some): [frames] is
    the number of frames that are free when the call is made.  The call
    takes one of them; the rasterization is a generator, which takes one
    more while it runs; the recursive call is made with the frames that
    the call has left free.  Where no frame is free, [RecursionError] is
    raised. *)
Fixpoint prune_from (frames : nat) (first second : node) (rest : list node)
  : result (list node) :=
  match frames with
  | O => Raise RecursionError
  | S free =>
      match rest with
      | [] => Ok [first; second]
      | third :: rest' =>
          match free with
          | O => Raise RecursionError
          | S _ =>
              (b <- blocked first third ;;
               if (b : bool) then
                 tail <- prune_from free second third rest' ;;
                 Ok (first :: tail)
               else prune_from free first third rest')%result
          end
      end
  end.

Definition prune_path (frames : nat) (path : list node)
  : result (list node) :=
  match frames with
  | O => Raise RecursionError
  | S _ =>
      match path with
      | first :: second :: rest => prune_from frames first second rest
      | _ => Ok path
      end
  end.

(** Every three consecutive positions [a; b; c] of the path have an
    obstacle on the segment from [a] to [c]. *)
Fixpoint corners_needed (path : list node) : Prop :=
  match path with
  | a :: (_ :: c :: _) as tl => blocked a c = Ok true /\ corners_needed tl
  | _ => True
  end.

End Prune.

(** *** The vehicle *)

Definition waypoint : Type := (Z * Z * Z * Z)%type.

(** The commands of the [Drone] base class that the transitions call, and
    the message written by [send_waypoints]. *)
Inductive command : Type :=
| Arm
| TakeControl
| Takeoff (altitude : Q)
| CmdPosition (n e a heading : Q)
| Land
| Disarm
| ReleaseControl
| Stop
| SetHomePosition (lon lat altitude : Q)
| SendWaypoints (wps : list waypoint).

(** The attributes of a [MotionPlanning] object: its own, the telemetry
    kept by the [Drone] base class, and the commands issued so far (the
    latest last).  [armed] and [guided] are Python booleans. *)
Record drone : Type := mkDrone {
  flight_state : States;
  in_mission : bool;
  target_position : list Q;
  waypoints : list waypoint;
  armed : bool;
  guided : bool;
  local_position : Q * Q * Q;
  local_velocity : Q * Q * Q;
  global_position : Q * Q * Q;
  global_home : Q * Q * Q;
  commands : list command
}.

(** What [plan_path] gets from outside the program: the first line and the
    rows of [colliders.csv], the frame conversion of udacidrone, and the
    number of frames that the interpreter has free when [plan_path] calls
    [prune_path]. *)
Record world : Type := mkWorld {
  colliders_home : Q * Q;
  colliders_data : list obstacle;
  global_to_local : Q * Q * Q -> Q * Q * Q -> Q * Q * Q;
  frames_left : nat
}.

(** A method: it runs on the object, may change it, and returns or
    raises; what it changed before raising stays changed. *)
Definition method (A : Type) : Type := drone -> drone * result A.

Definition ret {A : Type} (a : A) : method A := fun d => (d, Ok a).

Definition and_then {A B : Type} (m : method A) (k : A -> method B)
  : method B :=
  fun d =>
    match m d with
    | (d', Ok a) => k a d'
    | (d', Raise e) => (d', Raise e)
    | (d', Diverge) => (d', Diverge)
    end.

Definition lift {A : Type} (r : result A) : method A := fun d => (d, r).

Definition update (f : drone -> drone) : method unit :=
  fun d => (f d, Ok tt).

Declare Scope method_scope.
Delimit Scope method_scope with method.
Notation "x <- m ;; k" := (and_then m (fun x => k))
  (at level 61, m at next level, right associativity) : method_scope.
Notation "m ;; k" := (and_then m (fun _ => k))
  (at level 61, right associativity) : method_scope.

Definition set_flight_state (s : States) (d : drone) : drone :=
  mkDrone s (in_mission d) (target_position d) (waypoints d) (armed d)
          (guided d) (local_position d) (local_velocity d)
          (global_position d) (global_home d) (commands d).

Definition set_in_mission (b : bool) (d : drone) : drone :=
  mkDrone (flight_state d) b (target_position d) (waypoints d) (armed d)
          (guided d) (local_position d) (local_velocity d)
          (global_position d) (global_home d) (commands d).

Definition set_target_position (t : list Q) (d : drone) : drone :=
  mkDrone (flight_state d) (in_mission d) t (waypoints d) (armed d)
          (guided d) (local_position d) (local_velocity d)
          (global_position d) (global_home d) (commands d).

Definition set_waypoints (w : list waypoint) (d : drone) : drone :=
  mkDrone (flight_state d) (in_mission d) (target_position d) w (armed d)
          (guided d) (local_position d) (local_velocity d)
          (global_position d) (global_home d) (commands d).

Definition set_local_position (p : Q * Q * Q) (d : drone) : drone :=
  mkDrone (flight_state d) (in_mission d) (target_position d) (waypoints d)
          (armed d) (guided d) p (local_velocity d)
          (global_position d) (global_home d) (commands d).

Definition issue (c : command) (d : drone) : drone :=
  mkDrone (flight_state d) (in_mission d) (target_position d) (waypoints d)
          (armed d) (guided d) (local_position d) (local_velocity d)
          (global_position d) (global_home d) (commands d ++ [c]).

(** [a[i]] and [a[i] = v] on a short array, at an index inside it. *)
Definition at_index (a : list Q) (i : nat) : Q := nth i a 0%Q.

Fixpoint store_index (a : list Q) (i : nat) (v : Q) : list Q :=
  match a, i with
  | [], _ => []
  | _ :: r, O => v :: r
  | x :: r, S i' => x :: store_index r i' v
  end.

Definition down (p : Q * Q * Q) : Q := snd p.
Definition first_two (p : Q * Q * Q) : Q * Q := fst p.

(** [np.linalg.norm(v) < 1.0] for a vector of two components: the sum of
    the squares is below one. *)
Definition norm_below_one (x y : Q) : bool := Qltb (x * x + y * y)%Q 1%Q.

(** [~b] on a Python boolean is the complement of the integer 0 or 1:
    [~True] is -2 and [~False] is -1. *)
Definition py_invert (b : bool) : Z := Z.lnot (Z.b2z b).

(** The truth value of an integer. *)
Definition truthy (z : Z) : bool := negb (z =? 0).

Local Open Scope method_scope.

Definition arming_transition : method unit :=
  update (set_flight_state ARMING) ;;
  update (issue Arm) ;;
  update (issue TakeControl).

Definition takeoff_transition : method unit :=
  update (set_flight_state TAKEOFF) ;;
  update (fun d => issue (Takeoff (at_index (target_position d) 2)) d).

(** [self.waypoints.pop(0)] raises [IndexError] on an empty list. *)
Definition pop_waypoint : method waypoint :=
  fun d =>
    match waypoints d with
    | [] => (d, Raise IndexError)
    | w :: rest => (set_waypoints rest d, Ok w)
    end.

Definition waypoint_position (w : waypoint) : list Q :=
  let '(n, e, a, h) := w in [inject_Z n; inject_Z e; inject_Z a; inject_Z h].

Definition waypoint_transition : method unit :=
  update (set_flight_state WAYPOINT) ;;
  w <- pop_waypoint ;;
  update (set_target_position (waypoint_position w)) ;;
  update (fun d =>
            let t := target_position d in
            issue (CmdPosition (at_index t 0) (at_index t 1)
                               (at_index t 2) (at_index t 3)) d).

Definition landing_transition : method unit :=
  update (set_flight_state LANDING) ;;
  update (issue Land).

Definition disarming_transition : method unit :=
  update (set_flight_state DISARMING) ;;
  update (issue Disarm) ;;
  update (issue ReleaseControl).

Definition manual_transition : method unit :=
  update (set_flight_state MANUAL) ;;
  update (issue Stop) ;;
  update (set_in_mission false).

Definition send_waypoints : method unit :=
  update (fun d => issue (SendWaypoints (waypoints d)) d).

Definition _set_home_position (w : world) : method unit :=
  let '(lat0, lon0) := colliders_home w in
  update (issue (SetHomePosition lon0 lat0 0)).

Definition TARGET_ALTITUDE : Z := 10.
Definition SAFETY_DISTANCE : Z := 2.

(** The goal used when [USE_MAP] is false, as (longitude, latitude). *)
Definition default_goal : Q * Q :=
  ((-12239860730000001 # 100000000000000)%Q,
   (3779241310505224 # 100000000000000)%Q).

(** [np.loadtxt] returns an array of one dimension when the file has fewer
    than two rows of data, and [create_grid] indexes its argument with two
    indices. *)
Definition loadtxt (w : world) : result (list obstacle) :=
  match colliders_data w with
  | [] | [_] => Raise IndexError
  | rows => Ok rows
  end.

Definition plan_path (w : world) : method unit :=
  update (set_flight_state PLANNING) ;;
  update (fun d => set_target_position
                     (store_index (target_position d) 2 (inject_Z TARGET_ALTITUDE)) d) ;;
  _set_home_position w ;;
  fun d =>
    let local_position := global_to_local w (global_position d) (global_home d) in
    let local_goal :=
      global_to_local w (fst default_goal, snd default_goal, 0%Q) (global_home d) in
    (data <- lift (loadtxt w) ;;
     r <- lift (create_grid data (inject_Z TARGET_ALTITUDE) (inject_Z SAFETY_DISTANCE)) ;;
     let '(grid, north_offset, east_offset) := r in
     let grid_start :=
       GeoUtils.local_pos_to_grid_pos local_position north_offset east_offset in
     let grid_goal :=
       GeoUtils.local_pos_to_grid_pos local_goal north_offset east_offset in
     r <- lift (a_star grid heuristic grid_start grid_goal) ;;
     path <- lift (prune_path Bresenham.bresenham grid (frames_left w) (fst r)) ;;
     update (set_waypoints
               (map (fun p => (fst p + north_offset, snd p + east_offset,
                               TARGET_ALTITUDE, 0)) path)) ;;
     send_waypoints) d.

(** [-1.0 * self.local_position[2] > 0.95 * self.target_position[2]] *)
Definition takeoff_altitude_reached (d : drone) : bool :=
  Qltb ((95 # 100) * at_index (target_position d) 2)%Q
       ((-1) * down (local_position d))%Q.

Definition local_position_callback : method unit :=
  fun d =>
    match flight_state d with
    | TAKEOFF =>
        if takeoff_altitude_reached d
        then waypoint_transition d
        else ret tt d
    | WAYPOINT =>
        let t := target_position d in
        let '(n, e) := first_two (local_position d) in
        if norm_below_one (at_index t 0 - n)%Q (at_index t 1 - e)%Q then
          if (0 <? Z.of_nat (length (waypoints d))) then waypoint_transition d
          else
            let '(vn, ve) := first_two (local_velocity d) in
            if norm_below_one vn ve then landing_transition d else ret tt d
        else ret tt d
    | _ => ret tt d
    end.

Definition velocity_callback : method unit :=
  fun d =>
    match flight_state d with
    | LANDING =>
        if Qltb (down (global_position d) - down (global_home d))%Q (1 # 10)%Q then
          if Qltb (Qabs (down (local_position d))) (5 # 100)%Q
          then disarming_transition d
          else ret tt d
        else ret tt d
    | _ => ret tt d
    end.

Definition state_callback (w : world) : method unit :=
  fun d =>
    if in_mission d then
      match flight_state d with
      | MANUAL => arming_transition d
      | ARMING => if armed d then plan_path w d else ret tt d
      | PLANNING => takeoff_transition d
      | DISARMING =>
          if truthy (Z.land (py_invert (armed d)) (py_invert (guided d)))
          then manual_transition d
          else ret tt d
      | _ => ret tt d
      end
    else ret tt d.

End MotionPlanning.

(** ** Paths on a grid *)

Module Paths.

Import PlanningUtils.

(** One valid move: an action applied to [n] gives [m], and [m] is a valid
    position of the grid. *)
Definition step (g : grid) (n m : node) : Prop :=
  exists a : Action, m = move n a /\ is_valid_node g m = true.

(** [reachable g start n]: a sequence of valid moves leads from [start] to
    [n]. *)
Inductive reachable (g : grid) (start : node) : node -> Prop :=
| reach_start : reachable g start start
| reach_step (n m : node) :
    reachable g start n -> step g n m -> reachable g start m.

(** The action that leads from [n] to [m], if there is one. *)
Definition action_between (n m : node) : option Action :=
  find (fun a => node_eqb (move n a) m) actions.

(** A path from [start] to [goal]: it begins at [start], ends at [goal],
    and each position is reached from the one before by a valid move. *)
Fixpoint moves_ok (g : grid) (n : node) (rest : list node) : bool :=
  match rest with
  | [] => true
  | m :: rest' =>
      match action_between n m with
      | Some _ => is_valid_node g m && moves_ok g m rest'
      | None => false
      end
  end.

Definition is_path (g : grid) (start goal : node) (p : list node) : bool :=
  match p with
  | [] => false
  | n :: rest =>
      node_eqb n start && node_eqb (last p n) goal && moves_ok g n rest
  end.

(** [climbs g n l]: each position of [n :: l] is reached by a valid move
    from the next one. *)
Fixpoint climbs (g : grid) (n : node) (l : list node) : Prop :=
  match l with
  | [] => True
  | p :: l' => step g p n /\ climbs g p l'
  end.

(** The cost of a path: 1 for each move along an axis and the square root
    of 2 for each diagonal move, as a real number. *)
Definition action_cost_R (a : Action) : R :=
  match a with
  | WEST | EAST | NORTH | SOUTH => 1%R
  | NORTHWEST | NORTHEAST | SOUTHWEST | SOUTHEAST => sqrt 2
  end.

Fixpoint cost_from_R (n : node) (rest : list node) : R :=
  match rest with
  | [] => 0%R
  | m :: rest' =>
      (match action_between n m with
       | Some a => action_cost_R a
       | None => 0
       end + cost_from_R m rest')%R
  end.

Definition path_cost_R (p : list node) : R :=
  match p with
  | [] => 0%R
  | n :: rest => cost_from_R n rest
  end.

(** The same sum in floats, added along the path as [a_star] adds it. *)
Fixpoint cost_from (acc : float) (n : node) (rest : list node) : float :=
  match rest with
  | [] => acc
  | m :: rest' =>
      cost_from (match action_between n m with
                 | Some a => acc + cost a
                 | None => acc
                 end)%float m rest'
  end.

Definition path_cost (p : list node) : float :=
  match p with
  | [] => 0%float
  | n :: rest => cost_from 0%float n rest
  end.

End Paths.

(** ** Obstacles and cells *)

Module GridSpec.

Import PlanningUtils.

(** Half-extents are lengths. *)
Definition well_formed (o : obstacle) : Prop :=
  (0 <= d_north o)%Q /\ (0 <= d_east o)%Q.

(** The obstacle, raised by the safety margin, reaches above the target
    altitude. *)
Definition tall (drone_altitude safety_distance : Q) (o : obstacle) : Prop :=
  (drone_altitude < alt o + d_alt o + safety_distance)%Q.

(** [lo] is the floor of the least element of [l], and [hi] is the ceiling
    of the greatest. *)
Definition floor_of_min (lo : Z) (l : list Q) : Prop :=
  (forall x, In x l -> (inject_Z lo <= x)%Q)
  /\ exists x, In x l /\ (x < inject_Z (lo + 1))%Q.

Definition ceiling_of_max (hi : Z) (l : list Q) : Prop :=
  (forall x, In x l -> (x <= inject_Z hi)%Q)
  /\ exists x, In x l /\ (inject_Z (hi - 1) < x)%Q.

(** The cell [(i, j)] of a grid with offsets [north_min] and [east_min] is
    the unit square from [(north_min + i, east_min + j)] to
    [(north_min + i + 1, east_min + j + 1)].  The footprint of an obstacle,
    expanded by the safety margin, is the rectangle
    [north - d_north - margin .. north + d_north + margin] by
    [east - d_east - margin .. east + d_east + margin]. *)

(** The square lies strictly inside the expanded footprint. *)
Definition strictly_inside (safety_distance : Q) (north_min east_min : Z)
    (o : obstacle) (i j : Z) : Prop :=
  (north o - d_north o - safety_distance < inject_Z (north_min + i)
   /\ inject_Z (north_min + i + 1) < north o + d_north o + safety_distance
   /\ east o - d_east o - safety_distance < inject_Z (east_min + j)
   /\ inject_Z (east_min + j + 1) < east o + d_east o + safety_distance)%Q.

(** The square lies strictly outside the expanded footprint: it is apart
    from it along the north axis or along the east axis. *)
Definition strictly_outside (safety_distance : Q) (north_min east_min : Z)
    (o : obstacle) (i j : Z) : Prop :=
  (inject_Z (north_min + i + 1) < north o - d_north o - safety_distance
   \/ north o + d_north o + safety_distance < inject_Z (north_min + i)
   \/ inject_Z (east_min + j + 1) < east o - d_east o - safety_distance
   \/ east o + d_east o + safety_distance < inject_Z (east_min + j))%Q.

End GridSpec.

(** ** The invariant of the search loop *)

Module SearchSpec.

Import PlanningUtils Paths.

Definition keys (b : branch_map) : list node := map fst b.
Definition queue_nodes (q : list item) : list node := map snd q.

(** The positions bound in [branch] and the positions in the queue. *)
Definition seen (st : search_state) : list node := keys (snd (fst st)).
Definition frontier (st : search_state) : list node := queue_nodes (snd st).

(** Whether a run has given an answer, a value or an exception. *)
Definition returned {A : Type} (r : result A) : Prop :=
  match r with
  | Diverge => False
  | _ => True
  end.

(** The cells of the grid, row by row. *)
Definition all_cells (g : grid) : list node :=
  list_prod (map Z.of_nat (seq 0 (Z.to_nat (shape0 g))))
            (map Z.of_nat (seq 0 (Z.to_nat (shape1 g)))).

Section Invariant.

Variable g : grid.
Variables start goal : node.

(** [branch] read from the newest binding to the oldest: no position is
    bound twice, a position is bound to the parent and the action that
    lead to it, and the parent is [start] or a position bound before. *)
Inductive chain : branch_map -> Prop :=
| chain_nil : chain []
| chain_cons (n : node) (c : float) (p : node) (a : Action) (b : branch_map) :
    chain b ->
    ~ In n (keys b) ->
    p = start \/ In p (keys b) ->
    n = move p a ->
    chain ((n, (c, p, a)) :: b).

(** All the valid neighbours of [n] have been seen. *)
Definition closed (b : branch_map) (n : node) : Prop :=
  forall a : Action,
    is_valid_node g (move n a) = true -> In (move n a) (keys b).

(** The invariant of [while not queue.empty()].  [opened] holds of the
    position being expanded, which has left the queue and whose neighbours
    are being looked at; between two turns of the loop it holds of
    nothing. *)
Record invariant (opened : node -> Prop) (st : search_state) : Prop := {
  inv_visited : forall n : node, In (PyNode n) (fst (fst st)) <-> In n (seen st);
  inv_chain : chain (snd (fst st));
  inv_valid : forall n : node, In n (seen st) -> is_valid_node g n = true;
  inv_queue : forall n : node, In n (frontier st) -> n = start \/ In n (seen st);
  inv_reach : forall n : node, In n (seen st) -> reachable g start n;
  inv_closed : forall n : node,
      n = start \/ In n (seen st) ->
      opened n \/ In n (frontier st) \/ closed (snd (fst st)) n;
  inv_goal : goal = start \/ In goal (seen st) -> In goal (frontier st)
}.

Definition nowhere (n : node) : Prop := False.

(** What is left to do: the entries of the queue, and the cells not yet
    seen. *)
Definition work (st : search_state) : nat :=
  (length (snd st) + (cells g - length (seen st)))%nat.

End Invariant.

End SearchSpec.

(** ** Inputs used in the examples *)

Module Inputs.

Import PlanningUtils MotionPlanning.

(** Three rows and four columns; 1 marks an obstacle. *)
Definition detour_grid : grid :=
  grid_of_rows [[0; 1; 1; 0];
                [1; 0; 1; 0];
                [0; 0; 0; 0]].

Definition single_cell_grid : grid := grid_of_rows [[0]].

(** Ten rows and ten columns, no obstacle. *)
Definition open_grid : grid := mkGrid 10 10 (fun _ _ => 0).

Definition diagonal : list node :=
  [(0, 0); (1, 1); (2, 2); (3, 3); (4, 4); (5, 5); (6, 6); (7, 7); (8, 8); (9, 9)].

(** A wall between the two free cells. *)
Definition walled_grid : grid := grid_of_rows [[0; 1; 0]].

Definition corner_grid : grid :=
  grid_of_rows [[0; 1; 0];
                [0; 0; 0]].

(** A path around the obstacle of [corner_grid]. *)
Definition corner_path : list node := [(0, 0); (1, 1); (0, 2); (1, 0)].

(** The path that [a_star] returns on [detour_grid] from (2,0) to (0,3),
    and a cheaper one. *)
Definition detour_found : list node := [(2, 0); (1, 1); (2, 2); (1, 3); (0, 3)].
Definition detour_better : list node := [(2, 0); (2, 1); (2, 2); (1, 3); (0, 3)].

(** The object as [__init__] leaves it. *)
Definition initial_drone : drone :=
  mkDrone MANUAL true [0%Q; 0%Q; 0%Q] [] false false
          (0%Q, 0%Q, 0%Q) (0%Q, 0%Q, 0%Q) (0%Q, 0%Q, 0%Q) (0%Q, 0%Q, 0%Q) [].

(** A frame conversion for the examples: one unit of the local frame per
    degree. Positions are (longitude, latitude, altitude). *)
Definition degrees_to_local (p home : Q * Q * Q) : Q * Q * Q :=
  let '(lon, lat, a) := p in
  let '(lon0, lat0, a0) := home in
  ((lat - lat0)%Q, (lon - lon0)%Q, (a0 - a)%Q).

(** The frames free for [prune_path] in the examples: the default limit
    of 1000 less a hundred for the callers. *)
Definition free_frames : nat := 900.

(** A home three units south and three units west of the default goal. *)
Definition home : Q * Q * Q :=
  ((fst default_goal - 3)%Q, (snd default_goal - 3)%Q, 0%Q).

(** Two low obstacles: the grid has five rows and five columns and no
    blocked cell at the target altitude. *)
Definition open_world : world :=
  mkWorld (snd (fst home), fst (fst home))
          [mkObstacle 1 1 2 1 1 2; mkObstacle 4 4 2 1 1 2]
          degrees_to_local free_frames.

(** The second obstacle is tall and covers the cell of the goal. *)
Definition closed_world : world :=
  mkWorld (snd (fst home), fst (fst home))
          [mkObstacle 1 1 2 1 1 2; mkObstacle 4 4 20 1 1 20]
          degrees_to_local free_frames.

(** Two obstacles; only the first one is tall. *)
Definition two_obstacles : list obstacle :=
  [mkObstacle (1 # 2) (1 # 2) 20 1 1 20; mkObstacle (7 # 2) (5 # 2) 3 (1 # 2) (1 # 2) 3].

(** One tall obstacle, from -1/2 to 7/2 along both axes. *)
Definition offset_obstacle : list obstacle := [mkObstacle (3 # 2) (3 # 2) 20 2 2 20].

(** Armed, under guided control and at home, about to plan. *)
Definition armed_drone : drone :=
  mkDrone ARMING true [0%Q; 0%Q; 0%Q] [] true true
          (0%Q, 0%Q, 0%Q) (0%Q, 0%Q, 0%Q) home home [Arm; TakeControl].

(** Landed, still armed and still guided. *)
Definition disarming_drone : drone :=
  mkDrone DISARMING true [3%Q; 3%Q; 10%Q; 0%Q] [] true true
          (3%Q, 3%Q, 0%Q) (0%Q, 0%Q, 0%Q) home home [].

End Inputs.


(** ** The costs kept in [branch] *)

Module SearchCost.

Import PlanningUtils.

(** [current_cost] for the position [p]: 0.0 for [start], and
    [branch[p][0]] otherwise. *)
Definition cost_of (start : node) (b : branch_map) (p : node) : float :=
  if node_eqb p start then 0%float
  else match lookup p b with
       | Some (c, _, _) => c
       | None => 0%float
       end.

(** Each binding of [branch] holds the cost of its parent, as it was when
    the binding was made, plus the cost of its action. *)
Inductive priced (start : node) : branch_map -> Prop :=
| priced_nil : priced start []
| priced_cons (n : node) (c : float) (p : node) (a : Action) (b : branch_map) :
    priced start b ->
    c = (cost_of start b p + cost a)%float ->
    priced start ((n, (c, p, a)) :: b).

End SearchCost.

(** ** Further inputs *)

Module MoreInputs.

Import PlanningUtils Inputs.

(** The grid of a result of [create_grid]. *)
Definition grid_of (r : result (grid * Z * Z)) : grid :=
  match r with
  | Ok (g, _, _) => g
  | _ => mkGrid 0 0 (fun _ _ => 0)
  end.

End MoreInputs.

(** ** Pruned paths *)

Module PruneSpec.

Import PlanningUtils MotionPlanning.

(** [subsequence q p]: [q] is [p] with some positions left out. *)
Inductive subsequence : list node -> list node -> Prop :=
| sub_nil : subsequence [] []
| sub_keep (x : node) (q p : list node) :
    subsequence q p -> subsequence (x :: q) (x :: p)
| sub_drop (x : node) (q p : list node) :
    subsequence q p -> subsequence q (x :: p).

(** The rasterized segment between each position of the path and the
    next one meets no obstacle (and stays on the grid). *)
Fixpoint segments_clear (line : Z -> Z -> Z -> Z -> list node) (g : grid)
    (path : list node) : Prop :=
  match path with
  | a :: (b :: _) as tl => blocked line g a b = Ok false /\ segments_clear line g tl
  | _ => True
  end.

(** The position is a cell of the grid. *)
Definition in_grid (g : grid) (n : node) : Prop :=
  0 <= fst n < shape0 g /\ 0 <= snd n < shape1 g.

End PruneSpec.

(** ** Telemetry events *)

Module Mission.

Import PlanningUtils MotionPlanning.

Definition set_local_velocity (v : Q * Q * Q) (d : drone) : drone :=
  mkDrone (flight_state d) (in_mission d) (target_position d) (waypoints d)
          (armed d) (guided d) (local_position d) v
          (global_position d) (global_home d) (commands d).

Definition set_global_position (p : Q * Q * Q) (d : drone) : drone :=
  mkDrone (flight_state d) (in_mission d) (target_position d) (waypoints d)
          (armed d) (guided d) (local_position d) (local_velocity d)
          p (global_home d) (commands d).

Definition set_status (a gd : bool) (d : drone) : drone :=
  mkDrone (flight_state d) (in_mission d) (target_position d) (waypoints d)
          a gd (local_position d) (local_velocity d)
          (global_position d) (global_home d) (commands d).

Definition set_global_home (p : Q * Q * Q) (d : drone) : drone :=
  mkDrone (flight_state d) (in_mission d) (target_position d) (waypoints d)
          (armed d) (guided d) (local_position d) (local_velocity d)
          (global_position d) p (commands d).

(** The messages of the vehicle, with what they report.  The [Drone] base
    class stores the report in the attributes and then calls the callback
    registered for the message; [__init__] registers one for the first
    three. *)
Inductive event : Type :=
| LOCAL_POSITION (p : Q * Q * Q)
| LOCAL_VELOCITY (v : Q * Q * Q)
| STATE (armed guided : bool)
| GLOBAL_POSITION (p : Q * Q * Q)
| GLOBAL_HOME (p : Q * Q * Q).

Definition dispatch (w : world) (e : event) : method unit :=
  fun d =>
    match e with
    | LOCAL_POSITION p => local_position_callback (set_local_position p d)
    | LOCAL_VELOCITY v => velocity_callback (set_local_velocity v d)
    | STATE a gd => state_callback w (set_status a gd d)
    | GLOBAL_POSITION p => ret tt (set_global_position p d)
    | GLOBAL_HOME p => ret tt (set_global_home p d)
    end.

(** The events one after the other; an exception ends the run. *)
Fixpoint run (w : world) (es : list event) : method unit :=
  match es with
  | [] => ret tt
  | e :: es' => and_then (dispatch w e) (fun _ => run w es')
  end.

(** The events that are not reports of the vehicle status. *)
Definition not_status (e : event) : bool :=
  match e with
  | STATE _ _ => false
  | _ => true
  end.

(** The go-to command of [waypoint_transition] for a waypoint. *)
Definition go_to (wp : waypoint) : command :=
  let '(n, e, a, h) := wp in
  CmdPosition (inject_Z n) (inject_Z e) (inject_Z a) (inject_Z h).

Definition is_go_to (c : command) : bool :=
  match c with
  | CmdPosition _ _ _ _ => true
  | _ => false
  end.

(** The waypoint over a local position: its north and east coordinates cut
    to integers by [int], at the target altitude, with the heading 0. *)
Definition waypoint_over (local : Q * Q * Q) : waypoint :=
  let '(n, e, _) := local in (py_int n, py_int e, TARGET_ALTITUDE, 0).

(** The drone will not plan again: it is past ARMING, or its mission is
    over. *)
Definition planning_over (d : drone) : bool :=
  match flight_state d with
  | MANUAL | ARMING => negb (in_mission d)
  | _ => true
  end.

(** Between [d] and [d'] the waypoints [taken] were taken from the front
    of the queue, a go-to command was issued for each of them, in this
    order, and the target is the last one taken. *)
Definition flown (d d' : drone) (taken : list waypoint) : Prop :=
  waypoints d = taken ++ waypoints d'
  /\ filter is_go_to (commands d')
     = filter is_go_to (commands d) ++ map go_to taken
  /\ target_position d'
     = last (map waypoint_position taken) (target_position d).

(** The states in the order of a flight. *)
Definition next_state (s : States) : States :=
  match s with
  | MANUAL => ARMING
  | ARMING => PLANNING
  | PLANNING => TAKEOFF
  | TAKEOFF => WAYPOINT
  | WAYPOINT => LANDING
  | LANDING => DISARMING
  | DISARMING => MANUAL
  end.

End Mission.

(** ** Drones and events for the examples *)

Module MissionInputs.

Import PlanningUtils MotionPlanning Mission Inputs.

(** The drone of [armed_drone] after it has planned in [open_world]: two
    waypoints, over its home and over the goal. *)
Definition planned_drone : drone := fst (plan_path open_world armed_drone).

(** A flight of the plan: the takeoff, the climb to the target altitude,
    the arrival over the first waypoint and over the second, at rest. *)
Definition flight : list event :=
  [STATE true true;
   LOCAL_POSITION (0%Q, 0%Q, (-10)%Q);
   LOCAL_POSITION (0%Q, 0%Q, (-10)%Q);
   LOCAL_POSITION (3%Q, 3%Q, (-10)%Q);
   LOCAL_POSITION (3%Q, 3%Q, (-10)%Q)].

(** On the ground after a mission. *)
Definition finished_drone : drone :=
  mkDrone MANUAL false [3%Q; 3%Q; 10%Q; 0%Q] [] false false
          (3%Q, 3%Q, 0%Q) (0%Q, 0%Q, 0%Q) home home
          [Land; Disarm; ReleaseControl; Stop].

(** Armed and over the goal, about to plan. *)
Definition goal_drone : drone :=
  mkDrone ARMING true [0%Q; 0%Q; 0%Q] [] true true
          (3%Q, 3%Q, 0%Q) (0%Q, 0%Q, 0%Q)
          (fst default_goal, snd default_goal, 0%Q) home [Arm; TakeControl].

End MissionInputs.

(** ** create_grid in binary64 *)

Module Binary64.

Import PlanningUtils.

Local Open Scope float_scope.

(** A row of [data], as [np.loadtxt] reads it: six binary64 numbers. *)
Record obstacle : Type := mkObstacle {
  north : float;
  east : float;
  alt : float;
  d_north : float;
  d_east : float;
  d_alt : float
}.

(** [np.minimum] and [np.maximum] of two numbers: a NaN operand gives
    NaN. *)
Definition minimum (a b : float) : float :=
  if PrimFloat.is_nan a then a
  else if PrimFloat.is_nan b then b
  else if b <? a then b else a.

Definition maximum (a b : float) : float :=
  if PrimFloat.is_nan a then a
  else if PrimFloat.is_nan b then b
  else if a <? b then b else a.

(** [np.min] and [np.max] raise [ValueError] on an empty array. *)
Definition np_min (l : list float) : result float :=
  match l with
  | [] => Raise ValueError
  | x :: r => Ok (fold_left minimum r x)
  end.

Definition np_max (l : list float) : result float :=
  match l with
  | [] => Raise ValueError
  | x :: r => Ok (fold_left maximum r x)
  end.

(** The signed integer [m], of sign [s]. *)
Definition signed (s : bool) (m : positive) : Z :=
  if s then Zneg m else Zpos m.

(** [np.floor]: a finite number [m * 2^e] with [e < 0] is below 2^53 and
    goes to the integer below it, which binary64 holds; every other number
    is an integer, an infinity or NaN and is returned as it is. *)
Definition np_floor (x : float) : float :=
  match Prim2SF x with
  | S754_finite s m e =>
      if (e <? 0)%Z then float_of_Z (signed s m / 2 ^ (- e)) else x
  | _ => x
  end.

(** [np.ceil(x)] is [-np.floor(-x)]. *)
Definition np_ceil (x : float) : float := - np_floor (- x).

(** [np.clip(a, lo, hi)] is [minimum(maximum(a, lo), hi)]. *)
Definition np_clip (a lo hi : float) : float := minimum (maximum a lo) hi.

(** [int(x)] cuts towards zero; it raises [ValueError] on NaN and
    [OverflowError] on an infinity. *)
Definition py_int (x : float) : result Z :=
  match Prim2SF x with
  | S754_nan => Raise ValueError
  | S754_infinity _ => Raise OverflowError
  | S754_zero _ => Ok 0%Z
  | S754_finite s m e =>
      Ok (if (e <? 0)%Z then Z.quot (signed s m) (2 ^ (- e))
          else (signed s m * 2 ^ e)%Z)
  end.

(** [int(np.clip(x, 0, size - 1))], with the bounds, Python integers,
    taken to binary64. *)
Definition clip_index (x : float) (size : Z) : result Z :=
  py_int (np_clip x (float_of_Z 0) (float_of_Z (size - 1))).

(** [alt + d_alt + safety_distance > drone_altitude] *)
Definition tall (drone_altitude safety_distance : float) (o : obstacle)
  : bool :=
  drone_altitude <? alt o + d_alt o + safety_distance.

(** The list [obstacle] of the source: the four indices of the block. *)
Definition block (safety_distance north_min east_min : float)
    (north_size east_size : Z) (o : obstacle) : result (Z * Z * Z * Z) :=
  (o0 <- clip_index (north o - d_north o - safety_distance - north_min)
                    north_size ;;
   o1 <- clip_index (north o + d_north o + safety_distance - north_min)
                    north_size ;;
   o2 <- clip_index (east o - d_east o - safety_distance - east_min)
                    east_size ;;
   o3 <- clip_index (east o + d_east o + safety_distance - east_min)
                    east_size ;;
   Ok (o0, o1, o2, o3))%result.

(** The body of [for i in range(data.shape[0])]. *)
Definition mark_obstacle (drone_altitude safety_distance : float)
    (north_min east_min : float) (north_size east_size : Z)
    (g : grid) (o : obstacle) : result grid :=
  if tall drone_altitude safety_distance o then
    (b <- block safety_distance north_min east_min north_size east_size o ;;
     let '(o0, o1, o2, o3) := b in
     Ok (assign_block g o0 (o1 + 1) o2 (o3 + 1) 1))%result
  else Ok g.

(** The loop: an exception ends it. *)
Fixpoint mark_obstacles (drone_altitude safety_distance : float)
    (north_min east_min : float) (north_size east_size : Z)
    (data : list obstacle) (g : grid) : result grid :=
  match data with
  | [] => Ok g
  | o :: rest =>
      (g' <- mark_obstacle drone_altitude safety_distance north_min east_min
                           north_size east_size g o ;;
       mark_obstacles drone_altitude safety_distance north_min east_min
                      north_size east_size rest g')%result
  end.

(** [np.zeros((r, c))] refuses negative dimensions, and dimensions or a
    size in bytes, at eight bytes a cell, beyond the range of its indices,
    with [ValueError]; it raises [MemoryError] when the machine does not
    give the cells: [capacity] is the number of cells that it gives. *)
Definition np_zeros (capacity : Z) (r c : Z) : result grid :=
  if ((r <? 0) || (c <? 0))%Z then Raise ValueError
  else if ((2 ^ 63 <=? r) || (2 ^ 63 <=? c) || (2 ^ 63 <=? 8 * (r * c)))%Z
       then Raise ValueError
  else if (capacity <? r * c)%Z then Raise MemoryError
  else Ok (mkGrid r c (fun _ _ => 0%Z)).

Definition create_grid (capacity : Z) (data : list obstacle)
    (drone_altitude safety_distance : float) : result (grid * Z * Z) :=
  (lo_n <- np_min (map (fun o => north o - d_north o) data) ;;
   hi_n <- np_max (map (fun o => north o + d_north o) data) ;;
   lo_e <- np_min (map (fun o => east o - d_east o) data) ;;
   hi_e <- np_max (map (fun o => east o + d_east o) data) ;;
   let north_min := np_floor lo_n in
   let north_max := np_ceil hi_n in
   let east_min := np_floor lo_e in
   let east_max := np_ceil hi_e in
   north_size <- py_int (np_ceil (north_max - north_min)) ;;
   east_size <- py_int (np_ceil (east_max - east_min)) ;;
   g <- np_zeros capacity north_size east_size ;;
   g' <- mark_obstacles drone_altitude safety_distance north_min east_min
                        north_size east_size data g ;;
   n0 <- py_int north_min ;;
   e0 <- py_int east_min ;;
   Ok (g', n0, e0))%result.

End Binary64.

(** ** What the binary64 [create_grid] is about *)

Module Binary64Spec.

Import PlanningUtils Binary64.

Local Open Scope float_scope.

(** NaN, and a number: neither NaN nor an infinity. *)
Definition nan (x : float) : bool :=
  match Prim2SF x with
  | S754_nan => true
  | _ => false
  end.

Definition finite (x : float) : bool :=
  match Prim2SF x with
  | S754_zero _ | S754_finite _ _ _ => true
  | _ => false
  end.


(** The least and the greatest edges of the obstacles along the two axes,
    as the first lines of [create_grid] compute them. *)
Definition bounds (data : list obstacle)
  : result (float * float * float * float) :=
  (lo_n <- np_min (map (fun o => north o - d_north o) data) ;;
   hi_n <- np_max (map (fun o => north o + d_north o) data) ;;
   lo_e <- np_min (map (fun o => east o - d_east o) data) ;;
   hi_e <- np_max (map (fun o => east o + d_east o) data) ;;
   Ok (lo_n, hi_n, lo_e, hi_e))%result.

(** The dimension along an axis with the edges [lo] and [hi]: the edges
    are brought to integers, outwards, before their difference is
    taken. *)
Definition dimension (lo hi : float) : result Z :=
  py_int (np_ceil (np_ceil hi - np_floor lo)).

Definition dimensions (data : list obstacle) : result (Z * Z) :=
  ('(lo_n, hi_n, lo_e, hi_e) <- bounds data ;;
   north_size <- dimension lo_n hi_n ;;
   east_size <- dimension lo_e hi_e ;;
   Ok (north_size, east_size))%result.

(** A grid of [r] rows and [c] columns can be allocated. *)
Definition allocatable (capacity r c : Z) : bool :=
  ((0 <=? r) && (0 <=? c) && (r <? 2 ^ 63) && (c <? 2 ^ 63)
   && (8 * (r * c) <? 2 ^ 63) && (r * c <=? capacity))%Z.

(** The four edges of the obstacle are not NaN. *)
Definition edges_not_nan (o : obstacle) : Prop :=
  nan (north o - d_north o) = false /\ nan (north o + d_north o) = false
  /\ nan (east o - d_east o) = false /\ nan (east o + d_east o) = false.

(** The cell [(i, j)] lies in the block of indices that the source marks
    for the obstacle. *)
Definition in_block (safety_distance north_min east_min : float)
    (north_size east_size : Z) (o : obstacle) (i j : Z) : Prop :=
  exists o0 o1 o2 o3 : Z,
    block safety_distance north_min east_min north_size east_size o
    = Ok (o0, o1, o2, o3)
    /\ (o0 <= i <= o1)%Z /\ (o2 <= j <= o3)%Z.

End Binary64Spec.

(** ** Rows for the examples of the binary64 [create_grid] *)

Module Binary64Inputs.

Import PlanningUtils Binary64.

Local Open Scope float_scope.

(** The number of cells that the machine gives in the examples. *)
Definition machine_cells : Z := 2 ^ 30.


(** Two obstacles; only the first one is tall. *)
Definition two_rows : list obstacle :=
  [mkObstacle 0.5 0.5 20 1 1 20; mkObstacle 3.5 2.5 3 0.5 0.5 3].



(** A negative half-extent. *)
Definition negative_extent : list obstacle := [mkObstacle 0 0 20 (-3) 1 20].

(** A coordinate that is not a number. *)
Definition nan_row : list obstacle := [mkObstacle nan 1 20 1 1 20].

(** An edge beyond the numbers of binary64. *)
Definition huge_row : list obstacle :=
  [mkObstacle 0x1p1023 1 20 0x1p1023 1 20].

(** Two obstacles 2^20 apart along both axes. *)
Definition far_rows : list obstacle :=
  [mkObstacle 0 0 20 1 1 20; mkObstacle 0x1p20 0x1p20 20 1 1 20].

(** An obstacle without extent, at integer coordinates. *)
Definition point_row : list obstacle := [mkObstacle 1 1 20 0 0 20].

End Binary64Inputs.

(** * Properties *)

(** ** The flight state machine *)

Section FlightStateMachine.

Import PlanningUtils MotionPlanning Inputs.

Lemma disarming_guard_holds (a g : bool) :
  truthy (Z.land (py_invert a) (py_invert g)) = true.
Proof. destruct a, g; reflexivity. Qed.

Lemma state_callback_disarming (w : world) (d : drone) :
  in_mission d = true -> flight_state d = DISARMING ->
  state_callback w d = manual_transition d.
Proof.
  intros Hm Hs. unfold state_callback.
  rewrite Hm, Hs, disarming_guard_holds. reflexivity.
Qed.

(** What [plan_path] leaves behind when it returns. *)
Lemma plan_path_returns (w : world) (d d' : drone) :
  plan_path w d = (d', Ok tt) ->
  flight_state d' = PLANNING
  /\ in_mission d' = in_mission d
  /\ target_position d'
     = store_index (target_position d) 2 (inject_Z TARGET_ALTITUDE)
  /\ commands d'
     = commands d ++ [SetHomePosition (snd (colliders_home w))
                                      (fst (colliders_home w)) 0;
                      SendWaypoints (waypoints d')].
Proof.
  unfold plan_path, _set_home_position, send_waypoints, and_then, update, lift.
  destruct (colliders_home w) as [lat0 lon0]. cbn beta iota.
  destruct (loadtxt w) as [data| |]; cbn beta iota; try discriminate.
  destruct (create_grid data _ _) as [[[gr no] eo]| |];
    cbn beta iota; try discriminate.
  destruct (a_star gr _ _ _) as [r| |]; cbn beta iota; try discriminate.
  destruct (prune_path _ _ _ _) as [path| |]; cbn beta iota; try discriminate.
  intros H. injection H as <-. cbn.
  rewrite <- app_assoc. repeat split; reflexivity.
Qed.

(** In state DISARMING, position and velocity events change nothing. *)
Lemma disarming_ignores_other_events (d : drone) :
  flight_state d = DISARMING ->
  local_position_callback d = (d, Ok tt)
  /\ velocity_callback d = (d, Ok tt).
Proof.
  intros Hs. unfold local_position_callback, velocity_callback.
  rewrite Hs. split; reflexivity.
Qed.

(** C2, at a failing input: a vehicle-status event reaches the machine in
    state DISARMING while the vehicle is still armed and still guided; the
    guard [~self.armed & ~self.guided] is -2, which is true, and the machine
    goes to MANUAL and ends the mission. *)
Theorem disarming_leaves_while_armed :
  flight_state disarming_drone = DISARMING
  /\ in_mission disarming_drone = true
  /\ armed disarming_drone = true
  /\ guided disarming_drone = true
  /\ Z.land (py_invert (armed disarming_drone))
            (py_invert (guided disarming_drone)) = -2
  /\ snd (state_callback open_world disarming_drone) = Ok tt
  /\ flight_state (fst (state_callback open_world disarming_drone)) = MANUAL
  /\ in_mission (fst (state_callback open_world disarming_drone)) = false.
Proof.
  rewrite (state_callback_disarming open_world disarming_drone)
    by reflexivity.
  repeat split; reflexivity.
Qed.

(** C3, as stated, fails: when [plan_path] returns on the armed vehicle of
    [open_world], the flight state is PLANNING and no takeoff command has
    been issued. *)
Lemma planning_returns_before_takeoff :
  exists d' : drone,
    plan_path open_world armed_drone = (d', Ok tt)
    /\ flight_state d' = PLANNING
    /\ flight_state d' <> TAKEOFF
    /\ forall a : Q, ~ In (Takeoff a) (commands d').
Proof.
  eexists. split; [vm_compute; reflexivity|].
  split; [reflexivity|]. split; [discriminate|].
  intros a H. cbn in H.
  repeat (destruct H as [H|H]; [discriminate H|]). exact H.
Qed.

(** C3, amended: [plan_path] returns in state PLANNING, having issued the
    set-home command and sent the waypoints and nothing else; the takeoff
    is the reaction to the next vehicle-status event of an active mission,
    whatever that event reports: it sets the state to TAKEOFF and issues the
    takeoff command to the target altitude. *)
Theorem takeoff_follows_next_status_event (w : world) (d d' : drone)
    (Hlen : (2 < length (target_position d))%nat)
    (Hplan : plan_path w d = (d', Ok tt))
    (Hmission : in_mission d = true) :
  flight_state d' = PLANNING
  /\ commands d'
     = commands d ++ [SetHomePosition (snd (colliders_home w))
                                      (fst (colliders_home w)) 0;
                      SendWaypoints (waypoints d')]
  /\ state_callback w d'
     = (issue (Takeoff (inject_Z TARGET_ALTITUDE)) (set_flight_state TAKEOFF d'),
        Ok tt).
Proof.
  destruct (plan_path_returns w d d' Hplan) as (Hs & Hm & Ht & Hc).
  split; [exact Hs|]. split; [exact Hc|].
  unfold state_callback. rewrite Hm, Hmission, Hs.
  unfold takeoff_transition, and_then, update. cbn.
  rewrite Ht. unfold at_index.
  destruct (target_position d) as [|x [|y [|z r]]]; cbn in Hlen; try lia.
  reflexivity.
Qed.

Lemma takeoff_follows_next_status_event_witness :
  exists d' : drone,
    plan_path open_world armed_drone = (d', Ok tt)
    /\ flight_state d' = PLANNING
    /\ flight_state (fst (state_callback open_world d')) = TAKEOFF.
Proof.
  exists (fst (plan_path open_world armed_drone)).
  assert (Hplan : plan_path open_world armed_drone
                  = (fst (plan_path open_world armed_drone), Ok tt))
    by (vm_compute; reflexivity).
  assert (Hlen : (2 < length (target_position armed_drone))%nat)
    by (cbn; lia).
  destruct (takeoff_follows_next_status_event open_world armed_drone _
              Hlen Hplan eq_refl) as (Hs & _ & Hcb).
  split; [exact Hplan|]. split; [exact Hs|].
  rewrite Hcb. reflexivity.
Defined.

(** [waypoint_transition] on an empty queue: the state is already
    WAYPOINT when [pop(0)] raises. *)
Lemma waypoint_transition_empty (d : drone) :
  waypoints d = [] ->
  waypoint_transition d = (set_flight_state WAYPOINT d, Raise IndexError).
Proof.
  intros H. unfold waypoint_transition, and_then, update, pop_waypoint.
  cbn. rewrite H. reflexivity.
Qed.

(** C10: [waypoint_transition] pops the queue without looking at it.  When
    [plan_path] has returned with an empty waypoint queue, the next
    vehicle-status event takes the machine out of PLANNING to TAKEOFF, and
    a position event that reports the takeoff altitude then raises
    [IndexError] from [pop(0)], with the state already set to WAYPOINT. *)
Theorem empty_plan_breaks_takeoff (w : world) (d d1 : drone)
    (Hmission : in_mission d = true)
    (Hplan : plan_path w d = (d1, Ok tt))
    (Hempty : waypoints d1 = []) :
  exists d2 : drone,
    state_callback w d1 = (d2, Ok tt)
    /\ flight_state d2 = TAKEOFF
    /\ forall p : Q * Q * Q,
         takeoff_altitude_reached (set_local_position p d2) = true ->
         local_position_callback (set_local_position p d2)
         = (set_flight_state WAYPOINT (set_local_position p d2),
            Raise IndexError).
Proof.
  destruct (plan_path_returns w d d1 Hplan) as (Hs & Hm & _ & _).
  exists (issue (Takeoff (at_index (target_position d1) 2))
                (set_flight_state TAKEOFF d1)).
  split.
  - unfold state_callback. rewrite Hm, Hmission, Hs. reflexivity.
  - split; [reflexivity|]. intros p Halt.
    unfold local_position_callback.
    cbn [flight_state set_local_position issue set_flight_state].
    rewrite Halt. apply waypoint_transition_empty. exact Hempty.
Qed.

Lemma empty_plan_breaks_takeoff_witness :
  exists d2 : drone,
    state_callback closed_world (fst (plan_path closed_world armed_drone))
    = (d2, Ok tt)
    /\ flight_state d2 = TAKEOFF
    /\ forall p : Q * Q * Q,
         takeoff_altitude_reached (set_local_position p d2) = true ->
         local_position_callback (set_local_position p d2)
         = (set_flight_state WAYPOINT (set_local_position p d2),
            Raise IndexError).
Proof.
  apply (empty_plan_breaks_takeoff closed_world armed_drone).
  - reflexivity.
  - vm_compute. reflexivity.
  - vm_compute. reflexivity.
Defined.

End FlightStateMachine.

(** ** prune_path *)

Section PrunePath.

Import PlanningUtils MotionPlanning Inputs.

Variable line : Z -> Z -> Z -> Z -> list node.
Variable g : grid.

(** The source's recursion, on a path of three positions or more, where
    two frames or more are free. *)
Lemma prune_path_unfold (free : nat) (first second third : node)
    (rest : list node) :
  prune_path line g (S (S free)) (first :: second :: third :: rest)
  = (b <- blocked line g first third ;;
     if (b : bool) then
       tail <- prune_path line g (S free) (second :: third :: rest) ;;
       Ok (first :: tail)
     else prune_path line g (S free) (first :: third :: rest))%result.
Proof. reflexivity. Qed.

Lemma prune_from_eq (free : nat) (a b c : node) (rest : list node) :
  prune_from line g (S (S free)) a b (c :: rest)
  = (r <- blocked line g a c ;;
     if (r : bool) then
       tail <- prune_from line g (S free) b c rest ;;
       Ok (a :: tail)
     else prune_from line g (S free) a c rest)%result.
Proof. reflexivity. Qed.

(** A call that returns, on two positions and on more. *)
Lemma prune_from_end (frames : nat) (a b : node) (q : list node) :
  prune_from line g frames a b [] = Ok q ->
  q = [a; b] /\ (1 <= frames)%nat.
Proof.
  destruct frames as [|free]; cbn [prune_from]; [discriminate|].
  intros H. injection H as <-. split; [reflexivity|lia].
Qed.

Lemma prune_from_step (frames : nat) (a b c : node) (rest q : list node) :
  prune_from line g frames a b (c :: rest) = Ok q ->
  exists free : nat,
    frames = S (S free)
    /\ ((blocked line g a c = Ok true
         /\ exists tail : list node,
              prune_from line g (S free) b c rest = Ok tail
              /\ q = a :: tail)
        \/ (blocked line g a c = Ok false
            /\ prune_from line g (S free) a c rest = Ok q)).
Proof.
  destruct frames as [|[|free]]; [discriminate|discriminate|].
  rewrite prune_from_eq.
  intros H. exists free. split; [reflexivity|].
  destruct (blocked line g a c) as [[|]| |]; cbn [bind] in H;
    try discriminate H.
  - left. split; [reflexivity|].
    destruct (prune_from line g (S free) b c rest) as [tail| |];
      cbn [bind] in H; try discriminate H.
    injection H as <-. exists tail. split; reflexivity.
  - right. split; [reflexivity|exact H].
Qed.

(** A call that returns had a frame for each of the nested calls. *)
Lemma prune_from_depth (rest : list node) :
  forall (frames : nat) (a b : node) (r : list node),
    prune_from line g frames a b rest = Ok r ->
    (S (length rest) <= frames)%nat.
Proof.
  induction rest as [|c rest IH]; intros frames a b r H.
  - apply prune_from_end in H. cbn. lia.
  - apply prune_from_step in H as (free & -> & [[_ (tail & H & _)]|[_ H]]);
      apply IH in H; cbn [length]; lia.
Qed.

Lemma prune_from_length (rest : list node) :
  forall (frames : nat) (a b : node) (r : list node),
    prune_from line g frames a b rest = Ok r ->
    (length r <= 2 + length rest)%nat.
Proof.
  induction rest as [|c rest IH]; intros frames a b r H.
  - apply prune_from_end in H as [-> _]. cbn. lia.
  - apply prune_from_step in H as (free & -> & [[_ (tail & H & ->)]|[_ H]]);
      apply IH in H; cbn [length] in *; lia.
Qed.

(** The paths that pruning leaves as they are. *)
Lemma prune_from_fixed (rest : list node) :
  forall (frames : nat) (a b : node),
    (S (length rest) <= frames)%nat ->
    prune_from line g frames a b rest = Ok (a :: b :: rest)
    <-> corners_needed line g (a :: b :: rest).
Proof.
  induction rest as [|c rest IH]; intros frames a b Hf.
  - destruct frames as [|free]; [cbn in Hf; lia|]. cbn. tauto.
  - change (corners_needed line g (a :: b :: c :: rest))
      with (blocked line g a c = Ok true
            /\ corners_needed line g (b :: c :: rest)).
    split.
    + intros H.
      apply prune_from_step in H as (free & -> & [[Hb (tail & H & E)]|[_ H]]).
      * injection E as <-. split; [exact Hb|].
        apply (IH (S free) b c); [cbn [length] in Hf; lia|exact H].
      * apply prune_from_length in H. cbn [length] in H. lia.
    + intros [Hb Hc].
      destruct frames as [|[|free]]; cbn [length] in Hf; try lia.
      rewrite prune_from_eq, Hb. cbn [bind].
      apply (IH (S free) b c) in Hc; [|lia]. rewrite Hc. reflexivity.
Qed.

Lemma prune_path_fixed (frames : nat) (q : list node) :
  (1 <= frames)%nat -> (length q <= S frames)%nat ->
  prune_path line g frames q = Ok q <-> corners_needed line g q.
Proof.
  intros H1 Hf. destruct frames as [|free]; [lia|].
  destruct q as [|a [|b rest]]; [cbn; tauto | cbn; tauto |].
  cbn [prune_path]. apply prune_from_fixed. cbn [length] in Hf. lia.
Qed.

(** A pruning that returns had the frames for its result. *)
Lemma prune_path_depth (frames : nat) (p q : list node) :
  prune_path line g frames p = Ok q ->
  (1 <= frames)%nat /\ (length q <= S frames)%nat.
Proof.
  destruct frames as [|free]; cbn [prune_path]; [discriminate|].
  destruct p as [|a [|b rest]].
  - intros H. injection H as <-. cbn. lia.
  - intros H. injection H as <-. cbn. lia.
  - intros H. pose proof (prune_from_depth _ _ _ _ _ H).
    apply prune_from_length in H. lia.
Qed.

(** Up to three positions, a second pruning changes nothing. *)
Lemma prune_path_twice_short (frames : nat) (p : list node) :
  (length p <= 3)%nat ->
  (q <- prune_path line g frames p ;; prune_path line g frames q)%result
  = prune_path line g frames p.
Proof.
  destruct frames as [|[|free]];
    destruct p as [|a [|b [|c [|d r]]]]; cbn; intros H; try reflexivity;
    try lia.
  destruct (blocked line g a c) as [[|]| |] eqn:E; cbn; try reflexivity.
  rewrite E. reflexivity.
Qed.

(** C8, amended: pruning the pruned path [q] of a path [p] again gives [q]
    exactly when every three consecutive positions [a; b; c] of [q] have
    an obstacle on the segment from [a] to [c]. *)
Theorem prune_path_twice (frames : nat) (p q : list node)
    (Hq : prune_path line g frames p = Ok q) :
  (q' <- prune_path line g frames p ;; prune_path line g frames q')%result
  = prune_path line g frames p
  <-> corners_needed line g q.
Proof.
  destruct (prune_path_depth frames p q Hq) as [H1 Hf].
  rewrite Hq. cbn [bind]. apply prune_path_fixed; assumption.
Qed.

End PrunePath.

Section PrunePathExamples.

Import PlanningUtils MotionPlanning Inputs.

(** C8, as stated, fails: on [corner_grid] the first pruning of
    [corner_path] keeps (1,1), because the segment from (0,0) to (0,2) is
    blocked, and the second pruning drops it, because the segment from
    (0,0) to (1,0) is free. *)
Lemma prune_path_not_idempotent :
  prune_path Bresenham.bresenham corner_grid free_frames corner_path
  = Ok [(0, 0); (1, 1); (1, 0)]
  /\ prune_path Bresenham.bresenham corner_grid free_frames
       [(0, 0); (1, 1); (1, 0)]
     = Ok [(0, 0); (1, 0)]
  /\ (q <- prune_path Bresenham.bresenham corner_grid free_frames corner_path ;;
      prune_path Bresenham.bresenham corner_grid free_frames q)%result
     <> prune_path Bresenham.bresenham corner_grid free_frames corner_path.
Proof.
  split; [reflexivity|]. split; [reflexivity|].
  cbv. discriminate.
Qed.

Lemma prune_path_twice_witness :
  (q' <- prune_path Bresenham.bresenham corner_grid free_frames
           [(0, 0); (1, 1); (0, 2)] ;;
   prune_path Bresenham.bresenham corner_grid free_frames q')%result
  = prune_path Bresenham.bresenham corner_grid free_frames
      [(0, 0); (1, 1); (0, 2)]
  <-> corners_needed Bresenham.bresenham corner_grid [(0, 0); (1, 1); (0, 2)].
Proof.
  apply (prune_path_twice Bresenham.bresenham corner_grid free_frames
           [(0, 0); (1, 1); (0, 2)] [(0, 0); (1, 1); (0, 2)]).
  reflexivity.
Defined.

End PrunePathExamples.

(** ** a_star on given grids *)

Section SearchExamples.

Import PlanningUtils Paths Inputs.

Lemma one_below_sqrt2 : (1 < sqrt 2)%R.
Proof.
  rewrite <- sqrt_1 at 1. apply sqrt_lt_1; lra.
Qed.

(** C1, at a failing input: on [detour_grid], from (2,0) to (0,3), the
    search returns a path of one axis move and three diagonal moves, of
    cost 1 + 3 * sqrt 2, while the path through (2,1) has three axis moves
    and one diagonal move, of cost 3 + sqrt 2.  The position (2,2) is first
    seen from (1,1), at cost 2 * sqrt 2, and is not taken again from (2,1),
    where its cost would be 2. *)
Theorem a_star_detour_not_minimal :
  a_star detour_grid heuristic (2, 0) (0, 3)
  = Ok (detour_found, path_cost detour_found)
  /\ is_path detour_grid (2, 0) (0, 3) detour_found = true
  /\ is_path detour_grid (2, 0) (0, 3) detour_better = true
  /\ path_cost_R detour_found = (1 + 3 * sqrt 2)%R
  /\ path_cost_R detour_better = (3 + sqrt 2)%R
  /\ (path_cost_R detour_better < path_cost_R detour_found)%R
  /\ PrimFloat.ltb (path_cost detour_better) (path_cost detour_found) = true.
Proof.
  assert (Hf : path_cost_R detour_found = (1 + 3 * sqrt 2)%R)
    by (cbn; lra).
  assert (Hb : path_cost_R detour_better = (3 + sqrt 2)%R)
    by (cbn; lra).
  split; [vm_compute; reflexivity|].
  split; [vm_compute; reflexivity|].
  split; [vm_compute; reflexivity|].
  split; [exact Hf|]. split; [exact Hb|].
  split; [rewrite Hf, Hb; pose proof one_below_sqrt2; lra|].
  vm_compute. reflexivity.
Qed.

(** On the open grid the search goes along the diagonal, nine diagonal
    moves, and the pruning keeps the two ends. *)
Example a_star_open_grid :
  a_star open_grid heuristic (0, 0) (9, 9) = Ok (diagonal, path_cost diagonal)
  /\ path_cost_R diagonal = (9 * sqrt 2)%R
  /\ MotionPlanning.prune_path Bresenham.bresenham open_grid free_frames
       diagonal
     = Ok [(0, 0); (9, 9)].
Proof.
  split; [vm_compute; reflexivity|].
  split; [cbn; lra|vm_compute; reflexivity].
Qed.

End SearchExamples.

(** ** The containers of the search *)

Section Containers.

Import PlanningUtils SearchSpec.

Lemma node_eqb_eq (a b : node) : node_eqb a b = true <-> a = b.
Proof.
  destruct a as [x y], b as [x' y']. unfold node_eqb. cbn.
  rewrite andb_true_iff, !Z.eqb_eq. split.
  - intros [-> ->]. reflexivity.
  - intros H. injection H as -> ->. split; reflexivity.
Qed.

Lemma node_eqb_refl (a : node) : node_eqb a a = true.
Proof. apply node_eqb_eq. reflexivity. Qed.

Lemma node_eqb_neq (a b : node) : node_eqb a b = false <-> a <> b.
Proof.
  rewrite <- node_eqb_eq. destruct (node_eqb a b); split; congruence.
Qed.

Lemma mem_node (n : node) (visited : list pyval) :
  mem (PyNode n) visited = true <-> In (PyNode n) visited.
Proof.
  unfold mem. rewrite existsb_exists. split.
  - intros [x [Hin Heq]]. destruct x as [z|m]; cbn in Heq; [discriminate|].
    apply node_eqb_eq in Heq. subst m. exact Hin.
  - intros Hin. exists (PyNode n). split; [exact Hin|].
    cbn. apply node_eqb_refl.
Qed.

Lemma lookup_none (n : node) (b : branch_map) :
  lookup n b = None <-> ~ In n (keys b).
Proof.
  induction b as [|[k r] b IH]; cbn.
  - tauto.
  - destruct (node_eqb n k) eqn:E.
    + apply node_eqb_eq in E. subst k. split; [discriminate|tauto].
    + apply node_eqb_neq in E. rewrite IH. split.
      * intros H [H'|H']; [congruence|tauto].
      * tauto.
Qed.

Lemma lookup_in (n : node) (b : branch_map) :
  In n (keys b) -> exists r, lookup n b = Some r.
Proof.
  intros H. destruct (lookup n b) as [r|] eqn:E.
  - exists r. reflexivity.
  - apply lookup_none in E. contradiction.
Qed.

Lemma lookup_some (n : node) (r : record) (b : branch_map) :
  lookup n b = Some r -> In n (keys b).
Proof.
  induction b as [|[k r'] b IH]; cbn; [discriminate|].
  destruct (node_eqb n k) eqn:E.
  - apply node_eqb_eq in E. intros _. left. congruence.
  - intros H. right. apply IH. exact H.
Qed.

(** With distinct keys, a lookup finds the binding wherever it is. *)
Lemma lookup_app (n : node) (r : record) (b1 b2 : branch_map) :
  ~ In n (keys b1) -> lookup n (b1 ++ (n, r) :: b2) = Some r.
Proof.
  induction b1 as [|[k r'] b1 IH]; cbn; intros H.
  - rewrite node_eqb_refl. reflexivity.
  - destruct (node_eqb n k) eqn:E.
    + apply node_eqb_eq in E. subst k. tauto.
    + apply IH. tauto.
Qed.

Lemma extract_min_perm (q : list item) :
  forall x : item,
    Permutation (x :: q) (fst (extract_min x q) :: snd (extract_min x q)).
Proof.
  induction q as [|y q IH]; intros x; cbn.
  - apply Permutation_refl.
  - specialize (IH y). destruct (extract_min y q) as [m r]. cbn in IH.
    destruct (item_ltb m x); cbn.
    + eapply perm_trans; [apply perm_skip; exact IH|]. apply perm_swap.
    + apply perm_skip. exact IH.
Qed.

Lemma queue_get_perm (q q' : list item) (it : item) :
  queue_get q = Some (it, q') -> Permutation q (it :: q').
Proof.
  destruct q as [|x q]; cbn; [discriminate|].
  intros H. injection H as H.
  pose proof (extract_min_perm q x) as P. rewrite H in P. exact P.
Qed.

Lemma queue_get_none (q : list item) : queue_get q = None -> q = [].
Proof. destruct q; cbn; [reflexivity|discriminate]. Qed.

Lemma all_actions (a : Action) : In a actions.
Proof. destruct a; cbn; tauto. Qed.

End Containers.

(** ** The search loop of a_star *)

Section SearchLoop.

Import PlanningUtils Paths SearchSpec.

Variable g : grid.
Variable h : node -> node -> float.
Variables start goal : node.

Lemma chain_nodup (b : branch_map) : chain start b -> NoDup (keys b).
Proof.
  induction 1 as [|n c p a b Hc IH Hn Hp Hm]; cbn; constructor; assumption.
Qed.

Lemma chain_suffix (b1 b2 : branch_map) :
  chain start (b1 ++ b2) -> chain start b2.
Proof.
  induction b1 as [|x b1 IH]; cbn; intros H; [exact H|].
  inversion H; subst. apply IH. assumption.
Qed.

Lemma valid_in_cells (n : node) :
  is_valid_node g n = true -> In n (all_cells g).
Proof.
  destruct n as [x y]. unfold is_valid_node, all_cells.
  destruct ((x <? 0) || (x >? shape0 g - 1) || (y <? 0) || (y >? shape1 g - 1))
    eqn:E; [discriminate|].
  intros _. apply orb_false_iff in E as [E Ey2].
  apply orb_false_iff in E as [E Ey1].
  apply orb_false_iff in E as [Ex1 Ex2].
  apply Z.ltb_ge in Ex1, Ey1.
  rewrite Z.gtb_ltb in Ex2, Ey2. apply Z.ltb_ge in Ex2, Ey2.
  apply in_prod; apply in_map_iff.
  - exists (Z.to_nat x). split; [lia|]. apply in_seq. lia.
  - exists (Z.to_nat y). split; [lia|]. apply in_seq. lia.
Qed.

Lemma all_cells_length : length (all_cells g) = cells g.
Proof.
  unfold all_cells, cells.
  etransitivity; [apply length_prod|].
  rewrite !length_map, !length_seq. reflexivity.
Qed.

(** No more positions are seen than the grid has cells. *)
Lemma keys_bounded (b : branch_map) :
  chain start b ->
  (forall n, In n (keys b) -> is_valid_node g n = true) ->
  (length (keys b) <= cells g)%nat.
Proof.
  intros Hc Hv. rewrite <- all_cells_length.
  apply NoDup_incl_length; [apply chain_nodup; exact Hc|].
  intros n Hn. apply valid_in_cells. apply Hv. exact Hn.
Qed.

Lemma valid_actions_spec (cur : node) (a : Action) :
  In a (valid_actions g cur) <-> is_valid_node g (move cur a) = true.
Proof.
  unfold valid_actions. rewrite filter_In. split; [tauto|].
  intros H. split; [apply all_actions|exact H].
Qed.

Lemma closed_mono (b b' : branch_map) (n : node) :
  incl (keys b) (keys b') -> closed g b n -> closed g b' n.
Proof. intros Hi Hc a Ha. apply Hi, Hc, Ha. Qed.

(** One neighbour of the position [cur] being expanded. *)
Lemma visit_invariant (cur : node) (c : float) (st : search_state)
    (a : Action) :
  invariant g start goal (eq cur) st ->
  cur = start \/ In cur (seen st) ->
  reachable g start cur ->
  is_valid_node g (move cur a) = true ->
  invariant g start goal (eq cur) (visit h goal cur c st a)
  /\ incl (seen st) (seen (visit h goal cur c st a))
  /\ In (move cur a) (seen (visit h goal cur c st a))
  /\ (length (snd (visit h goal cur c st a)) + length (seen st)
      = length (snd st) + length (seen (visit h goal cur c st a)))%nat.
Proof.
  intros Hinv Hcur Hrc Hva.
  destruct st as [[v b] q]. unfold visit.
  destruct (mem (PyNode (move cur a)) v) eqn:E; cbn [negb].
  - split; [exact Hinv|]. split; [apply incl_refl|]. split; [|lia].
    apply (inv_visited _ _ _ _ _ Hinv). apply mem_node. exact E.
  - destruct Hinv as [Hvis Hch Hval Hq Hre Hcl Hgo].
    unfold seen, frontier, queue_put in *. cbn [fst snd] in *.
    assert (Hnew : ~ In (move cur a) (keys b)).
    { intros Hin. apply Hvis in Hin. apply mem_node in Hin. congruence. }
    split; [|split; [|split]].
    + constructor; unfold seen, frontier; cbn [fst snd keys queue_nodes map In].
      * intros n. split.
        -- intros [H|H]; [injection H as <-; left; reflexivity|].
           right. apply Hvis. exact H.
        -- intros [H|H]; [left; rewrite H; reflexivity|].
           right. apply Hvis. exact H.
      * constructor; [assumption|assumption|assumption|reflexivity].
      * intros n [H|H]; [subst n; exact Hva|apply Hval; exact H].
      * intros n [H|H]; [right; left; exact H|].
        destruct (Hq n H) as [H'|H']; [left; exact H'|right; right; exact H'].
      * intros n [H|H]; [|apply Hre; exact H].
        subst n. apply reach_step with (n := cur); [exact Hrc|].
        exists a. split; [reflexivity|exact Hva].
      * intros n Hn.
        assert (Hc : n = move cur a \/ (n = start \/ In n (keys b))).
        { destruct Hn as [H|[H|H]]; [right; left; exact H|left; congruence|].
          right. right. exact H. }
        destruct Hc as [Hc|Hc]; [right; left; left; congruence|].
        destruct (Hcl n Hc) as [H|[H|H]];
          [left; exact H|right; left; right; exact H|].
        right. right. eapply closed_mono; [|exact H].
        intros x Hx. right. exact Hx.
      * intros Hg.
        assert (Hc : goal = move cur a \/ (goal = start \/ In goal (keys b))).
        { destruct Hg as [H|[H|H]]; [right; left; exact H|left; congruence|].
          right. right. exact H. }
        destruct Hc as [Hc|Hc]; [left; congruence|].
        right. apply Hgo. exact Hc.
    + intros x Hx. right. exact Hx.
    + left. reflexivity.
    + unfold keys. cbn. lia.
Qed.

(** All the neighbours of [cur]. *)
Lemma expand_invariant (cur : node) (c : float) (l : list Action) :
  forall st : search_state,
    invariant g start goal (eq cur) st ->
    cur = start \/ In cur (seen st) ->
    reachable g start cur ->
    (forall a, In a l -> is_valid_node g (move cur a) = true) ->
    invariant g start goal (eq cur) (fold_left (visit h goal cur c) l st)
    /\ incl (seen st) (seen (fold_left (visit h goal cur c) l st))
    /\ (forall a, In a l ->
                  In (move cur a) (seen (fold_left (visit h goal cur c) l st)))
    /\ (length (snd (fold_left (visit h goal cur c) l st)) + length (seen st)
        = length (snd st)
          + length (seen (fold_left (visit h goal cur c) l st)))%nat.
Proof.
  induction l as [|a l IH]; intros st Hinv Hcur Hrc Hl; cbn [fold_left].
  - split; [exact Hinv|]. split; [apply incl_refl|].
    split; [intros a []|lia].
  - destruct (visit_invariant cur c st a Hinv Hcur Hrc (Hl a (or_introl eq_refl)))
      as (Hinv1 & Hincl1 & Hin1 & Hlen1).
    assert (Hcur1 : cur = start \/ In cur (seen (visit h goal cur c st a))).
    { destruct Hcur as [H|H]; [left; exact H|right; apply Hincl1; exact H]. }
    destruct (IH (visit h goal cur c st a) Hinv1 Hcur1 Hrc
                 (fun b Hb => Hl b (or_intror Hb)))
      as (Hinv2 & Hincl2 & Hin2 & Hlen2).
    split; [exact Hinv2|]. split; [|split].
    + intros x Hx. apply Hincl2, Hincl1, Hx.
    + intros b [Hb|Hb]; [subst b; apply Hincl2; exact Hin1|apply Hin2; exact Hb].
    + lia.
Qed.

(** One turn of the loop that does not end the search: [it] leaves the
    queue and its position is expanded. *)
Lemma turn_invariant (v : list pyval) (b : branch_map) (q q' : list item)
    (it : item) (c : float) :
  invariant g start goal nowhere (v, b, q) ->
  Permutation q (it :: q') ->
  snd it <> goal ->
  invariant g start goal nowhere (expand g h goal (snd it) c (v, b, q'))
  /\ (S (work g (expand g h goal (snd it) c (v, b, q'))) = work g (v, b, q))%nat
  /\ incl (keys b) (seen (expand g h goal (snd it) c (v, b, q'))).
Proof.
  intros Hinv P Hng. set (cur := snd it) in *.
  assert (Pn : Permutation (queue_nodes q) (cur :: queue_nodes q'))
    by (apply (Permutation_map snd) in P; exact P).
  assert (Hq' : forall n, In n (queue_nodes q') -> In n (queue_nodes q)).
  { intros n Hn. apply (Permutation_in n (Permutation_sym Pn)).
    right. exact Hn. }
  assert (Hcur : cur = start \/ In cur (keys b)).
  { apply (inv_queue _ _ _ _ _ Hinv).
    apply (Permutation_in cur (Permutation_sym Pn)). left. reflexivity. }
  assert (Hrc : reachable g start cur).
  { destruct Hcur as [->|H]; [apply reach_start|].
    apply (inv_reach _ _ _ _ _ Hinv). exact H. }
  assert (Hmid : invariant g start goal (eq cur) (v, b, q')).
  { destruct Hinv as [Hvis Hch Hval Hq Hre Hcl Hgo].
    unfold seen, frontier in *. cbn [fst snd] in *.
    constructor; unfold seen, frontier; cbn [fst snd]; try assumption.
    - intros n Hn. apply Hq, Hq', Hn.
    - intros n Hn. destruct (Hcl n Hn) as [[]|[H|H]]; [|right; right; exact H].
      apply (Permutation_in n Pn) in H.
      destruct H as [H|H]; [left; exact H|right; left; exact H].
    - intros Hg. apply Hgo in Hg. apply (Permutation_in goal Pn) in Hg.
      destruct Hg as [H|H]; [congruence|exact H]. }
  destruct (expand_invariant cur c (valid_actions g cur) (v, b, q') Hmid Hcur Hrc)
    as (Hinv' & Hincl & Hall & Hlen).
  { intros a Ha. apply valid_actions_spec. exact Ha. }
  fold (expand g h goal cur c (v, b, q')) in *.
  set (st' := expand g h goal cur c (v, b, q')) in *.
  assert (Hnow : invariant g start goal nowhere st').
  { destruct Hinv' as [Hvis Hch Hval Hq Hre Hcl Hgo].
    constructor; try assumption.
    intros n Hn. destruct (Hcl n Hn) as [H|[H|H]];
      [|right; left; exact H|right; right; exact H].
    subst n. right. right. intros a Ha.
    apply Hall, valid_actions_spec, Ha. }
  split; [exact Hnow|]. split; [|exact Hincl].
  assert (B' : (length (seen st') <= cells g)%nat).
  { apply keys_bounded; [apply (inv_chain _ _ _ _ _ Hnow)|].
    apply (inv_valid _ _ _ _ _ Hnow). }
  assert (B : (length (keys b) <= length (seen st'))%nat).
  { apply NoDup_incl_length; [|exact Hincl].
    apply chain_nodup. apply (inv_chain _ _ _ _ _ Hinv). }
  assert (L : length q = S (length q')) by (apply Permutation_length in P; exact P).
  unfold work. unfold seen at 2. cbn [fst snd] in *.
  unfold seen at 1 in Hlen. cbn [fst snd] in Hlen. lia.
Qed.

(** The loop ends, without a [KeyError]; it reports that the goal was
    taken from the queue only if the goal can be reached, and it reports
    an empty queue only if the goal cannot be reached. *)
Lemma search_spec (fuel : nat) :
  forall st : search_state,
    invariant g start goal nowhere st ->
    (work g st < fuel)%nat ->
    exists (found : bool) (b : branch_map),
      search fuel g h start goal st = Ok (found, b)
      /\ chain start b
      /\ (forall x, In x (keys b) -> is_valid_node g x = true)
      /\ incl (seen st) (keys b)
      /\ (found = true ->
          (goal = start \/ In goal (keys b)) /\ reachable g start goal)
      /\ (found = false -> ~ reachable g start goal).
Proof.
  induction fuel as [|fuel IH]; intros st Hinv Hw; [lia|].
  destruct st as [[v b] q]. cbn [search].
  destruct (queue_get q) as [[it q']|] eqn:Eq.
  - apply queue_get_perm in Eq.
    assert (Hcur : snd it = start \/ In (snd it) (keys b)).
    { apply (inv_queue _ _ _ _ _ Hinv). unfold frontier. cbn [snd].
      apply (Permutation_in (snd it)
               (Permutation_sym (Permutation_map snd Eq))).
      left. reflexivity. }
    assert (Hcost : exists c,
               (if node_eqb (snd it) start then Some 0%float
                else option_map (fun r : float * node * Action => fst (fst r))
                                (lookup (snd it) b)) = Some c).
    { destruct (node_eqb (snd it) start) eqn:Es; [eexists; reflexivity|].
      apply node_eqb_neq in Es. destruct Hcur as [H|H]; [contradiction|].
      destruct (lookup_in _ _ H) as [r ->]. eexists. reflexivity. }
    destruct Hcost as [c Hcost].
    destruct (node_eqb (snd it) goal) eqn:Eg.
    + exists true, b.
      split; [rewrite Hcost; reflexivity|]. apply node_eqb_eq in Eg.
      split; [apply (inv_chain _ _ _ _ _ Hinv)|].
      split; [apply (inv_valid _ _ _ _ _ Hinv)|].
      split; [apply incl_refl|]. split; [|discriminate].
      intros _. rewrite <- Eg. split; [exact Hcur|].
      destruct Hcur as [->|H]; [apply reach_start|].
      apply (inv_reach _ _ _ _ _ Hinv). exact H.
    + assert (Hng : snd it <> goal) by (apply node_eqb_neq; exact Eg).
      destruct (turn_invariant v b q q' it c Hinv Eq Hng) as (Hinv' & Hw' & Hi).
      destruct (IH _ Hinv' ltac:(lia))
        as (found & b' & Hs & Hc & Hv & Hi' & Ht & Hf).
      exists found, b'.
      split; [rewrite Hcost; exact Hs|]. split; [exact Hc|].
      split; [exact Hv|]. split; [|split; assumption].
      intros x Hx. apply Hi', Hi, Hx.
  - apply queue_get_none in Eq. subst q. exists false, b.
    split; [reflexivity|]. split; [apply (inv_chain _ _ _ _ _ Hinv)|].
    split; [apply (inv_valid _ _ _ _ _ Hinv)|].
    split; [apply incl_refl|]. split; [discriminate|].
    intros _ Hr.
    assert (Hall : forall n, reachable g start n -> n = start \/ In n (keys b)).
    { intros n Hn. induction Hn as [|n m Hn IHn [a [-> Hv]]]; [left; reflexivity|].
      destruct (inv_closed _ _ _ _ _ Hinv n IHn) as [[]|[[]|Hc]].
      right. apply Hc. exact Hv. }
    apply (inv_goal _ _ _ _ _ Hinv (Hall goal Hr)).
Qed.

(** The state in which [a_star] enters the loop. *)
Lemma initial_invariant :
  invariant g start goal nowhere
    ([PyInt (fst start); PyInt (snd start)], [], queue_put (0%float, start) []).
Proof.
  constructor; unfold seen, frontier, queue_put; cbn.
  - intros n. split; [intros [H|[H|[]]]; discriminate|intros []].
  - constructor.
  - intros n [].
  - intros n [H|[]]. left. congruence.
  - intros n [].
  - intros n [H|[]]. right. left. left. congruence.
  - intros [H|[]]. left. congruence.
Qed.

End SearchLoop.

(** ** a_star *)

Section AStar.

Import PlanningUtils Paths SearchSpec Inputs.

Variable g : grid.
Variable h : node -> node -> float.
Variables start goal : node.

(** More fuel does not change an answer. *)
Lemma search_more_fuel (fuel : nat) :
  forall (st : search_state) (r : bool * branch_map),
    search fuel g h start goal st = Ok r ->
    forall m : nat, search (fuel + m) g h start goal st = Ok r.
Proof.
  induction fuel as [|fuel IH]; intros st r H m; [discriminate H|].
  destruct st as [[v b] q]. cbn [search Nat.add] in *.
  destruct (queue_get q) as [[it q']|]; [|exact H].
  destruct (if node_eqb (snd it) start then Some 0%float
            else option_map (fun r : float * node * Action => fst (fst r))
                            (lookup (snd it) b)) as [c|]; [|exact H].
  destruct (node_eqb (snd it) goal); [exact H|].
  apply IH. exact H.
Qed.

(** Walking back from a bound position reaches [start], within one step
    per binding, along valid moves. *)
Lemma retrace_spec (b2 : branch_map) :
  forall (b1 : branch_map) (n : node) (path : list node) (fuel : nat),
    chain start (b1 ++ b2) ->
    (forall x, In x (keys (b1 ++ b2)) -> is_valid_node g x = true) ->
    In n (keys b2) ->
    (length b2 < fuel)%nat ->
    exists tail : list node,
      retrace fuel (b1 ++ b2) start n path = Ok (path ++ tail ++ [start])
      /\ climbs g n (tail ++ [start]).
Proof.
  induction b2 as [|[k [[c p] a]] b2 IH]; intros b1 n path fuel Hc Hv Hn Hf.
  - destruct Hn.
  - assert (Hc' : chain start ((b1 ++ [(k, (c, p, a))]) ++ b2))
      by (rewrite <- app_assoc; exact Hc).
    assert (Hv' : forall x, In x (keys ((b1 ++ [(k, (c, p, a))]) ++ b2)) ->
                            is_valid_node g x = true)
      by (rewrite <- app_assoc; exact Hv).
    destruct (node_eqb n k) eqn:E.
    + apply node_eqb_eq in E. subst k.
      destruct fuel as [|fuel]; [cbn in Hf; lia|]. cbn [retrace].
      assert (Hnd : ~ In n (keys b1)).
      { apply chain_nodup in Hc. unfold keys in Hc. rewrite map_app in Hc.
        cbn in Hc. apply NoDup_remove_2 in Hc.
        intros Hin. apply Hc. apply in_or_app. left. exact Hin. }
      rewrite (lookup_app n (c, p, a) b1 b2 Hnd).
      pose proof (chain_suffix start _ _ Hc) as Hs.
      inversion Hs as [|? ? ? ? ? Hch Hnk Hp Hm]; subst.
      assert (Hstep : step g p (move p a)).
      { exists a. split; [reflexivity|]. apply Hv. unfold keys.
        rewrite map_app. apply in_or_app. right. left. reflexivity. }
      destruct (node_eqb p start) eqn:Ep; cbn [negb].
      * apply node_eqb_eq in Ep. subst p. exists [].
        split; [reflexivity|]. cbn. split; [exact Hstep|exact I].
      * apply node_eqb_neq in Ep.
        destruct Hp as [Hp|Hp]; [contradiction|].
        destruct (IH (b1 ++ [(move p a, (c, p, a))]) p (path ++ [p]) fuel
                     Hc' Hv' Hp)
          as [tail [Ht Hcl]]; [cbn in Hf; lia|].
        exists (p :: tail). rewrite <- (app_assoc b1) in Ht.
        cbn [app] in Ht. split.
        -- etransitivity; [exact Ht|].
           apply f_equal. symmetry.
           apply (app_assoc path [p] (tail ++ [start])).
        -- cbn. split; [exact Hstep|exact Hcl].
    + apply node_eqb_neq in E.
      assert (Hn' : In n (keys b2))
        by (destruct Hn as [H|H]; [cbn in H; congruence|exact H]).
      destruct (IH (b1 ++ [(k, (c, p, a))]) n path fuel Hc' Hv' Hn')
        as [tail [Ht Hcl]]; [cbn in Hf; lia|].
      exists tail. rewrite <- (app_assoc b1) in Ht. split; assumption.
Qed.

Lemma action_between_move (n : node) (a : Action) :
  exists a' : Action, action_between n (move n a) = Some a'.
Proof.
  unfold action_between.
  destruct (find (fun a0 => node_eqb (move n a0) (move n a)) actions)
    as [a'|] eqn:E; [exists a'; reflexivity|].
  pose proof (find_none _ _ E a (all_actions a)) as H. cbn in H.
  rewrite node_eqb_refl in H. discriminate H.
Qed.

Lemma moves_ok_snoc (l : list node) :
  forall s x n : node,
    moves_ok g s (l ++ [x]) = true -> step g x n ->
    moves_ok g s ((l ++ [x]) ++ [n]) = true.
Proof.
  induction l as [|y l IH]; intros s x n H [a [-> Hv]];
    cbn [app moves_ok] in *.
  - destruct (action_between s x); [|discriminate H].
    rewrite andb_true_r in H. rewrite H. cbn [andb].
    destruct (action_between_move x a) as [a' ->]. rewrite Hv. reflexivity.
  - destruct (action_between s y); [|discriminate H].
    apply andb_true_iff in H as [H1 H2]. rewrite H1. cbn [andb].
    apply IH; [exact H2|]. exists a. split; [reflexivity|exact Hv].
Qed.

(** A walk back from [n] to [s], read from [s], is a sequence of valid
    moves. *)
Lemma climbs_moves_ok (l : list node) :
  forall n s : node,
    climbs g n (l ++ [s]) -> moves_ok g s (rev l ++ [n]) = true.
Proof.
  induction l as [|p l IH]; intros n s H; cbn [app climbs] in H.
  - destruct H as [[a [-> Hv]] _]. cbn [rev app moves_ok].
    destruct (action_between_move s a) as [a' ->]. rewrite Hv. reflexivity.
  - destruct H as [Hs Hc]. cbn [rev].
    apply moves_ok_snoc; [|exact Hs]. apply IH. exact Hc.
Qed.

(** The three ways in which [a_star] ends. *)
Lemma a_star_cases :
  (a_star g h start goal = Ok ([], 0%float) /\ ~ reachable g start goal)
  \/ (a_star g h start goal = Raise KeyError /\ goal = start)
  \/ (exists (mid : list node) (c : float),
        a_star g h start goal = Ok (start :: mid ++ [goal], c)
        /\ moves_ok g start (mid ++ [goal]) = true
        /\ reachable g start goal).
Proof.
  unfold a_star, a_star_fuel.
  destruct (search_spec g h start goal (search_fuel g) _
              (initial_invariant g start goal))
    as (found & b & Hs & Hc & Hv & _ & Ht & Hf).
  { unfold work, search_fuel, seen, queue_put. cbn. lia. }
  rewrite Hs. cbn [bind]. destruct found.
  - destruct (Ht eq_refl) as [Hg Hr].
    destruct (lookup goal b) as [[[pc pp] pa]|] eqn:El.
    + right. right.
      assert (Hin : In goal (keys b)) by (eapply lookup_some; exact El).
      destruct (retrace_spec b [] goal [goal] (S (length b)) Hc Hv Hin
                  (Nat.lt_succ_diag_r _)) as [tail [Hre Hcl]].
      cbn [app] in Hre. rewrite Hre. cbn [bind].
      exists (rev tail), pc.
      split; [cbn [rev]; rewrite rev_app_distr; reflexivity|].
      split; [apply climbs_moves_ok; exact Hcl|exact Hr].
    + right. left. split; [reflexivity|].
      destruct Hg as [H|H]; [exact H|].
      apply lookup_none in El. contradiction.
  - left. split; [reflexivity|]. apply Hf. reflexivity.
Qed.

(** C9: [a_star] ends on every grid, for every heuristic, start and
    goal: the fuel given to the search loop, two more than the number of
    cells, is never used up, the walk back along [branch] ends as well, and
    more fuel gives the same answer. *)
Theorem a_star_terminates (n : nat) :
  returned (a_star g h start goal)
  /\ a_star_fuel (search_fuel g + n) g h start goal = a_star g h start goal.
Proof.
  split.
  - destruct a_star_cases as [[-> _]|[[-> _]|(mid & c & -> & _)]]; exact I.
  - unfold a_star, a_star_fuel.
    destruct (search_spec g h start goal (search_fuel g) _
                (initial_invariant g start goal))
      as (found & b & Hs & _).
    { unfold work, search_fuel, seen, queue_put. cbn. lia. }
    rewrite (search_more_fuel _ _ _ Hs n), Hs. reflexivity.
Qed.

(** C5: when no sequence of valid moves leads from [start] to [goal],
    [a_star] returns the empty path and the cost 0, and raises nothing. *)
Theorem a_star_unreachable (Hno : ~ reachable g start goal) :
  a_star g h start goal = Ok ([], 0%float).
Proof.
  destruct a_star_cases as [[H _]|[[_ H]|(mid & c & _ & _ & H)]].
  - exact H.
  - exfalso. apply Hno. rewrite H. apply reach_start.
  - contradiction.
Qed.

(** When the goal can be reached and is not the start, [a_star] returns a
    path of valid moves that begins with [start] and ends with [goal]. *)
Lemma a_star_endpoints :
  reachable g start goal -> goal <> start ->
  exists (mid : list node) (c : float),
    a_star g h start goal = Ok (start :: mid ++ [goal], c)
    /\ is_path g start goal (start :: mid ++ [goal]) = true.
Proof.
  intros Hr Hne.
  destruct a_star_cases as [[_ H]|[[_ H]|(mid & c & H & Hm & _)]];
    [contradiction|contradiction|].
  exists mid, c. split; [exact H|].
  unfold is_path. rewrite node_eqb_refl, Hm.
  change (start :: mid ++ [goal]) with ((start :: mid) ++ [goal]).
  rewrite last_last, node_eqb_refl. reflexivity.
Qed.

End AStar.

Section AStarExamples.

Import PlanningUtils Paths SearchSpec Inputs.

(** C4, at the failing inputs: when the goal is the start, the loop stops
    at its first turn with [branch] empty, and [branch[goal]] raises
    [KeyError]; no path is returned. *)
Theorem a_star_start_is_goal (g : grid) (h : node -> node -> float)
    (start : node) :
  a_star g h start start = Raise KeyError.
Proof.
  unfold a_star, a_star_fuel, search_fuel.
  cbn [search queue_put queue_get extract_min snd].
  rewrite node_eqb_refl. reflexivity.
Qed.

Lemma walled_grid_unreachable : ~ reachable walled_grid (0, 0) (0, 2).
Proof.
  assert (H : forall n, reachable walled_grid (0, 0) n -> n = (0, 0)).
  { intros n Hn. induction Hn as [|n m Hn IH [a [-> Hv]]]; [reflexivity|].
    subst n. destruct a; vm_compute in Hv; discriminate Hv. }
  intros Hr. apply H in Hr. discriminate Hr.
Qed.

Lemma a_star_unreachable_witness :
  is_valid_node walled_grid (0, 0) = true
  /\ is_valid_node walled_grid (0, 2) = true
  /\ a_star walled_grid heuristic (0, 0) (0, 2) = Ok ([], 0%float).
Proof.
  split; [reflexivity|]. split; [reflexivity|].
  apply (a_star_unreachable walled_grid heuristic (0, 0) (0, 2)).
  exact walled_grid_unreachable.
Defined.

End AStarExamples.

(** ** create_grid *)

Section CreateGrid.

Import PlanningUtils GridSpec Inputs.

Local Open Scope Q_scope.

Lemma Qmin_cases (x y : Q) : (Qmin x y = x /\ x <= y) \/ (Qmin x y = y /\ y <= x).
Proof.
  destruct (Q.min_spec x y) as [[H E]|[H E]].
  - left. split; [|apply Qlt_le_weak; exact H].
    unfold Qmin, GenericMinMax.gmin. rewrite Qlt_alt in H. rewrite H.
    reflexivity.
  - unfold Qmin, GenericMinMax.gmin. destruct (x ?= y) eqn:C.
    + left. split; [reflexivity|]. apply Qeq_alt in C. rewrite C.
      apply Qle_refl.
    + left. split; [reflexivity|]. apply Qlt_alt in C.
      apply Qlt_le_weak. exact C.
    + right. split; [reflexivity|exact H].
Qed.

Lemma Qmax_cases (x y : Q) : (Qmax x y = x /\ y <= x) \/ (Qmax x y = y /\ x <= y).
Proof.
  destruct (Q.max_spec x y) as [[H E]|[H E]].
  - unfold Qmax, GenericMinMax.gmax. destruct (x ?= y) eqn:C.
    + left. split; [reflexivity|]. apply Qeq_alt in C. rewrite C.
      apply Qle_refl.
    + right. split; [reflexivity|]. apply Qlt_le_weak. exact H.
    + left. split; [reflexivity|]. apply Qgt_alt in C.
      apply Qlt_le_weak. exact C.
  - unfold Qmax, GenericMinMax.gmax. destruct (x ?= y) eqn:C.
    + left. split; [reflexivity|exact H].
    + apply Qlt_alt in C. exfalso. apply (Qlt_irrefl x).
      eapply Qlt_le_trans; [exact C|exact H].
    + left. split; [reflexivity|exact H].
Qed.





Lemma py_int_Z (z : Z) : py_int (inject_Z z) = z.
Proof. unfold py_int. cbn. apply Z.quot_1_r. Qed.

Lemma py_int_floor (q : Q) : 0 <= q -> py_int q = Qfloor q.
Proof.
  destruct q as [n d]. unfold Qle, py_int, Qfloor. cbn. intros H.
  apply Z.quot_div_nonneg; lia.
Qed.

Lemma Qltb_lt (a b : Q) : Qltb a b = true <-> a < b.
Proof.
  unfold Qltb. rewrite negb_true_iff. split.
  - intros H. apply Qnot_le_lt. intros Hle.
    apply Qle_bool_iff in Hle. congruence.
  - intros H. destruct (Qle_bool b a) eqn:E; [|reflexivity].
    apply Qle_bool_iff in E. exfalso. apply (Qlt_not_le _ _ H E).
Qed.

Lemma floor_ge (z : Z) (q : Q) : inject_Z z <= q -> (z <= Qfloor q)%Z.
Proof.
  intros H. apply Qfloor_resp_le in H. rewrite Qfloor_Z in H. exact H.
Qed.

Lemma floor_lt (z : Z) (q : Q) : q < inject_Z z -> (Qfloor q < z)%Z.
Proof.
  intros H. rewrite Zlt_Qlt.
  eapply Qle_lt_trans; [apply Qfloor_le|exact H].
Qed.

Lemma floor_le (z : Z) (q : Q) : q <= inject_Z z -> (Qfloor q <= z)%Z.
Proof.
  intros H. apply Qfloor_resp_le in H. rewrite Qfloor_Z in H. exact H.
Qed.

(** The index kept by [int(np.clip(a, 0, k))]. *)
Lemma clip_index (a : Q) (k : Z) :
  (0 <= k)%Z ->
  py_int (np_clip a 0 (inject_Z k)) = Z.min (Z.max (Qfloor a) 0) k.
Proof.
  intros Hk. unfold np_clip.
  destruct (Qmax_cases a 0) as [[-> H0]|[-> H0]].
  - pose proof (floor_ge 0 a H0) as F0.
    destruct (Qmin_cases a (inject_Z k)) as [[-> H1]|[-> H1]].
    + rewrite (py_int_floor a H0). pose proof (floor_le k a H1). lia.
    + rewrite py_int_Z. pose proof (floor_ge k a H1). lia.
  - pose proof (floor_le 0 a H0) as F0.
    destruct (Qmin_cases 0 (inject_Z k)) as [[-> H1]|[-> H1]].
    + change (py_int 0) with 0%Z. lia.
    + rewrite py_int_Z. change 0 with (inject_Z 0) in H1.
      rewrite <- Zle_Qle in H1. lia.
Qed.

Lemma slice_bound_inside (n k : Z) :
  (0 <= k <= n)%Z -> slice_bound n k = k.
Proof.
  intros H. unfold slice_bound.
  destruct (k <? 0)%Z eqn:E; [apply Z.ltb_lt in E; lia|]. lia.
Qed.

Section MarkObstacle.

Variables drone_altitude safety_distance : Q.
Variables north_min east_min north_size east_size : Z.

Let mark : grid -> obstacle -> grid :=
  mark_obstacle drone_altitude safety_distance
                (inject_Z north_min) (inject_Z east_min) north_size east_size.

Lemma mark_shape (g : grid) (o : obstacle) :
  shape0 (mark g o) = shape0 g /\ shape1 (mark g o) = shape1 g.
Proof.
  unfold mark, mark_obstacle.
  destruct (Qltb _ _); split; reflexivity.
Qed.

Lemma mark_keeps (g : grid) (o : obstacle) (i j : Z) :
  cell g i j = 1%Z -> cell (mark g o) i j = 1%Z.
Proof.
  intros H. unfold mark, mark_obstacle.
  destruct (Qltb _ _); [|exact H]. cbn.
  destruct (_ && _ && _ && _); [reflexivity|exact H].
Qed.

Lemma mark_inside (g : grid) (o : obstacle) (i j : Z) :
  shape0 g = north_size -> shape1 g = east_size ->
  (0 <= i < north_size)%Z -> (0 <= j < east_size)%Z ->
  tall drone_altitude safety_distance o ->
  strictly_inside safety_distance north_min east_min o i j ->
  cell (mark g o) i j = 1%Z.
Proof.
  intros S0 S1 Hi Hj Ht (N1 & N2 & E1 & E2).
  unfold mark, mark_obstacle. apply Qltb_lt in Ht. rewrite Ht.
  unfold assign_block. cbn [cell]. rewrite S0, S1.
  rewrite !clip_index by lia.
  rewrite inject_Z_plus in N1, E1.
  rewrite !inject_Z_plus in N2, E2.
  assert (A1 : (Qfloor (north o - d_north o - safety_distance
                        - inject_Z north_min) <= i)%Z)
    by (apply floor_le; lra).
  assert (A2 : (i <= Qfloor (north o + d_north o + safety_distance
                             - inject_Z north_min))%Z)
    by (apply floor_ge; change (inject_Z 1) with 1 in N2; lra).
  assert (A3 : (Qfloor (east o - d_east o - safety_distance
                        - inject_Z east_min) <= j)%Z)
    by (apply floor_le; lra).
  assert (A4 : (j <= Qfloor (east o + d_east o + safety_distance
                             - inject_Z east_min))%Z)
    by (apply floor_ge; change (inject_Z 1) with 1 in E2; lra).
  rewrite !slice_bound_inside by lia.
  replace (_ && _ && _ && _) with true; [reflexivity|].
  symmetry. rewrite !andb_true_iff, !Z.leb_le, !Z.ltb_lt. lia.
Qed.

Lemma mark_outside (g : grid) (o : obstacle) (i j : Z) :
  shape0 g = north_size -> shape1 g = east_size ->
  (0 <= i < north_size)%Z -> (0 <= j < east_size)%Z ->
  0 <= safety_distance -> well_formed o ->
  inject_Z north_min <= north o - d_north o ->
  north o + d_north o <= inject_Z (north_min + north_size) ->
  inject_Z east_min <= east o - d_east o ->
  east o + d_east o <= inject_Z (east_min + east_size) ->
  (tall drone_altitude safety_distance o ->
   strictly_outside safety_distance north_min east_min o i j) ->
  cell (mark g o) i j = cell g i j.
Proof.
  intros S0 S1 Hi Hj Hsd [Wn We] Bn1 Bn2 Be1 Be2 Hout.
  unfold mark, mark_obstacle.
  destruct (Qltb _ _) eqn:Ht; [|reflexivity].
  apply Qltb_lt in Ht. specialize (Hout Ht).
  unfold assign_block. cbn [cell]. rewrite S0, S1.
  rewrite !clip_index by lia.
  rewrite inject_Z_plus in Bn2, Be2.
  assert (Hi' : inject_Z 0 <= inject_Z i /\ inject_Z i < inject_Z north_size)
    by (rewrite <- Zle_Qle, <- Zlt_Qlt; lia).
  assert (Hj' : inject_Z 0 <= inject_Z j /\ inject_Z j < inject_Z east_size)
    by (rewrite <- Zle_Qle, <- Zlt_Qlt; lia).
  change (inject_Z 0) with 0 in Hi', Hj'.
  replace (_ && _ && _ && _) with false; [reflexivity|].
  symmetry. rewrite !andb_false_iff, !Z.leb_gt, !Z.ltb_ge.
  destruct Hout as [H|[H|[H|H]]];
    rewrite ?inject_Z_plus in H; change (inject_Z 1) with 1 in H.
  - left. left. left.
    assert (A : (i + 1 <= Qfloor (north o - d_north o - safety_distance
                                  - inject_Z north_min))%Z)
      by (apply floor_ge; rewrite inject_Z_plus; change (inject_Z 1) with 1; lra).
    assert (B : (i + 1 < north_size)%Z).
    { rewrite Zlt_Qlt, inject_Z_plus. change (inject_Z 1) with 1. lra. }
    rewrite slice_bound_inside by lia. lia.
  - left. left. right.
    assert (A : (Qfloor (north o + d_north o + safety_distance
                         - inject_Z north_min) < i)%Z)
      by (apply floor_lt; lra).
    assert (B : (0 < i)%Z).
    { rewrite Zlt_Qlt. change (inject_Z 0) with 0. lra. }
    rewrite slice_bound_inside by lia. lia.
  - left. right.
    assert (A : (j + 1 <= Qfloor (east o - d_east o - safety_distance
                                  - inject_Z east_min))%Z)
      by (apply floor_ge; rewrite inject_Z_plus; change (inject_Z 1) with 1; lra).
    assert (B : (j + 1 < east_size)%Z).
    { rewrite Zlt_Qlt, inject_Z_plus. change (inject_Z 1) with 1. lra. }
    rewrite slice_bound_inside by lia. lia.
  - right.
    assert (A : (Qfloor (east o + d_east o + safety_distance
                         - inject_Z east_min) < j)%Z)
      by (apply floor_lt; lra).
    assert (B : (0 < j)%Z).
    { rewrite Zlt_Qlt. change (inject_Z 0) with 0. lra. }
    rewrite slice_bound_inside by lia. lia.
Qed.

(** The loop over the obstacles. *)
Lemma marks_shape (l : list obstacle) :
  forall g : grid,
    shape0 (fold_left mark l g) = shape0 g
    /\ shape1 (fold_left mark l g) = shape1 g.
Proof.
  induction l as [|o l IH]; intros g; cbn [fold_left]; [split; reflexivity|].
  destruct (IH (mark g o)) as [-> ->]. apply mark_shape.
Qed.

Lemma marks_keep (l : list obstacle) (i j : Z) :
  forall g : grid,
    cell g i j = 1%Z -> cell (fold_left mark l g) i j = 1%Z.
Proof.
  induction l as [|o l IH]; intros g H; cbn [fold_left]; [exact H|].
  apply IH, mark_keeps, H.
Qed.

Lemma marks_inside (l : list obstacle) (i j : Z) :
  (0 <= i < north_size)%Z -> (0 <= j < east_size)%Z ->
  forall g : grid,
    shape0 g = north_size -> shape1 g = east_size ->
    (exists o, In o l /\ tall drone_altitude safety_distance o
               /\ strictly_inside safety_distance north_min east_min o i j) ->
    cell (fold_left mark l g) i j = 1%Z.
Proof.
  intros Hi Hj.
  induction l as [|o l IH]; intros g S0 S1 (o' & Hin & Ht & Hs);
    [destruct Hin|].
  cbn [fold_left]. destruct Hin as [->|Hin].
  - apply marks_keep. apply mark_inside; assumption.
  - destruct (mark_shape g o) as [E0 E1].
    apply IH; [congruence|congruence|].
    exists o'. split; [exact Hin|]. split; [exact Ht|exact Hs].
Qed.

Lemma marks_outside (l : list obstacle) (i j : Z) :
  (0 <= i < north_size)%Z -> (0 <= j < east_size)%Z ->
  0 <= safety_distance ->
  (forall o, In o l ->
     well_formed o
     /\ inject_Z north_min <= north o - d_north o
     /\ north o + d_north o <= inject_Z (north_min + north_size)
     /\ inject_Z east_min <= east o - d_east o
     /\ east o + d_east o <= inject_Z (east_min + east_size)
     /\ (tall drone_altitude safety_distance o ->
         strictly_outside safety_distance north_min east_min o i j)) ->
  forall g : grid,
    shape0 g = north_size -> shape1 g = east_size ->
    cell (fold_left mark l g) i j = cell g i j.
Proof.
  intros Hi Hj Hsd.
  induction l as [|o l IH]; intros Hall g S0 S1; cbn [fold_left];
    [reflexivity|].
  destruct (mark_shape g o) as [E0 E1].
  rewrite IH; [| |congruence|congruence].
  - destruct (Hall o (or_introl eq_refl)) as (W & B1 & B2 & B3 & B4 & Ho).
    apply mark_outside; assumption.
  - intros o' Ho'. apply Hall. right. exact Ho'.
Qed.

End MarkObstacle.

Lemma size_of_span (a b : Z) :
  py_int (np_ceil (inject_Z a - inject_Z b)) = (a - b)%Z.
Proof.
  unfold np_ceil. rewrite py_int_Z.
  assert (E : inject_Z a - inject_Z b == inject_Z (a - b)).
  { unfold Qminus, Z.sub. rewrite inject_Z_plus, inject_Z_opp. reflexivity. }
  rewrite E. apply Qceiling_Z.
Qed.

Lemma size_of_box (hi lo : Q) :
  py_int (np_ceil (np_ceil hi - np_floor lo)) = (Qceiling hi - Qfloor lo)%Z.
Proof. apply size_of_span. Qed.

End CreateGrid.

(** ** What a_star returns *)

Section SearchCostFacts.

Import PlanningUtils Paths SearchSpec SearchCost.

Lemma move_injective (n : node) (a a' : Action) :
  move n a = move n a' -> a = a'.
Proof.
  destruct n as [x y]. unfold move. cbn [fst snd]. intros H.
  injection H as Hx Hy.
  destruct a, a'; cbn in Hx, Hy; try reflexivity; lia.
Qed.

Lemma move_changes (n : node) (a : Action) : move n a <> n.
Proof.
  destruct n as [x y]. unfold move. cbn [fst snd]. intros H.
  injection H as Hx Hy. destruct a; cbn in Hx, Hy; lia.
Qed.

(** The action between a position and the neighbour it leads to. *)
Lemma action_between_exact (n : node) (a : Action) :
  action_between n (move n a) = Some a.
Proof.
  unfold action_between.
  destruct (find (fun a0 => node_eqb (move n a0) (move n a)) actions)
    as [a'|] eqn:E.
  - apply find_some in E as [_ E]. apply node_eqb_eq in E.
    apply move_injective in E. congruence.
  - pose proof (find_none _ _ E a (all_actions a)) as H. cbn in H.
    rewrite node_eqb_refl in H. discriminate H.
Qed.

Lemma lookup_suffix (p : node) (b1 b2 : branch_map) :
  NoDup (keys (b1 ++ b2)) -> In p (keys b2) ->
  lookup p (b1 ++ b2) = lookup p b2.
Proof.
  induction b1 as [|[k r] b1 IH]; cbn; intros Hnd Hin; [reflexivity|].
  inversion Hnd as [|? ? Hk Hnd']; subst.
  destruct (node_eqb p k) eqn:E.
  - apply node_eqb_eq in E. subst k. exfalso. apply Hk.
    unfold keys. rewrite map_app. apply in_or_app. right. exact Hin.
  - apply IH; assumption.
Qed.

Lemma priced_suffix (start : node) (b1 b2 : branch_map) :
  priced start (b1 ++ b2) -> priced start b2.
Proof.
  induction b1 as [|x b1 IH]; cbn; intros H; [exact H|].
  inversion H; subst. apply IH. assumption.
Qed.

(** A new binding does not change the cost of a position bound before, or
    of [start]. *)
Lemma cost_of_cons (start : node) (b : branch_map) (n p : node) (r : record) :
  ~ In n (keys b) -> p = start \/ In p (keys b) ->
  cost_of start ((n, r) :: b) p = cost_of start b p.
Proof.
  intros Hn Hp. unfold cost_of. destruct (node_eqb p start) eqn:Es;
    [reflexivity|].
  apply node_eqb_neq in Es. destruct Hp as [Hp|Hp]; [contradiction|].
  cbn [lookup]. destruct (node_eqb p n) eqn:E; [|reflexivity].
  apply node_eqb_eq in E. subst n. contradiction.
Qed.

Lemma cost_from_snoc (l : list node) :
  forall (acc : float) (s x n : node) (a : Action),
    action_between x n = Some a ->
    cost_from acc s ((l ++ [x]) ++ [n])
    = (cost_from acc s (l ++ [x]) + cost a)%float.
Proof.
  induction l as [|y l IH]; intros acc s x n a Ha; cbn [app cost_from].
  - rewrite Ha. reflexivity.
  - apply IH. exact Ha.
Qed.

Lemma priced_head (start n : node) (c : float) (p : node) (a : Action)
    (b : branch_map) :
  priced start ((n, (c, p, a)) :: b) ->
  c = (cost_of start b p + cost a)%float /\ priced start b.
Proof. intros H. inversion H; subst. split; [reflexivity|assumption]. Qed.

Lemma valid_actions_in (g : grid) (cur : node) (a : Action) :
  In a (valid_actions g cur) -> is_valid_node g (move cur a) = true.
Proof.
  unfold valid_actions. intros H. apply filter_In in H. exact (proj2 H).
Qed.

End SearchCostFacts.

Section SearchPriced.

Import PlanningUtils Paths SearchSpec SearchCost.

Variable g : grid.
Variable h : node -> node -> float.
Variables start goal : node.

(** After an entry has left the queue, before its position is expanded. *)
Lemma pop_invariant (v : list pyval) (b : branch_map) (q q' : list item)
    (it : item) :
  invariant g start goal nowhere (v, b, q) ->
  Permutation q (it :: q') ->
  snd it <> goal ->
  invariant g start goal (eq (snd it)) (v, b, q')
  /\ (snd it = start \/ In (snd it) (keys b))
  /\ reachable g start (snd it).
Proof.
  intros Hinv P Hng.
  assert (Pn : Permutation (queue_nodes q) (snd it :: queue_nodes q'))
    by (apply (Permutation_map snd) in P; exact P).
  assert (Hcur : snd it = start \/ In (snd it) (keys b)).
  { apply (inv_queue _ _ _ _ _ Hinv).
    apply (Permutation_in (snd it) (Permutation_sym Pn)). left. reflexivity. }
  split; [|split; [exact Hcur|]].
  - destruct Hinv as [Hvis Hch Hval Hq Hre Hcl Hgo].
    unfold seen, frontier in *. cbn [fst snd] in *.
    constructor; unfold seen, frontier; cbn [fst snd]; try assumption.
    + intros n Hn. apply Hq.
      apply (Permutation_in n (Permutation_sym Pn)). right. exact Hn.
    + intros n Hn. destruct (Hcl n Hn) as [[]|[H|H]]; [|right; right; exact H].
      apply (Permutation_in n Pn) in H.
      destruct H as [H|H]; [left; exact H|right; left; exact H].
    + intros Hg. apply Hgo in Hg. apply (Permutation_in goal Pn) in Hg.
      destruct Hg as [H|H]; [congruence|exact H].
  - destruct Hcur as [->|H]; [apply reach_start|].
    apply (inv_reach _ _ _ _ _ Hinv). exact H.
Qed.

Lemma visit_priced (cur : node) (c : float) (st : search_state) (a : Action) :
  invariant g start goal (eq cur) st ->
  cur = start \/ In cur (seen st) ->
  priced start (snd (fst st)) ->
  c = cost_of start (snd (fst st)) cur ->
  priced start (snd (fst (visit h goal cur c st a)))
  /\ c = cost_of start (snd (fst (visit h goal cur c st a))) cur.
Proof.
  intros Hinv Hcur Hp Hc. destruct st as [[v b] q].
  unfold visit, seen in *. cbn [fst snd] in *.
  destruct (mem (PyNode (move cur a)) v) eqn:E; cbn [negb fst snd].
  - split; assumption.
  - assert (Hnew : ~ In (move cur a) (keys b)).
    { intros Hin. apply (inv_visited _ _ _ _ _ Hinv) in Hin.
      cbn [fst snd] in Hin. apply mem_node in Hin. congruence. }
    split.
    + constructor; [exact Hp|]. rewrite Hc. reflexivity.
    + rewrite cost_of_cons; assumption.
Qed.

Lemma expand_priced (cur : node) (c : float) (l : list Action) :
  forall st : search_state,
    invariant g start goal (eq cur) st ->
    cur = start \/ In cur (seen st) ->
    reachable g start cur ->
    (forall a, In a l -> is_valid_node g (move cur a) = true) ->
    priced start (snd (fst st)) ->
    c = cost_of start (snd (fst st)) cur ->
    priced start (snd (fst (fold_left (visit h goal cur c) l st))).
Proof.
  induction l as [|a l IH]; intros st Hinv Hcur Hrc Hl Hp Hc;
    cbn [fold_left]; [exact Hp|].
  destruct (visit_invariant g h start goal cur c st a Hinv Hcur Hrc
              (Hl a (or_introl eq_refl))) as (Hinv1 & Hincl1 & _ & _).
  destruct (visit_priced cur c st a Hinv Hcur Hp Hc) as [Hp1 Hc1].
  apply IH; try assumption.
  - destruct Hcur as [H|H]; [left; exact H|right; apply Hincl1; exact H].
  - intros a' Ha'. apply Hl. right. exact Ha'.
Qed.

(** The loop keeps the costs of [branch] in order. *)
Lemma search_priced (fuel : nat) :
  forall (st : search_state) (r : bool * branch_map),
    invariant g start goal nowhere st ->
    priced start (snd (fst st)) ->
    search fuel g h start goal st = Ok r ->
    priced start (snd r).
Proof.
  induction fuel as [|fuel IH]; intros st r Hinv Hp H; [discriminate H|].
  destruct st as [[v b] q]. cbn [search] in H. cbn [fst snd] in Hp.
  destruct (queue_get q) as [[it q']|] eqn:Eq;
    [|injection H as <-; exact Hp].
  apply queue_get_perm in Eq.
  destruct (if node_eqb (snd it) start then Some 0%float
            else option_map (fun r : float * node * Action => fst (fst r))
                            (lookup (snd it) b)) as [c|] eqn:Ec;
    [|discriminate H].
  destruct (node_eqb (snd it) goal) eqn:Eg; [injection H as <-; exact Hp|].
  assert (Hng : snd it <> goal) by (apply node_eqb_neq; exact Eg).
  destruct (pop_invariant v b q q' it Hinv Eq Hng) as (Hmid & Hcur & Hrc).
  destruct (turn_invariant g h start goal v b q q' it c Hinv Eq Hng)
    as (Hinv' & _ & _).
  apply (IH _ r Hinv'); [|exact H].
  unfold expand. apply expand_priced; try assumption.
  - intros a Ha. apply valid_actions_in. exact Ha.
  - cbn [fst snd]. unfold cost_of. destruct (node_eqb (snd it) start);
      [injection Ec as <-; reflexivity|].
    destruct (lookup (snd it) b) as [[[c0 p0] a0]|]; [|discriminate Ec].
    cbn in Ec. injection Ec as <-. reflexivity.
Qed.

(** The walk back from a bound position: it follows valid moves to
    [start], meets no position twice, and the cost bound to the position
    is the sum of the costs of the moves, added from [start] on. *)
Lemma retrace_walk (b2 : branch_map) :
  forall (b1 : branch_map) (n : node) (path : list node) (fuel : nat),
    chain start (b1 ++ b2) ->
    priced start (b1 ++ b2) ->
    In n (keys b2) ->
    (length b2 < fuel)%nat ->
    exists (tail : list node) (c : float) (p : node) (a : Action),
      retrace fuel (b1 ++ b2) start n path = Ok (path ++ tail ++ [start])
      /\ lookup n (b1 ++ b2) = Some (c, p, a)
      /\ c = cost_from 0%float start (rev tail ++ [n])
      /\ NoDup (n :: tail)
      /\ ~ In start tail
      /\ incl (n :: tail) (keys b2).
Proof.
  induction b2 as [|[k [[c p] a]] b2 IH]; intros b1 n path fuel Hc Hp Hn Hf.
  - destruct Hn.
  - assert (Hc' : chain start ((b1 ++ [(k, (c, p, a))]) ++ b2))
      by (rewrite <- app_assoc; exact Hc).
    assert (Hp' : priced start ((b1 ++ [(k, (c, p, a))]) ++ b2))
      by (rewrite <- app_assoc; exact Hp).
    assert (Hnd : NoDup (keys (b1 ++ (k, (c, p, a)) :: b2)))
      by (apply chain_nodup in Hc; exact Hc).
    destruct (node_eqb n k) eqn:E.
    + apply node_eqb_eq in E. subst k.
      destruct fuel as [|fuel]; [cbn in Hf; lia|]. cbn [retrace].
      assert (Hn1 : ~ In n (keys b1)).
      { pose proof Hnd as Hnd'. unfold keys in Hnd'. rewrite map_app in Hnd'.
        cbn in Hnd'. apply NoDup_remove_2 in Hnd'.
        intros Hin. apply Hnd'. apply in_or_app. left. exact Hin. }
      rewrite (lookup_app n (c, p, a) b1 b2 Hn1).
      pose proof (chain_suffix start _ _ Hc) as Hs.
      inversion Hs as [|? ? ? ? ? Hch Hnk Hpar Hm]; subst.
      destruct (priced_head _ _ _ _ _ _ (priced_suffix start _ _ Hp))
        as [Hcost Hpr].
      destruct (node_eqb p start) eqn:Ep; cbn [negb].
      * apply node_eqb_eq in Ep. subst p.
        exists [], c, start, a.
        split; [reflexivity|]. split; [reflexivity|]. split.
        { cbn [rev app cost_from]. rewrite action_between_exact.
          rewrite Hcost. unfold cost_of. rewrite node_eqb_refl.
          reflexivity. }
        split; [constructor; [intros []|constructor]|].
        split; [intros []|].
        intros x [<-|[]]. left. reflexivity.
      * apply node_eqb_neq in Ep.
        destruct Hpar as [Hpar|Hpar]; [contradiction|].
        destruct (IH (b1 ++ [(move p a, (c, p, a))]) p (path ++ [p]) fuel
                     Hc' Hp' Hpar)
          as (tail & cp & pp & pa & Ht & Hl & Hcp & Hnd2 & Hns & Hi);
          [cbn in Hf; lia|].
        rewrite <- (app_assoc b1) in Ht, Hl. cbn [app] in Ht, Hl.
        exists (p :: tail), c, p, a.
        split.
        { etransitivity; [exact Ht|]. apply f_equal. symmetry.
          apply (app_assoc path [p] (tail ++ [start])). }
        split; [reflexivity|]. split.
        { cbn [rev]. rewrite (cost_from_snoc (rev tail) _ _ _ _ a)
            by apply action_between_exact.
          rewrite <- Hcp. rewrite Hcost. unfold cost_of.
          apply node_eqb_neq in Ep. rewrite Ep.
          assert (Hl2 : lookup p ((move p a, (c, p, a)) :: b2)
                        = Some (cp, pp, pa)).
          { etransitivity; [|exact Hl]. symmetry.
            apply lookup_suffix; [exact Hnd|right; exact Hpar]. }
          cbn [lookup] in Hl2.
          destruct (node_eqb p (move p a)) eqn:Epm.
          - apply node_eqb_eq in Epm. symmetry in Epm.
            exfalso. exact (move_changes p a Epm).
          - rewrite Hl2. reflexivity. }
        split.
        { constructor; [|exact Hnd2].
          intros Hin. apply Hnk. apply Hi. exact Hin. }
        split.
        { intros [H|H]; [congruence|contradiction]. }
        intros x [<-|Hx]; [left; reflexivity|]. right. apply Hi. exact Hx.
    + apply node_eqb_neq in E.
      assert (Hn' : In n (keys b2))
        by (destruct Hn as [H|H]; [cbn in H; congruence|exact H]).
      destruct (IH (b1 ++ [(k, (c, p, a))]) n path fuel Hc' Hp' Hn')
        as (tail & cn & pn & an & Ht & Hl & Hcn & Hnd2 & Hns & Hi);
        [cbn in Hf; lia|].
      rewrite <- (app_assoc b1) in Ht, Hl. cbn [app] in Ht, Hl.
      exists tail, cn, pn, an.
      repeat (split; [assumption|]).
      intros x Hx. right. apply Hi. exact Hx.
Qed.

End SearchPriced.

Section AStarResults.

Import PlanningUtils Paths SearchSpec SearchCost Inputs.

Variable g : grid.
Variable h : node -> node -> float.
Variables start goal : node.

(** When the goal is the start, the loop ends at its first turn, with
    nothing bound. *)
Lemma search_at_start (fuel : nat) :
  search (S fuel) g h start start
    ([PyInt (fst start); PyInt (snd start)], [], queue_put (0%float, start) [])
  = Ok (true, []).
Proof.
  cbn [search queue_put queue_get extract_min snd].
  rewrite node_eqb_refl. reflexivity.
Qed.

(** A path returned by [a_star], when it is not empty. *)
Lemma a_star_found (p : list node) (c : float) :
  a_star g h start goal = Ok (p, c) -> p <> [] ->
  exists mid : list node,
    p = start :: mid ++ [goal]
    /\ moves_ok g start (mid ++ [goal]) = true
    /\ c = path_cost p
    /\ NoDup p.
Proof.
  unfold a_star, a_star_fuel. intros H Hne.
  destruct (search_spec g h start goal (search_fuel g) _
              (initial_invariant g start goal))
    as (found & b & Hs & Hc & Hv & _ & Ht & Hf).
  { unfold work, search_fuel, seen, queue_put. cbn. lia. }
  assert (Hp : priced start b).
  { exact (search_priced g h start goal (search_fuel g) _ (found, b)
             (initial_invariant g start goal) (priced_nil start) Hs). }
  rewrite Hs in H. cbn [bind] in H.
  destruct found; [|injection H as <- _; contradiction].
  destruct (lookup goal b) as [[[pc pp] pa]|] eqn:El; [|discriminate H].
  assert (Hin : In goal (keys b)) by (eapply lookup_some; exact El).
  assert (Hgs : goal <> start).
  { intros E. subst goal. unfold search_fuel in Hs.
    rewrite search_at_start in Hs. injection Hs as <-. destruct Hin. }
  destruct (retrace_walk start b [] goal [goal] (S (length b)) Hc Hp
              Hin (Nat.lt_succ_diag_r _))
    as (tail & c' & p' & a' & Hre & Hl & Hcost & Hnd & Hns & _).
  destruct (retrace_spec g start b [] goal [goal] (S (length b)) Hc Hv Hin
              (Nat.lt_succ_diag_r _)) as [tail' [Hre' Hcl]].
  cbn [app] in Hre, Hre', Hl.
  assert (tail' = tail).
  { rewrite Hre in Hre'. injection Hre' as E.
    apply app_inv_tail in E. congruence. }
  subst tail'. rewrite Hre in H. cbn [bind] in H.
  rewrite El in Hl. injection Hl as <- <- <-.
  injection H as Hpath Hpc. exists (rev tail).
  assert (Ep : rev (goal :: tail ++ [start]) = start :: rev tail ++ [goal])
    by (cbn [rev]; rewrite rev_app_distr; reflexivity).
  assert (Hpath' : p = start :: rev tail ++ [goal])
    by (etransitivity; [symmetry; exact Hpath|exact Ep]).
  clear Hpath. subst p c.
  split; [reflexivity|].
  split; [apply climbs_moves_ok; exact Hcl|].
  split; [exact Hcost|].
  constructor.
  - intros Hi. apply in_app_or in Hi as [Hi|[Hi|[]]].
    + apply in_rev in Hi. contradiction.
    + congruence.
  - change (rev tail ++ [goal]) with (rev (goal :: tail)).
    apply NoDup_rev. exact Hnd.
Qed.

(** X1: a path returned by [a_star], when it is not empty, begins at
    [start], ends at [goal], and each of its positions is reached from the
    one before by one of the eight moves and is a valid position of the
    grid. *)
Theorem a_star_path_valid (p : list node) (c : float)
    (H : a_star g h start goal = Ok (p, c)) (Hne : p <> []) :
  is_path g start goal p = true.
Proof.
  destruct (a_star_found p c H Hne) as (mid & -> & Hm & _).
  unfold is_path. rewrite node_eqb_refl, Hm.
  change (start :: mid ++ [goal]) with ((start :: mid) ++ [goal]).
  rewrite last_last, node_eqb_refl. reflexivity.
Qed.

(** X2: the cost returned with a path is the sum of the costs of its
    moves, 1 along an axis and [2**0.5] along a diagonal, added in floats
    from the start on. *)
Theorem a_star_cost_is_sum (p : list node) (c : float)
    (H : a_star g h start goal = Ok (p, c)) (Hne : p <> []) :
  c = path_cost p.
Proof.
  destruct (a_star_found p c H Hne) as (mid & _ & _ & Hc & _). exact Hc.
Qed.

(** X3: a path returned by [a_star] meets no position twice. *)
Theorem a_star_path_simple (p : list node) (c : float)
    (H : a_star g h start goal = Ok (p, c)) :
  NoDup p.
Proof.
  destruct p as [|x p]; [constructor|].
  destruct (a_star_found (x :: p) c H) as (mid & _ & _ & _ & Hnd);
    [discriminate|exact Hnd].
Qed.

(** X4: the three outcomes of [a_star]: it raises [KeyError] exactly when
    the goal is the start; it returns the empty path and the cost 0
    exactly when no sequence of valid moves leads from the start to the
    goal; it returns a path that is not empty exactly when the goal can be
    reached and is not the start. *)
Theorem a_star_outcomes :
  (a_star g h start goal = Raise KeyError <-> goal = start)
  /\ (a_star g h start goal = Ok ([], 0%float) <-> ~ reachable g start goal)
  /\ ((exists (p : list node) (c : float),
         a_star g h start goal = Ok (p, c) /\ p <> [])
      <-> reachable g start goal /\ goal <> start).
Proof.
  assert (Hsame : goal = start -> a_star g h start goal = Raise KeyError).
  { intros ->. unfold a_star, a_star_fuel, search_fuel.
    rewrite search_at_start. reflexivity. }
  pose proof (a_star_cases g h start goal) as Hcases.
  split; [|split].
  - split; [|exact Hsame]. intros H.
    destruct Hcases as [[E _]|[[_ E]|(mid & c & E & _)]];
      [congruence|exact E|congruence].
  - split.
    + intros H.
      destruct Hcases as [[_ E]|[[E _]|(mid & c & E & _)]];
        [exact E|congruence|].
      rewrite E in H. injection H as H _. discriminate H.
    + intros H.
      destruct Hcases as [[E _]|[[_ E]|(mid & c & _ & _ & E)]];
        [exact E| |contradiction].
      exfalso. apply H. rewrite E. apply reach_start.
  - split.
    + intros (p & c & H & Hne).
      destruct Hcases as [[E _]|[[E _]|(mid & c' & E & _ & Hr)]].
      * rewrite E in H. injection H as <- _. contradiction.
      * congruence.
      * split; [exact Hr|]. intros Hg. apply Hsame in Hg. congruence.
    + intros [Hr Hg].
      destruct Hcases as [[_ E]|[[_ E]|(mid & c & E & _)]];
        [contradiction|contradiction|].
      exists (start :: mid ++ [goal]), c. split; [exact E|discriminate].
Qed.

End AStarResults.

Section AStarResultsExamples.

Import PlanningUtils Paths SearchSpec Inputs.

Lemma a_star_path_valid_witness :
  is_path open_grid (0, 0) (9, 9) diagonal = true.
Proof.
  apply (a_star_path_valid open_grid heuristic (0, 0) (9, 9) diagonal
           (path_cost diagonal)); [vm_compute; reflexivity|discriminate].
Defined.

Lemma a_star_cost_is_sum_witness :
  (0 + SQRT2 + SQRT2 + SQRT2 + 1)%float = path_cost detour_found.
Proof.
  apply (a_star_cost_is_sum detour_grid heuristic (2, 0) (0, 3) detour_found);
    [vm_compute; reflexivity|discriminate].
Defined.

Lemma a_star_path_simple_witness : NoDup detour_found.
Proof.
  apply (a_star_path_simple detour_grid heuristic (2, 0) (0, 3) detour_found
           (path_cost detour_found)). vm_compute. reflexivity.
Defined.

End AStarResultsExamples.

(** ** More on create_grid *)

Section CreateGridMore.

Import PlanningUtils GridSpec Inputs MoreInputs.

Local Open Scope Q_scope.

(** [create_grid], when it returns, has marked the obstacles on the grid
    of zeros, with the floors of the least corners as offsets. *)
Lemma create_grid_unfold (data : list obstacle) (drone_altitude safety_distance : Q)
    (g : grid) (north_min east_min : Z) :
  create_grid data drone_altitude safety_distance = Ok (g, north_min, east_min) ->
  exists (north_size east_size : Z) (lo_n lo_e : Q),
    np_min (map (fun o => north o - d_north o) data) = Ok lo_n
    /\ np_min (map (fun o => east o - d_east o) data) = Ok lo_e
    /\ north_min = Qfloor lo_n /\ east_min = Qfloor lo_e
    /\ (0 <= north_size)%Z /\ (0 <= east_size)%Z
    /\ g = fold_left (mark_obstacle drone_altitude safety_distance
                        (inject_Z north_min) (inject_Z east_min)
                        north_size east_size)
                     data (mkGrid north_size east_size (fun _ _ => 0%Z))
    /\ forall altitude' distance' : Q,
         create_grid data altitude' distance'
         = Ok (fold_left (mark_obstacle altitude' distance'
                            (inject_Z north_min) (inject_Z east_min)
                            north_size east_size)
                         data (mkGrid north_size east_size (fun _ _ => 0%Z)),
               north_min, east_min).
Proof.
  unfold create_grid.
  destruct (np_min (map (fun o => north o - d_north o) data)) as [ln| |];
    cbn [bind]; try discriminate.
  destruct (np_max (map (fun o => north o + d_north o) data)) as [hn| |];
    cbn [bind]; try discriminate.
  destruct (np_min (map (fun o => east o - d_east o) data)) as [le| |];
    cbn [bind]; try discriminate.
  destruct (np_max (map (fun o => east o + d_east o) data)) as [he| |];
    cbn [bind]; try discriminate.
  rewrite !size_of_box. unfold np_zeros.
  destruct ((Qceiling hn - Qfloor ln <? 0)%Z || (Qceiling he - Qfloor le <? 0)%Z)
    eqn:E; cbn [bind]; [discriminate|].
  apply orb_false_iff in E as [E0 E1]. apply Z.ltb_ge in E0, E1.
  unfold np_floor. rewrite !py_int_Z. intros H. injection H as <- <- <-.
  exists (Qceiling hn - Qfloor ln)%Z, (Qceiling he - Qfloor le)%Z, ln, le.
  repeat (split; [reflexivity || assumption|]).
  intros altitude' distance'. reflexivity.
Qed.

Section Marking.

Variables north_min east_min : Q.
Variables north_size east_size : Z.

Lemma mark_binary (drone_altitude safety_distance : Q) (g : grid) (o : obstacle) :
  (forall i j, cell g i j = 0%Z \/ cell g i j = 1%Z) ->
  forall i j,
    cell (mark_obstacle drone_altitude safety_distance north_min east_min
                        north_size east_size g o) i j = 0%Z
    \/ cell (mark_obstacle drone_altitude safety_distance north_min east_min
                           north_size east_size g o) i j = 1%Z.
Proof.
  intros H i j. unfold mark_obstacle.
  destruct (Qltb _ _); [|apply H]. unfold assign_block. cbn [cell].
  destruct (_ && _ && _ && _); [right; reflexivity|apply H].
Qed.

Lemma marks_binary (drone_altitude safety_distance : Q) (l : list obstacle) :
  forall g : grid,
    (forall i j, cell g i j = 0%Z \/ cell g i j = 1%Z) ->
    forall i j,
      cell (fold_left (mark_obstacle drone_altitude safety_distance
                         north_min east_min north_size east_size) l g) i j = 0%Z
      \/ cell (fold_left (mark_obstacle drone_altitude safety_distance
                            north_min east_min north_size east_size) l g) i j
         = 1%Z.
Proof.
  induction l as [|o l IH]; intros g H; cbn [fold_left]; [exact H|].
  apply IH. apply mark_binary. exact H.
Qed.

(** The cell after one obstacle: marked by the obstacle, or as before. *)
Lemma mark_cell (drone_altitude safety_distance : Q) (g : grid) (o : obstacle)
    (i j : Z) :
  cell (mark_obstacle drone_altitude safety_distance north_min east_min
                      north_size east_size g o) i j
  = if Qltb drone_altitude (alt o + d_alt o + safety_distance)
       && ((slice_bound (shape0 g)
              (py_int (np_clip (north o - d_north o - safety_distance - north_min)
                               0 (inject_Z (north_size - 1)))) <=? i)%Z
           && (i <? slice_bound (shape0 g)
                      (py_int (np_clip (north o + d_north o + safety_distance - north_min)
                                       0 (inject_Z (north_size - 1))) + 1))%Z
           && (slice_bound (shape1 g)
                 (py_int (np_clip (east o - d_east o - safety_distance - east_min)
                                  0 (inject_Z (east_size - 1)))) <=? j)%Z
           && (j <? slice_bound (shape1 g)
                      (py_int (np_clip (east o + d_east o + safety_distance - east_min)
                                       0 (inject_Z (east_size - 1))) + 1))%Z)
    then 1%Z else cell g i j.
Proof.
  unfold mark_obstacle. destruct (Qltb _ _); [|reflexivity].
  unfold assign_block. cbn [cell andb]. reflexivity.
Qed.

Lemma mark_shapes (drone_altitude safety_distance : Q) (g : grid) (o : obstacle) :
  shape0 (mark_obstacle drone_altitude safety_distance north_min east_min
                        north_size east_size g o) = shape0 g
  /\ shape1 (mark_obstacle drone_altitude safety_distance north_min east_min
                           north_size east_size g o) = shape1 g.
Proof.
  unfold mark_obstacle. destruct (Qltb _ _); split; reflexivity.
Qed.

Lemma slice_bound_range (n idx : Z) :
  (0 <= slice_bound n idx <= Z.max 0 n)%Z.
Proof. unfold slice_bound. destruct (idx <? 0)%Z; lia. Qed.

(** A lower altitude and a larger margin block at least as much. *)
Lemma mark_covers (altitude distance altitude' distance' : Q)
    (g g' : grid) (o : obstacle) :
  altitude <= altitude' -> distance' <= distance ->
  shape0 g = north_size -> shape1 g = east_size ->
  shape0 g' = north_size -> shape1 g' = east_size ->
  (forall i j, cell g' i j = 1%Z -> cell g i j = 1%Z) ->
  forall i j,
    cell (mark_obstacle altitude' distance' north_min east_min
                        north_size east_size g' o) i j = 1%Z ->
    cell (mark_obstacle altitude distance north_min east_min
                        north_size east_size g o) i j = 1%Z.
Proof.
  intros Ha Hd S0 S1 S0' S1' Hc i j. rewrite !mark_cell.
  rewrite S0, S1, S0', S1'.
  match goal with
  | |- (if ?c' then _ else _) = _ -> (if ?c then _ else _) = _ =>
      destruct c' eqn:E'; [|intros H; destruct c; [reflexivity|apply Hc, H]];
      intros _; replace c with true; [reflexivity|symmetry]
  end.
  apply andb_true_iff in E' as [Et E']. apply andb_true_iff in E' as [E' E4].
  apply andb_true_iff in E' as [E' E3]. apply andb_true_iff in E' as [E1 E2].
  apply Qltb_lt in Et. apply Z.leb_le in E1, E3. apply Z.ltb_lt in E2, E4.
  pose proof (slice_bound_range north_size
                (py_int (np_clip (north o - d_north o - distance' - north_min)
                                 0 (inject_Z (north_size - 1))))) as R1.
  pose proof (slice_bound_range north_size
                (py_int (np_clip (north o + d_north o + distance' - north_min)
                                 0 (inject_Z (north_size - 1))) + 1)) as R2.
  pose proof (slice_bound_range east_size
                (py_int (np_clip (east o - d_east o - distance' - east_min)
                                 0 (inject_Z (east_size - 1))))) as R3.
  pose proof (slice_bound_range east_size
                (py_int (np_clip (east o + d_east o + distance' - east_min)
                                 0 (inject_Z (east_size - 1))) + 1)) as R4.
  assert (Hn : (1 <= north_size)%Z) by lia.
  assert (Hm : (1 <= east_size)%Z) by lia.
  rewrite !clip_index in * by lia.
  rewrite !slice_bound_inside in * by lia.
  assert (F1 : (Qfloor (north o - d_north o - distance - north_min)
                <= Qfloor (north o - d_north o - distance' - north_min))%Z)
    by (apply Qfloor_resp_le; lra).
  assert (F2 : (Qfloor (north o + d_north o + distance' - north_min)
                <= Qfloor (north o + d_north o + distance - north_min))%Z)
    by (apply Qfloor_resp_le; lra).
  assert (F3 : (Qfloor (east o - d_east o - distance - east_min)
                <= Qfloor (east o - d_east o - distance' - east_min))%Z)
    by (apply Qfloor_resp_le; lra).
  assert (F4 : (Qfloor (east o + d_east o + distance' - east_min)
                <= Qfloor (east o + d_east o + distance - east_min))%Z)
    by (apply Qfloor_resp_le; lra).
  rewrite !andb_true_iff, !Z.leb_le, !Z.ltb_lt, Qltb_lt.
  repeat split; try lia. lra.
Qed.

Lemma marks_cover (altitude distance altitude' distance' : Q)
    (l : list obstacle) :
  altitude <= altitude' -> distance' <= distance ->
  forall g g' : grid,
    shape0 g = north_size -> shape1 g = east_size ->
    shape0 g' = north_size -> shape1 g' = east_size ->
    (forall i j, cell g' i j = 1%Z -> cell g i j = 1%Z) ->
    forall i j,
      cell (fold_left (mark_obstacle altitude' distance' north_min east_min
                         north_size east_size) l g') i j = 1%Z ->
      cell (fold_left (mark_obstacle altitude distance north_min east_min
                         north_size east_size) l g) i j = 1%Z.
Proof.
  intros Ha Hd.
  induction l as [|o l IH]; intros g g' S0 S1 S0' S1' Hc; cbn [fold_left];
    [exact Hc|].
  destruct (mark_shapes altitude distance g o) as [A0 A1].
  destruct (mark_shapes altitude' distance' g' o) as [B0 B1].
  apply IH; try congruence.
  apply mark_covers; assumption.
Qed.

End Marking.

(** X5: the grid returned by [create_grid] holds only 0s and 1s. *)
Theorem create_grid_binary (data : list obstacle)
    (drone_altitude safety_distance : Q) (g : grid) (north_min east_min : Z)
    (H : create_grid data drone_altitude safety_distance
         = Ok (g, north_min, east_min)) :
  forall i j : Z, cell g i j = 0%Z \/ cell g i j = 1%Z.
Proof.
  destruct (create_grid_unfold _ _ _ _ _ _ H)
    as (n & m & ln & le & _ & _ & _ & _ & _ & _ & -> & _).
  apply marks_binary. intros i j. left. reflexivity.
Qed.

(** X6: a higher drone altitude gives a grid of the same shape and
    offsets in which no further cell is blocked: a cell blocked at the
    higher altitude is blocked at the lower one. *)
Theorem create_grid_altitude (data : list obstacle)
    (altitude altitude' safety_distance : Q)
    (g : grid) (north_min east_min : Z)
    (Hle : altitude <= altitude')
    (H : create_grid data altitude safety_distance
         = Ok (g, north_min, east_min)) :
  exists g' : grid,
    create_grid data altitude' safety_distance = Ok (g', north_min, east_min)
    /\ shape0 g' = shape0 g /\ shape1 g' = shape1 g
    /\ forall i j : Z, cell g' i j = 1%Z -> cell g i j = 1%Z.
Proof.
  destruct (create_grid_unfold _ _ _ _ _ _ H)
    as (n & m & ln & le & _ & _ & _ & _ & _ & _ & -> & Hany).
  eexists. split; [apply Hany|].
  destruct (marks_shape altitude safety_distance north_min east_min n m data
              (mkGrid n m (fun _ _ => 0%Z))) as [A0 A1].
  destruct (marks_shape altitude' safety_distance north_min east_min n m data
              (mkGrid n m (fun _ _ => 0%Z))) as [B0 B1].
  split; [congruence|]. split; [congruence|].
  apply marks_cover; try reflexivity; try assumption.
  - apply Qle_refl.
  - intros i j E. exact E.
Qed.


Lemma two_obstacles_grid :
  create_grid two_obstacles 10 (1 # 4)
  = Ok (grid_of (create_grid two_obstacles 10 (1 # 4)), (-1)%Z, (-1)%Z).
Proof. vm_compute. reflexivity. Qed.

Lemma create_grid_binary_witness :
  cell (grid_of (create_grid two_obstacles 10 (1 # 4))) 1 1 = 0%Z
  \/ cell (grid_of (create_grid two_obstacles 10 (1 # 4))) 1 1 = 1%Z.
Proof.
  apply (create_grid_binary two_obstacles 10 (1 # 4) _ (-1) (-1)).
  exact two_obstacles_grid.
Defined.

Lemma create_grid_altitude_witness :
  exists g' : grid,
    create_grid two_obstacles 50 (1 # 4) = Ok (g', (-1)%Z, (-1)%Z)
    /\ shape0 g' = shape0 (grid_of (create_grid two_obstacles 10 (1 # 4)))
    /\ shape1 g' = shape1 (grid_of (create_grid two_obstacles 10 (1 # 4)))
    /\ forall i j : Z,
         cell g' i j = 1%Z ->
         cell (grid_of (create_grid two_obstacles 10 (1 # 4))) i j = 1%Z.
Proof.
  apply (create_grid_altitude two_obstacles 10 50 (1 # 4)).
  - lra.
  - exact two_obstacles_grid.
Defined.


End CreateGridMore.

(** ** More on prune_path *)

Section PruneMore.

Import PlanningUtils MotionPlanning PruneSpec Inputs.

Variable line : Z -> Z -> Z -> Z -> list node.
Variable g : grid.

Lemma subsequence_refl (p : list node) : subsequence p p.
Proof. induction p; constructor; assumption. Qed.

(** What is left of [first :: second :: rest]: it begins with [first],
    ends with the last position, and leaves some positions out. *)
Lemma prune_from_shape (rest : list node) :
  forall (frames : nat) (a b : node) (q : list node),
    prune_from line g frames a b rest = Ok q ->
    exists q' : list node,
      q = a :: q' /\ q' <> []
      /\ (forall d : node, last q d = last (a :: b :: rest) d)
      /\ subsequence q (a :: b :: rest).
Proof.
  induction rest as [|c rest IH]; intros frames a b q H.
  - apply prune_from_end in H as [-> _]. exists [b].
    split; [reflexivity|]. split; [discriminate|].
    split; [reflexivity|apply subsequence_refl].
  - apply prune_from_step in H as (free & -> & [[_ (tail & E & ->)]|[_ H]]).
    + destruct (IH (S free) b c tail E) as (t' & -> & Hne & Hl & Hs).
      exists (b :: t'). split; [reflexivity|]. split; [discriminate|].
      split; [intros d; exact (Hl d)|constructor; exact Hs].
    + destruct (IH (S free) a c q H) as (q' & -> & Hne & Hl & Hs).
      exists q'. split; [reflexivity|]. split; [exact Hne|]. split.
      * intros d. rewrite Hl. reflexivity.
      * inversion Hs as [|x q0 p0 Hs'|x q0 p0 Hs']; subst.
        -- apply sub_keep. apply sub_drop. exact Hs'.
        -- apply sub_drop. apply sub_drop. exact Hs'.
Qed.

(** X8: what [prune_path] returns is the path with some positions left
    out, never more; it begins with the same position and ends with the
    same position; of a path of two positions or more, at least two
    remain. *)
Theorem prune_path_keeps_ends (frames : nat) (path q : list node)
    (H : prune_path line g frames path = Ok q) :
  subsequence q path
  /\ hd_error q = hd_error path
  /\ (forall d : node, last q d = last path d)
  /\ ((2 <= length path)%nat -> (2 <= length q)%nat).
Proof.
  destruct frames as [|free]; [discriminate H|].
  destruct path as [|a [|b rest]]; cbn [prune_path] in H.
  - injection H as <-. repeat split; [constructor|cbn; lia].
  - injection H as <-. repeat split; [apply subsequence_refl|cbn; lia].
  - destruct (prune_from_shape rest _ a b q H) as (q' & -> & Hne & Hl & Hs).
    split; [exact Hs|]. split; [reflexivity|]. split; [exact Hl|].
    intros _. destruct q'; [contradiction|cbn; lia].
Qed.

Lemma prune_from_clear (rest : list node) :
  forall (frames : nat) (a b : node) (q : list node),
    segments_clear line g (a :: b :: rest) ->
    prune_from line g frames a b rest = Ok q ->
    segments_clear line g q.
Proof.
  induction rest as [|c rest IH]; intros frames a b q Hclear H.
  - apply prune_from_end in H as [-> _]. exact Hclear.
  - destruct Hclear as [Hab Hrest].
    apply prune_from_step in H as (free & -> & [[_ (tail & E & ->)]|[Eac H]]).
    + destruct (prune_from_shape rest _ b c tail E) as (t' & -> & _).
      split; [exact Hab|]. apply (IH (S free) b c); assumption.
    + apply (IH (S free) a c); [|exact H].
      destruct Hrest as [_ Hrest]. destruct rest as [|d rest];
        [split; [exact Eac|exact I]|].
      split; [exact Eac|exact Hrest].
Qed.

(** X9: when no segment of the path meets an obstacle, no segment of the
    pruned path does: a position is left out only after the segment that
    replaces it has been found clear. *)
Theorem prune_path_clear (frames : nat) (path q : list node)
    (Hclear : segments_clear line g path)
    (H : prune_path line g frames path = Ok q) :
  segments_clear line g q.
Proof.
  destruct frames as [|free]; [discriminate H|].
  destruct path as [|a [|b rest]]; cbn [prune_path] in H;
    [injection H as <-; exact I|injection H as <-; exact I|].
  exact (prune_from_clear rest _ a b q Hclear H).
Qed.

End PruneMore.

Section BresenhamFacts.

Import PlanningUtils Bresenham.

(** The cells yielded by the loop: [u] steps along the main axis and [v]
    along the other, with [v] within the shorter extent. *)
Lemma line_loop_points (x0 y0 xx xy yx yy dx dy : Z) (n : nat) :
  0 <= dy <= dx ->
  forall x y D : Z,
    Z.of_nat n + x = dx + 1 ->
    0 <= y <= x ->
    D = 2 * dy * (x + 1) - dx - 2 * dx * y ->
    2 * dx * y <= 2 * dy * x + dx ->
    forall pt : node,
      In pt (line_loop n x0 y0 xx xy yx yy dx dy x y D) ->
      exists u v : Z,
        0 <= u <= dx /\ 0 <= v <= dy
        /\ pt = (x0 + u * xx + v * yx, y0 + u * xy + v * yy).
Proof.
  intros Hd. induction n as [|n IH]; intros x y D Hn Hy HD Hb pt Hin;
    [destruct Hin|].
  cbn [line_loop] in Hin. destruct Hin as [<-|Hin].
  - exists x, y. split; [lia|]. split; [|reflexivity]. nia.
  - destruct (D >=? 0) eqn:E.
    + rewrite Z.geb_leb in E. apply Z.leb_le in E.
      apply (IH (x + 1) (y + 1) (D - 2 * dx + 2 * dy));
        first [exact Hin | nia].
    + rewrite Z.geb_leb in E. apply Z.leb_gt in E.
      apply (IH (x + 1) y (D + 2 * dy)); first [exact Hin | nia].
Qed.

(** The cells of the rasterized segment lie between its two ends, along
    both axes. *)
Lemma bresenham_in_box (x0 y0 x1 y1 : Z) (pt : node) :
  In pt (bresenham x0 y0 x1 y1) ->
  Z.min x0 x1 <= fst pt <= Z.max x0 x1
  /\ Z.min y0 y1 <= snd pt <= Z.max y0 y1.
Proof.
  unfold bresenham. intros Hin.
  destruct (Z.abs (x1 - x0) >? Z.abs (y1 - y0)) eqn:E.
  - rewrite Z.gtb_ltb in E. apply Z.ltb_lt in E.
    apply line_loop_points in Hin; try lia.
    destruct Hin as (u & v & Hu & Hv & ->). cbn [fst snd].
    destruct (x1 - x0 >? 0) eqn:Ex; destruct (y1 - y0 >? 0) eqn:Ey;
      rewrite Z.gtb_ltb in Ex, Ey;
      first [apply Z.ltb_lt in Ex | apply Z.ltb_ge in Ex];
      first [apply Z.ltb_lt in Ey | apply Z.ltb_ge in Ey]; lia.
  - rewrite Z.gtb_ltb in E. apply Z.ltb_ge in E.
    apply line_loop_points in Hin; try lia.
    destruct Hin as (u & v & Hu & Hv & ->). cbn [fst snd].
    destruct (x1 - x0 >? 0) eqn:Ex; destruct (y1 - y0 >? 0) eqn:Ey;
      rewrite Z.gtb_ltb in Ex, Ey;
      first [apply Z.ltb_lt in Ex | apply Z.ltb_ge in Ex];
      first [apply Z.ltb_lt in Ey | apply Z.ltb_ge in Ey]; lia.
Qed.

End BresenhamFacts.

Section PruneOnGrid.

Import PlanningUtils MotionPlanning PruneSpec Bresenham Inputs.

Variable g : grid.

Lemma grid_get_in_grid (n : node) :
  in_grid g n -> grid_get g (fst n) (snd n) = Ok (cell g (fst n) (snd n)).
Proof.
  intros [[H1 H2] [H3 H4]]. unfold grid_get.
  replace ((- shape0 g <=? fst n) && (fst n <? shape0 g)
           && (- shape1 g <=? snd n) && (snd n <? shape1 g)) with true
    by (symmetry; rewrite !andb_true_iff, !Z.leb_le, !Z.ltb_lt; lia).
  replace (fst n <? 0) with false by (symmetry; apply Z.ltb_ge; lia).
  replace (snd n <? 0) with false by (symmetry; apply Z.ltb_ge; lia).
  reflexivity.
Qed.

(** On cells of the grid the test of a segment raises nothing. *)
Lemma crosses_obstacle_in_grid (pts : list node) :
  (forall pt, In pt pts -> in_grid g pt) ->
  exists b : bool, crosses_obstacle g pts = Ok b.
Proof.
  induction pts as [|pt pts IH]; intros H; cbn [crosses_obstacle].
  - exists false. reflexivity.
  - rewrite (grid_get_in_grid pt (H pt (or_introl eq_refl))). cbn [bind].
    destruct (negb (cell g (fst pt) (snd pt) =? 0)); [exists true; reflexivity|].
    apply IH. intros x Hx. apply H. right. exact Hx.
Qed.

Lemma crosses_obstacle_free (pts : list node) :
  (forall pt, In pt pts -> in_grid g pt /\ cell g (fst pt) (snd pt) = 0) ->
  crosses_obstacle g pts = Ok false.
Proof.
  induction pts as [|pt pts IH]; intros H; cbn [crosses_obstacle];
    [reflexivity|].
  destruct (H pt (or_introl eq_refl)) as [Hg Hc].
  rewrite (grid_get_in_grid pt Hg), Hc. cbn [bind Z.eqb negb].
  apply IH. intros x Hx. apply H. right. exact Hx.
Qed.

Lemma bresenham_in_grid (a c pt : node) :
  in_grid g a -> in_grid g c ->
  In pt (bresenham (fst a) (snd a) (fst c) (snd c)) -> in_grid g pt.
Proof.
  intros [Ha1 Ha2] [Hc1 Hc2] Hin. apply bresenham_in_box in Hin.
  unfold in_grid. lia.
Qed.

Lemma blocked_in_grid (a c : node) :
  in_grid g a -> in_grid g c ->
  exists b : bool, blocked bresenham g a c = Ok b.
Proof.
  intros Ha Hc. apply crosses_obstacle_in_grid.
  intros pt Hpt. exact (bresenham_in_grid a c pt Ha Hc Hpt).
Qed.

(** On cells of the grid a call raises no index error: it returns when a
    frame is free for each nested call, and raises [RecursionError] when
    not. *)
Lemma prune_from_returns (rest : list node) :
  forall (frames : nat) (a b : node),
    (forall n, In n (a :: b :: rest) -> in_grid g n) ->
    ((S (length rest) <= frames)%nat ->
     exists q : list node, prune_from bresenham g frames a b rest = Ok q)
    /\ ((frames < S (length rest))%nat ->
        prune_from bresenham g frames a b rest = Raise RecursionError).
Proof.
  induction rest as [|c rest IH]; intros frames a b H.
  - destruct frames as [|free]; cbn [length prune_from].
    + split; [lia|reflexivity].
    + split; [eexists; reflexivity|lia].
  - destruct frames as [|[|free]]; cbn [length];
      [split; [lia|reflexivity]|split; [lia|reflexivity]|].
    rewrite prune_from_eq.
    destruct (blocked_in_grid a c) as [[|] ->];
      [apply H; left; reflexivity
      |apply H; right; right; left; reflexivity| |]; cbn [bind].
    + destruct (IH (S free) b c) as [Hok Hno];
        [intros n Hn; apply H; right; exact Hn|].
      split; intros Hf.
      * destruct Hok as [tail ->]; [lia|]. eexists. reflexivity.
      * rewrite Hno by lia. reflexivity.
    + destruct (IH (S free) a c) as [Hok Hno].
      { intros n [<-|Hn]; [apply H; left; reflexivity|].
        apply H. right. right. exact Hn. }
      split; intros Hf; [apply Hok; lia|apply Hno; lia].
Qed.

(** X10: on a path whose positions are all cells of the grid,
    [prune_path] raises no index error: the cells of the rasterized
    segments lie between the ends of the segments.  It returns when a frame
    is free, and one for each position after the second; with fewer free
    frames it raises [RecursionError]. *)
Theorem prune_path_returns (frames : nat) (path : list node)
    (H : forall n, In n path -> in_grid g n) :
  ((1 <= frames)%nat -> (length path <= S frames)%nat ->
   exists q : list node, prune_path bresenham g frames path = Ok q)
  /\ ((frames = 0%nat \/ (S frames < length path)%nat) ->
      prune_path bresenham g frames path = Raise RecursionError).
Proof.
  destruct frames as [|free].
  - split; [lia|reflexivity].
  - destruct path as [|a [|b rest]]; cbn [prune_path length].
    + split; [eexists; reflexivity|intros [E|E]; [discriminate E|lia]].
    + split; [eexists; reflexivity|intros [E|E]; [discriminate E|lia]].
    + destruct (prune_from_returns rest (S free) a b H) as [Hok Hno].
      split; [intros _ Hf; apply Hok; lia|].
      intros [E|E]; [discriminate E|apply Hno; lia].
Qed.

Lemma last_default (l : list node) :
  forall x d d' : node, last (x :: l) d = last (x :: l) d'.
Proof.
  induction l as [|y l IH]; intros x d d'; [reflexivity|].
  change (last (x :: y :: l) d) with (last (y :: l) d).
  change (last (x :: y :: l) d') with (last (y :: l) d').
  apply IH.
Qed.

Lemma prune_from_free (rest : list node) :
  (forall i j, 0 <= i < shape0 g -> 0 <= j < shape1 g -> cell g i j = 0) ->
  forall (frames : nat) (a b : node),
    (forall n, In n (a :: b :: rest) -> in_grid g n) ->
    (S (length rest) <= frames)%nat ->
    prune_from bresenham g frames a b rest = Ok [a; last rest b].
Proof.
  intros Hfree.
  induction rest as [|c rest IH]; intros frames a b H Hf.
  - destruct frames as [|free]; [cbn in Hf; lia|reflexivity].
  - destruct frames as [|[|free]]; cbn [length] in Hf; try lia.
    rewrite prune_from_eq.
    assert (Hb : blocked bresenham g a c = Ok false).
    { apply crosses_obstacle_free. intros pt Hpt.
      assert (Hg : in_grid g pt).
      { apply (bresenham_in_grid a c pt); [| |exact Hpt].
        - apply H. left. reflexivity.
        - apply H. right. right. left. reflexivity. }
      split; [exact Hg|]. destruct Hg as [H1 H2]. apply Hfree; assumption. }
    rewrite Hb. cbn [bind].
    rewrite (IH (S free) a c).
    + destruct rest as [|d rest]; [reflexivity|].
      change (last (c :: d :: rest) b) with (last (d :: rest) b).
      rewrite (last_default rest d c b). reflexivity.
    + intros n [<-|Hn]; [apply H; left; reflexivity|].
      apply H. right. right. exact Hn.
    + lia.
Qed.

(** X11: on a grid without obstacles, a path of two or more cells of the
    grid is pruned to its first and its last position, when a frame is
    free for each position but one. *)
Theorem prune_path_free_grid (frames : nat) (a b : node) (rest : list node)
    (Hfree : forall i j, 0 <= i < shape0 g -> 0 <= j < shape1 g ->
                         cell g i j = 0)
    (H : forall n, In n (a :: b :: rest) -> in_grid g n)
    (Hf : (S (length rest) <= frames)%nat) :
  prune_path bresenham g frames (a :: b :: rest) = Ok [a; last rest b].
Proof.
  destruct frames as [|free]; [lia|].
  cbn [prune_path]. apply prune_from_free; assumption.
Qed.

End PruneOnGrid.

Section PruneMoreExamples.

Import PlanningUtils MotionPlanning PruneSpec Bresenham Inputs.

Lemma diagonal_in_open_grid : forall n, In n diagonal -> in_grid open_grid n.
Proof.
  intros n Hn. unfold diagonal in Hn. cbn [In] in Hn.
  repeat (destruct Hn as [<-|Hn]; [unfold in_grid; cbn; lia|]).
  destruct Hn.
Qed.

Lemma corner_path_in_grid : forall n, In n corner_path -> in_grid corner_grid n.
Proof.
  intros n Hn. unfold corner_path in Hn. cbn [In] in Hn.
  repeat (destruct Hn as [<-|Hn]; [unfold in_grid; cbn; lia|]).
  destruct Hn.
Qed.

Lemma prune_path_keeps_ends_witness :
  subsequence [(0, 0); (1, 1); (1, 0)] corner_path
  /\ hd_error [(0, 0); (1, 1); (1, 0)] = hd_error corner_path
  /\ (forall d : node, last [(0, 0); (1, 1); (1, 0)] d = last corner_path d)
  /\ ((2 <= length corner_path)%nat ->
      (2 <= length [(0, 0); (1, 1); (1, 0)])%nat).
Proof.
  apply (prune_path_keeps_ends bresenham corner_grid free_frames).
  reflexivity.
Defined.

Lemma prune_path_clear_witness :
  segments_clear bresenham corner_grid [(0, 0); (1, 0)].
Proof.
  apply (prune_path_clear bresenham corner_grid free_frames
           [(0, 0); (1, 1); (1, 0)]).
  - cbn. split; [reflexivity|]. split; [reflexivity|exact I].
  - reflexivity.
Defined.

Lemma prune_path_returns_witness :
  ((1 <= 3)%nat -> (length corner_path <= 4)%nat ->
   exists q : list node, prune_path bresenham corner_grid 3 corner_path = Ok q)
  /\ ((3%nat = 0%nat \/ (4 < length corner_path)%nat) ->
      prune_path bresenham corner_grid 3 corner_path = Raise RecursionError).
Proof.
  apply (prune_path_returns corner_grid 3 corner_path).
  exact corner_path_in_grid.
Defined.

Lemma prune_path_free_grid_witness :
  prune_path bresenham open_grid free_frames diagonal = Ok [(0, 0); (9, 9)].
Proof.
  apply (prune_path_free_grid open_grid free_frames (0, 0) (1, 1)).
  - intros i j _ _. reflexivity.
  - exact diagonal_in_open_grid.
  - apply Nat.leb_le. reflexivity.
Defined.

End PruneMoreExamples.

(** ** The search followed by the pruning *)

Section SearchThenPrune.

Import PlanningUtils MotionPlanning Paths PruneSpec Bresenham Inputs.

(** Between a position and a neighbour the rasterized segment is the two
    positions. *)
Lemma bresenham_adjacent (n : node) (a : Action) :
  bresenham (fst n) (snd n) (fst (move n a)) (snd (move n a))
  = [n; move n a].
Proof.
  destruct n as [x y]. unfold move, bresenham. cbn [fst snd].
  replace (x + fst (delta a) - x) with (fst (delta a)) by lia.
  replace (y + snd (delta a) - y) with (snd (delta a)) by lia.
  destruct a; cbn;
    change (Pos.to_nat 2) with 2%nat; cbn [line_loop Z.geb Z.compare];
    repeat (apply f_equal2; [apply f_equal2; lia|]); reflexivity.
Qed.

Variable g : grid.
Hypothesis binary : forall i j : Z, cell g i j = 0 \/ cell g i j = 1.

Lemma valid_free (n : node) :
  is_valid_node g n = true ->
  in_grid g n /\ cell g (fst n) (snd n) = 0.
Proof.
  destruct n as [x y]. unfold is_valid_node, in_grid. cbn [fst snd].
  destruct ((x <? 0) || (x >? shape0 g - 1) || (y <? 0) || (y >? shape1 g - 1))
    eqn:E; [discriminate|].
  apply orb_false_iff in E as [E Ey2]. apply orb_false_iff in E as [E Ey1].
  apply orb_false_iff in E as [Ex1 Ex2].
  apply Z.ltb_ge in Ex1, Ey1.
  rewrite Z.gtb_ltb in Ex2, Ey2. apply Z.ltb_ge in Ex2, Ey2.
  destruct (cell g x y =? 1) eqn:Ec; [discriminate|]. intros _.
  apply Z.eqb_neq in Ec. split; [lia|].
  destruct (binary x y) as [H|H]; [exact H|contradiction].
Qed.

(** A sequence of valid moves from a valid position has clear segments
    and stays on the grid. *)
Lemma moves_clear (rest : list node) :
  forall n : node,
    is_valid_node g n = true ->
    moves_ok g n rest = true ->
    segments_clear bresenham g (n :: rest)
    /\ forall x, In x (n :: rest) -> in_grid g x.
Proof.
  induction rest as [|m rest IH]; intros n Hn H.
  - split; [exact I|]. intros x [<-|[]]. apply valid_free. exact Hn.
  - cbn [moves_ok] in H.
    destruct (action_between n m) as [a|] eqn:Ea; [|discriminate H].
    apply andb_true_iff in H as [Hm H].
    unfold action_between in Ea. apply find_some in Ea as [_ Ea].
    apply node_eqb_eq in Ea. subst m.
    destruct (IH (move n a) Hm H) as [Hc Hg].
    split.
    + split; [|exact Hc]. unfold blocked. rewrite bresenham_adjacent.
      apply crosses_obstacle_free.
      intros pt [<-|[<-|[]]]; apply valid_free; assumption.
    + intros x [<-|Hx]; [apply valid_free; exact Hn|apply Hg; exact Hx].
Qed.

(** X12: on a grid of 0s and 1s, from a valid start, the path that
    [a_star] returns is pruned without an error when a frame is free, and
    one for each position after the second: to a path with the same first
    and last positions, and no segment of the pruned path meets an
    obstacle. *)
Theorem planned_path_clear (h : node -> node -> float) (start goal : node)
    (p : list node) (c : float) (frames : nat)
    (Hstart : is_valid_node g start = true)
    (H : a_star g h start goal = Ok (p, c))
    (H1 : (1 <= frames)%nat)
    (Hf : (length p <= S frames)%nat) :
  exists q : list node,
    prune_path bresenham g frames p = Ok q
    /\ segments_clear bresenham g q
    /\ hd_error q = hd_error p
    /\ forall d : node, last q d = last p d.
Proof.
  destruct frames as [|free]; [lia|].
  destruct p as [|x p].
  - exists []. repeat split.
  - destruct (a_star_found g h start goal (x :: p) c H) as (mid & E & Hm & _);
      [discriminate|].
    destruct (moves_clear (mid ++ [goal]) start Hstart Hm) as [Hc Hg].
    rewrite E in Hf |- *.
    destruct mid as [|y mid]; cbn [app prune_path length] in *.
    + exists [start; goal]. repeat split. exact (proj1 Hc).
    + destruct (prune_from_returns g (mid ++ [goal]) (S free) start y Hg)
        as [Hok _].
      destruct Hok as [q Hq]; [lia|].
      exists q. split; [exact Hq|].
      split; [exact (prune_from_clear bresenham g _ _ start y q Hc Hq)|].
      destruct (prune_from_shape bresenham g _ _ start y q Hq)
        as (q' & -> & _ & Hl & _).
      split; [reflexivity|exact Hl].
Qed.

End SearchThenPrune.

(** ** The handlers under sequences of events *)

Section Handlers.

Import PlanningUtils MotionPlanning Mission Inputs.

(** X13: [local_position_callback] raises in one case only, with
    [IndexError]: in state TAKEOFF, when the takeoff altitude is reached
    and the waypoint queue is empty.  In state WAYPOINT the queue is
    tested before it is popped. *)
Theorem local_position_callback_raises (d : drone) (e : exn) :
  snd (local_position_callback d) = Raise e
  <-> e = IndexError
      /\ flight_state d = TAKEOFF
      /\ takeoff_altitude_reached d = true
      /\ waypoints d = [].
Proof.
  unfold local_position_callback, waypoint_transition, landing_transition,
    and_then, update, pop_waypoint, ret.
  destruct (flight_state d) eqn:Es; cbn [snd fst];
    try (split; [discriminate|intros (_ & H & _); discriminate H]).
  - destruct (takeoff_altitude_reached d) eqn:Ea.
    + cbn [waypoints set_flight_state].
      destruct (waypoints d) as [|wp ws] eqn:Ew; cbn [snd].
      * split; [intros H; injection H as <-; repeat split|].
        intros (-> & _). reflexivity.
      * split; [discriminate|intros (_ & _ & _ & H); discriminate H].
    + cbn [snd]. split; [discriminate|intros (_ & _ & H & _); discriminate H].
  - destruct (first_two (local_position d)) as [n e0].
    destruct (norm_below_one _ _); cbn [snd];
      [|split; [discriminate|intros (_ & H & _); discriminate H]].
    destruct (waypoints d) as [|wp ws] eqn:Ew; cbn [length Z.of_nat Z.ltb].
    + cbn. destruct (first_two (local_velocity d)) as [vn ve].
      destruct (norm_below_one vn ve); cbn;
        split; try discriminate; intros (_ & H & _); discriminate H.
    + replace (0 <? Z.of_nat (length (wp :: ws))) with true
        by (symmetry; apply Z.ltb_lt; cbn [length]; lia).
      cbn [waypoints set_flight_state]. rewrite Ew. cbn [snd].
      split; [discriminate|intros (_ & H & _); discriminate H].
Qed.

End Handlers.

(** ** After the mission *)

Section HandlerSequences.

Import PlanningUtils MotionPlanning Mission Inputs.

(** Once the mission is over, an event changes the telemetry only. *)
Lemma dispatch_quiet (w : world) (e : event) (d : drone) :
  in_mission d = false -> flight_state d = MANUAL ->
  snd (dispatch w e d) = Ok tt
  /\ in_mission (fst (dispatch w e d)) = false
  /\ flight_state (fst (dispatch w e d)) = MANUAL
  /\ commands (fst (dispatch w e d)) = commands d
  /\ waypoints (fst (dispatch w e d)) = waypoints d
  /\ target_position (fst (dispatch w e d)) = target_position d.
Proof.
  intros Hm Hs.
  destruct e; unfold dispatch, local_position_callback, velocity_callback,
    state_callback, ret;
    cbn [flight_state in_mission set_local_position set_local_velocity
         set_status set_global_position set_global_home];
    rewrite ?Hs, ?Hm; cbn; repeat split; assumption.
Qed.

Lemma run_cons (w : world) (e : event) (es : list event) (d : drone) :
  run w (e :: es) d
  = match dispatch w e d with
    | (d', Ok _) => run w es d'
    | (d', Raise x) => (d', Raise x)
    | (d', Diverge) => (d', Diverge)
    end.
Proof. reflexivity. Qed.

(** X14: once the mission is over (state MANUAL, [in_mission] false), no
    sequence of events raises, issues a command, leaves the state MANUAL
    or starts the mission again. *)
Theorem mission_over_is_quiet (w : world) (es : list event) (d : drone)
    (Hm : in_mission d = false) (Hs : flight_state d = MANUAL) :
  snd (run w es d) = Ok tt
  /\ in_mission (fst (run w es d)) = false
  /\ flight_state (fst (run w es d)) = MANUAL
  /\ commands (fst (run w es d)) = commands d
  /\ waypoints (fst (run w es d)) = waypoints d
  /\ target_position (fst (run w es d)) = target_position d.
Proof.
  revert d Hm Hs. induction es as [|e es IH]; intros d Hm Hs.
  - cbn. repeat split; assumption.
  - rewrite run_cons.
    destruct (dispatch_quiet w e d Hm Hs) as (Hr & Hm' & Hs' & Hc & Hw & Ht).
    destruct (dispatch w e d) as [d1 r]. cbn [fst snd] in *. subst r.
    destruct (IH d1 Hm' Hs') as (Ir & Im & Is & Ic & Iw & It).
    rewrite Ic, Iw, It, Hc, Hw, Ht. repeat split; assumption.
Qed.

End HandlerSequences.
(** ** The waypoints in the order of the plan *)

Section WaypointsInOrder.

Import PlanningUtils MotionPlanning Mission Inputs.

Lemma last_cons_default {A : Type} (l : list A) :
  forall a d d' : A, last (a :: l) d = last (a :: l) d'.
Proof.
  induction l as [|b l IH]; intros a d d'; [reflexivity|].
  change (last (b :: l) d = last (b :: l) d'). apply IH.
Qed.

Lemma last_app_default {A : Type} (l1 l2 : list A) (d : A) :
  last (l1 ++ l2) d = last l2 (last l1 d).
Proof.
  revert d. induction l1 as [|x l1 IH]; intros d; [reflexivity|].
  destruct l1 as [|y l1].
  - cbn [app]. destruct l2 as [|b l2]; [reflexivity|].
    change (last (b :: l2) d = last (b :: l2) x). apply last_cons_default.
  - change (last ((x :: y :: l1) ++ l2) d) with (last ((y :: l1) ++ l2) d).
    rewrite IH. reflexivity.
Qed.

Lemma flown_nothing (d : drone) : flown d d [].
Proof.
  unfold flown. cbn [app map last]. rewrite app_nil_r. repeat split.
Qed.

Lemma flown_trans (d1 d2 d3 : drone) (t1 t2 : list waypoint) :
  flown d1 d2 t1 -> flown d2 d3 t2 -> flown d1 d3 (t1 ++ t2).
Proof.
  intros (Hw1 & Hc1 & Ht1) (Hw2 & Hc2 & Ht2). unfold flown.
  rewrite Hw1, Hw2, Hc2, Hc1, Ht2, Ht1, !map_app, <- !app_assoc.
  rewrite last_app_default. repeat split.
Qed.

(** What the position handler and the status handler do once planning is
    over, apart from taking a waypoint: they leave the queue, the go-to
    commands and the target as they are. *)
Lemma waypoint_transition_flown (d : drone) :
  planning_over (fst (waypoint_transition d)) = true
  /\ exists taken : list waypoint, flown d (fst (waypoint_transition d)) taken.
Proof.
  unfold waypoint_transition, and_then, update, pop_waypoint.
  cbn [fst snd waypoints set_flight_state].
  destruct (waypoints d) as [|wp ws] eqn:Ew.
  - cbn [fst]. split; [reflexivity|]. exists [].
    unfold flown. cbn. rewrite Ew, app_nil_r. repeat split.
  - cbn [fst]. split; [reflexivity|]. exists [wp].
    unfold flown. cbn [waypoints commands target_position set_waypoints
      set_target_position issue set_flight_state app map last].
    rewrite Ew, filter_app. destruct wp as [[[n e] a] hd].
    repeat split.
Qed.

Ltac case_if :=
  match goal with
  | |- context [if ?c then _ else _] => destruct c
  end.

Lemma dispatch_flown (w : world) (e : event) (d : drone) :
  planning_over d = true ->
  planning_over (fst (dispatch w e d)) = true
  /\ exists taken : list waypoint, flown d (fst (dispatch w e d)) taken.
Proof.
  intros H.
  assert (Hstay : forall d' : drone,
             flight_state d' = flight_state d -> in_mission d' = in_mission d ->
             waypoints d' = waypoints d -> commands d' = commands d ->
             target_position d' = target_position d ->
             planning_over d' = true /\ exists taken, flown d d' taken).
  { intros d' Hs Hm Hw Hc Ht. split.
    - unfold planning_over in *. rewrite Hs, Hm. exact H.
    - exists []. unfold flown. rewrite Hw, Hc, Ht. cbn. rewrite app_nil_r.
      repeat split. }
  assert (Hvia : forall d1 : drone,
             waypoints d1 = waypoints d -> commands d1 = commands d ->
             target_position d1 = target_position d ->
             planning_over (fst (waypoint_transition d1)) = true
             /\ exists taken, flown d (fst (waypoint_transition d1)) taken).
  { intros d1 Hw Hc Ht.
    destruct (waypoint_transition_flown d1) as [Hp [taken Hf]].
    split; [exact Hp|]. exists taken. unfold flown in *.
    rewrite <- Hw, <- Hc, <- Ht. exact Hf. }
  destruct e as [p|v|a gd|p|p]; unfold dispatch.
  - unfold local_position_callback.
    cbn [flight_state set_local_position].
    destruct (flight_state d) eqn:Es;
      try (apply Hstay; cbn; congruence).
    + case_if;
        [apply Hvia; reflexivity|apply Hstay; cbn; congruence].
    + destruct p as [[pn pe] pd].
      cbn [target_position local_position waypoints local_velocity
           set_local_position first_two fst].
      destruct (norm_below_one (at_index (target_position d) 0 - pn)
                               (at_index (target_position d) 1 - pe));
        [|apply Hstay; cbn; congruence].
      destruct (0 <? Z.of_nat (length (waypoints d)))%Z;
        [apply Hvia; reflexivity|].
      destruct (local_velocity d) as [[vn ve] vd]. cbn [first_two fst].
      destruct (norm_below_one vn ve); [|apply Hstay; cbn; congruence].
      split; [reflexivity|]. exists []. unfold flown. cbn.
      rewrite filter_app, !app_nil_r. repeat split.
  - unfold velocity_callback. cbn [flight_state set_local_velocity].
    destruct (flight_state d) eqn:Es;
      try (apply Hstay; cbn; congruence).
    cbn [global_position global_home local_position].
    case_if; [|apply Hstay; cbn; congruence].
    case_if; [|apply Hstay; cbn; congruence].
    split; [reflexivity|]. exists []. unfold flown. cbn.
    rewrite !filter_app, !app_nil_r. repeat split.
  - unfold state_callback. cbn [flight_state in_mission set_status armed guided].
    unfold planning_over in H.
    destruct (in_mission d) eqn:Em; [|apply Hstay; cbn; congruence].
    destruct (flight_state d) eqn:Es; try discriminate H;
      try (apply Hstay; cbn; congruence).
    + case_if; [|apply Hstay; cbn; congruence].
      split; [reflexivity|]. exists []. unfold flown. cbn.
      rewrite !filter_app, !app_nil_r. repeat split.
    + split; [reflexivity|]. exists []. unfold flown. cbn.
      rewrite !filter_app, !app_nil_r. repeat split.
  - apply Hstay; reflexivity.
  - apply Hstay; reflexivity.
Qed.

(** X15: once planning is over, whatever events follow and whether or not
    a handler raises, the waypoints leave the queue from its front, the
    go-to commands issued are those of the waypoints taken, one each and
    in the order of the plan, and the target is the last waypoint taken. *)
Theorem waypoints_flown_in_order (w : world) (es : list event) (d : drone)
    (H : planning_over d = true) :
  exists taken : list waypoint,
    waypoints d = taken ++ waypoints (fst (run w es d))
    /\ filter is_go_to (commands (fst (run w es d)))
       = filter is_go_to (commands d) ++ map go_to taken
    /\ target_position (fst (run w es d))
       = last (map waypoint_position taken) (target_position d).
Proof.
  revert d H. induction es as [|e es IH]; intros d H.
  - exists []. apply flown_nothing.
  - rewrite run_cons.
    destruct (dispatch_flown w e d H) as [Hp [t1 H1]].
    destruct (dispatch w e d) as [d1 [[]| |]]; cbn [fst] in *.
    + destruct (IH d1 Hp) as [t2 H2]. exists (t1 ++ t2).
      exact (flown_trans d d1 _ t1 t2 H1 H2).
    + exists t1. exact H1.
    + exists t1. exact H1.
Qed.

End WaypointsInOrder.
(** ** The waypoints of [plan_path] *)

Section PlanPath.

Import PlanningUtils MotionPlanning Mission Paths Bresenham Inputs.

(** X16: when [plan_path] returns, the queue of waypoints is empty (no
    path was found) or it begins with the drone's local position and ends
    with the local position of the goal, both cut to integers: the offsets
    of the grid subtracted by [local_pos_to_grid_pos] are added back.
    Every waypoint has the altitude 10 and the heading 0. *)
Theorem plan_path_waypoints (w : world) (d d' : drone)
    (H : plan_path w d = (d', Ok tt)) :
  Forall (fun wp : waypoint =>
            snd (fst wp) = TARGET_ALTITUDE /\ snd wp = 0) (waypoints d')
  /\ (waypoints d' = []
      \/ exists mid : list waypoint,
           waypoints d'
           = waypoint_over
               (global_to_local w (global_position d) (global_home d))
             :: mid
             ++ [waypoint_over
                   (global_to_local w (fst default_goal, snd default_goal, 0%Q)
                                    (global_home d))]).
Proof.
  revert H.
  unfold plan_path, _set_home_position, send_waypoints, and_then, update, lift.
  destruct (colliders_home w) as [lat0 lon0]. cbn beta iota.
  cbn [global_position global_home set_flight_state set_target_position issue].
  destruct (loadtxt w) as [data| |]; cbn beta iota; try discriminate.
  destruct (create_grid data _ _) as [[[gr no] eo]| |];
    cbn beta iota; try discriminate.
  destruct (global_to_local w (global_position d) (global_home d))
    as [[sn se] sd].
  destruct (global_to_local w _ (global_home d)) as [[gn ge] gd].
  unfold GeoUtils.local_pos_to_grid_pos, waypoint_over.
  cbn [fst snd].
  destruct (a_star gr _ _ _) as [[p c]| |] eqn:Ea; cbn beta iota;
    try discriminate.
  cbn [fst].
  destruct (prune_path _ _ _ _) as [q| |] eqn:Eq; cbn beta iota;
    try discriminate.
  intros H. injection H as <-. cbn [waypoints set_waypoints issue].
  split.
  - apply Forall_forall. intros wp Hin. apply in_map_iff in Hin as [x [<- _]].
    split; reflexivity.
  - destruct (frames_left w) as [|free]; [discriminate Eq|].
    destruct p as [|x p].
    + injection Eq as <-. left. reflexivity.
    + right.
      destruct (a_star_found gr _ _ _ (x :: p) c Ea) as (mid & E & _);
        [discriminate|].
      rewrite E in Eq.
      assert (Hq : exists q' : list node,
                 q = (py_int sn - no, py_int se - eo) :: q' /\ q' <> []
                 /\ forall dn : node,
                      last q dn = (py_int gn - no, py_int ge - eo)).
      { destruct mid as [|y mid]; cbn [app prune_path] in Eq.
        - injection Eq as <-. eexists. split; [reflexivity|].
          split; [discriminate|reflexivity].
        - destruct (prune_from_shape _ _ _ _ _ _ _ Eq)
            as (q' & -> & Hne & Hl & _).
          exists q'. split; [reflexivity|]. split; [exact Hne|].
          intros dn. rewrite Hl.
          change (last (((py_int sn - no, py_int se - eo) :: y :: mid)
                          ++ [(py_int gn - no, py_int ge - eo)]) dn
                  = (py_int gn - no, py_int ge - eo)).
          apply last_last. }
      destruct Hq as (q' & -> & Hne & Hl).
      specialize (Hl (0, 0)).
      assert (Hq : exists (r : list node) (l : node), q' = r ++ [l]).
      { exists (removelast q'), (last q' (0, 0)).
        apply app_removelast_last. exact Hne. }
      destruct Hq as (r & l & ->).
      change (last (((py_int sn - no, py_int se - eo) :: r) ++ [l]) (0, 0)
              = (py_int gn - no, py_int ge - eo)) in Hl.
      rewrite last_last in Hl. subst l.
      exists (map (fun p0 : node =>
                     (fst p0 + no, snd p0 + eo, TARGET_ALTITUDE, 0)) r).
      cbn [map]. rewrite map_app. cbn [map fst snd].
      replace (py_int sn - no + no) with (py_int sn) by lia.
      replace (py_int se - eo + eo) with (py_int se) by lia.
      replace (py_int gn - no + no) with (py_int gn) by lia.
      replace (py_int ge - eo + eo) with (py_int ge) by lia.
      reflexivity.
Qed.

End PlanPath.
(** ** The order of the states *)

Section StatesInOrder.

Import PlanningUtils MotionPlanning Mission Inputs.

(** [plan_path] sets the state first: it is PLANNING however the planning
    ends. *)
Lemma plan_path_state (w : world) (d : drone) :
  flight_state (fst (plan_path w d)) = PLANNING.
Proof.
  unfold plan_path, _set_home_position, send_waypoints, and_then, update, lift.
  destruct (colliders_home w) as [lat0 lon0]. cbn beta iota.
  destruct (loadtxt w) as [data| |]; cbn beta iota; try reflexivity.
  destruct (create_grid data _ _) as [[[gr no] eo]| |];
    cbn beta iota; try reflexivity.
  destruct (a_star gr _ _ _) as [r| |]; cbn beta iota; try reflexivity.
  destruct (prune_path _ _ _ _) as [path| |]; cbn beta iota; reflexivity.
Qed.

Lemma waypoint_transition_state (d : drone) :
  flight_state (fst (waypoint_transition d)) = WAYPOINT.
Proof.
  unfold waypoint_transition, and_then, update, pop_waypoint.
  cbn [fst snd waypoints set_flight_state].
  destruct (waypoints d); reflexivity.
Qed.

Lemma dispatch_advances (w : world) (e : event) (d : drone) :
  flight_state (fst (dispatch w e d)) = flight_state d
  \/ flight_state (fst (dispatch w e d)) = next_state (flight_state d).
Proof.
  destruct e as [[[pn pe] pd]|v|a gd|p|p]; unfold dispatch.
  - unfold local_position_callback.
    cbn [flight_state set_local_position target_position local_position
         waypoints local_velocity first_two fst].
    destruct (flight_state d) eqn:Es; try (left; cbn; exact Es).
    + destruct (takeoff_altitude_reached _); [|left; cbn; exact Es].
      right. apply waypoint_transition_state.
    + destruct (norm_below_one _ _); [|left; cbn; exact Es].
      destruct (0 <? Z.of_nat (length (waypoints d)));
        [left; apply waypoint_transition_state|].
      destruct (local_velocity d) as [[vn ve] vd]. cbn [first_two fst].
      destruct (norm_below_one vn ve); [right; reflexivity|left; cbn; exact Es].
  - unfold velocity_callback. cbn [flight_state set_local_velocity].
    destruct (flight_state d) eqn:Es; try (left; cbn; exact Es).
    destruct (Qltb _ _); [|left; cbn; exact Es].
    destruct (Qltb _ _); [right; reflexivity|left; cbn; exact Es].
  - unfold state_callback.
    cbn [flight_state in_mission set_status armed guided].
    destruct (in_mission d); [|left; reflexivity].
    destruct (flight_state d) eqn:Es; try (left; cbn; exact Es);
      try (right; reflexivity).
    + destruct a; [|left; cbn; exact Es]. right. apply plan_path_state.
    + destruct (truthy _); [right; reflexivity|left; cbn; exact Es].
  - left. reflexivity.
  - left. reflexivity.
Qed.

(** X17: the flight state moves along the cycle MANUAL, ARMING, PLANNING,
    TAKEOFF, WAYPOINT, LANDING, DISARMING, MANUAL only: no sequence of
    events makes it skip a state or go back, and an event moves it by one
    state at most, also when a handler raises. *)
Theorem states_in_order (w : world) (es : list event) (d : drone) :
  exists k : nat,
    (k <= length es)%nat
    /\ flight_state (fst (run w es d)) = Nat.iter k next_state (flight_state d).
Proof.
  revert d. induction es as [|e es IH]; intros d.
  - exists 0%nat. split; [apply Nat.le_refl|reflexivity].
  - rewrite run_cons.
    assert (H1 : exists k1 : nat,
               (k1 <= 1)%nat
               /\ flight_state (fst (dispatch w e d))
                  = Nat.iter k1 next_state (flight_state d)).
    { destruct (dispatch_advances w e d) as [H|H].
      - exists 0%nat. split; [lia|exact H].
      - exists 1%nat. split; [lia|exact H]. }
    destruct H1 as (k1 & Hk1 & H1).
    destruct (dispatch w e d) as [d1 [[]| |]]; cbn [fst] in *.
    + destruct (IH d1) as (k2 & Hk2 & H2).
      exists (k2 + k1)%nat. split; [cbn [length]; lia|].
      rewrite H2, H1. symmetry. apply Nat.iter_add.
    + exists k1. split; [cbn [length]; lia|exact H1].
    + exists k1. split; [cbn [length]; lia|exact H1].
Qed.

End StatesInOrder.
(** ** Positions on the grid of [create_grid] *)

Section GridPositions.

Import PlanningUtils GridSpec PruneSpec Inputs.

Local Open Scope Q_scope.




End GridPositions.
(** ** Examples *)

Section MissionExamples.

Import PlanningUtils MotionPlanning Mission Paths PruneSpec Bresenham Inputs
  MoreInputs MissionInputs.

Lemma planned_path_clear_witness :
  exists q : list node,
    prune_path bresenham open_grid free_frames diagonal = Ok q
    /\ segments_clear bresenham open_grid q
    /\ hd_error q = hd_error diagonal
    /\ forall d : node, last q d = last diagonal d.
Proof.
  apply (planned_path_clear open_grid (fun _ _ => or_introl eq_refl)
           heuristic (0, 0) (9, 9) diagonal (path_cost diagonal) free_frames).
  - reflexivity.
  - vm_compute. reflexivity.
  - apply Nat.leb_le. reflexivity.
  - apply Nat.leb_le. reflexivity.
Defined.

Lemma mission_over_is_quiet_witness :
  snd (run open_world flight finished_drone) = Ok tt
  /\ in_mission (fst (run open_world flight finished_drone)) = false
  /\ flight_state (fst (run open_world flight finished_drone)) = MANUAL
  /\ commands (fst (run open_world flight finished_drone))
     = commands finished_drone
  /\ waypoints (fst (run open_world flight finished_drone))
     = waypoints finished_drone
  /\ target_position (fst (run open_world flight finished_drone))
     = target_position finished_drone.
Proof.
  apply (mission_over_is_quiet open_world flight finished_drone); reflexivity.
Defined.

Lemma planned_drone_planned :
  plan_path open_world armed_drone = (planned_drone, Ok tt).
Proof. vm_compute. reflexivity. Qed.

Lemma waypoints_flown_in_order_witness :
  exists taken : list waypoint,
    waypoints planned_drone
    = taken ++ waypoints (fst (run open_world flight planned_drone))
    /\ filter is_go_to (commands (fst (run open_world flight planned_drone)))
       = filter is_go_to (commands planned_drone) ++ map go_to taken
    /\ target_position (fst (run open_world flight planned_drone))
       = last (map waypoint_position taken) (target_position planned_drone).
Proof.
  apply (waypoints_flown_in_order open_world flight planned_drone).
  vm_compute. reflexivity.
Defined.

Lemma plan_path_waypoints_witness :
  Forall (fun wp : waypoint =>
            snd (fst wp) = TARGET_ALTITUDE /\ snd wp = 0)
         (waypoints planned_drone)
  /\ (waypoints planned_drone = []
      \/ exists mid : list waypoint,
           waypoints planned_drone
           = waypoint_over
               (global_to_local open_world (global_position armed_drone)
                                (global_home armed_drone))
             :: mid
             ++ [waypoint_over
                   (global_to_local open_world
                      (fst default_goal, snd default_goal, 0%Q)
                      (global_home armed_drone))]).
Proof.
  apply (plan_path_waypoints open_world armed_drone planned_drone).
  exact planned_drone_planned.
Defined.


End MissionExamples.

(** ** Planning over the goal *)

Section PlanPathAtGoal.

Import PlanningUtils MotionPlanning Mission Inputs MoreInputs MissionInputs.

(** X19: when the drone is already over the goal (the two local positions
    are cut to the same integers), [plan_path] raises [KeyError] out of
    [a_star], whatever the obstacles are: the state is PLANNING by then,
    the home position has been sent, and the waypoints are as they
    were. *)
Theorem plan_path_at_goal_raises (w : world) (d : drone)
    (data : list obstacle) (g : grid) (north_offset east_offset : Z)
    (Hdata : loadtxt w = Ok data)
    (Hgrid : create_grid data (inject_Z TARGET_ALTITUDE) (inject_Z SAFETY_DISTANCE)
             = Ok (g, north_offset, east_offset))
    (Hsame : waypoint_over (global_to_local w (global_position d) (global_home d))
             = waypoint_over (global_to_local w
                                (fst default_goal, snd default_goal, 0%Q)
                                (global_home d))) :
  snd (plan_path w d) = Raise KeyError
  /\ flight_state (fst (plan_path w d)) = PLANNING
  /\ waypoints (fst (plan_path w d)) = waypoints d
  /\ commands (fst (plan_path w d))
     = commands d ++ [SetHomePosition (snd (colliders_home w))
                                      (fst (colliders_home w)) 0].
Proof.
  revert Hsame.
  unfold plan_path, _set_home_position, send_waypoints, and_then, update, lift.
  destruct (colliders_home w) as [lat0 lon0]. cbn beta iota.
  cbn [global_position global_home set_flight_state set_target_position issue].
  rewrite Hdata. cbn beta iota. rewrite Hgrid. cbn beta iota.
  destruct (global_to_local w (global_position d) (global_home d))
    as [[sn se] sd].
  destruct (global_to_local w _ (global_home d)) as [[gn ge] gd].
  unfold GeoUtils.local_pos_to_grid_pos, waypoint_over. intros Hsame.
  injection Hsame as -> ->.
  unfold a_star, a_star_fuel, search_fuel.
  rewrite search_at_start. cbn.
  repeat split.
Qed.

Lemma plan_path_at_goal_raises_witness :
  snd (plan_path open_world goal_drone) = Raise KeyError
  /\ flight_state (fst (plan_path open_world goal_drone)) = PLANNING
  /\ waypoints (fst (plan_path open_world goal_drone)) = waypoints goal_drone
  /\ commands (fst (plan_path open_world goal_drone))
     = commands goal_drone
       ++ [SetHomePosition (snd (colliders_home open_world))
                           (fst (colliders_home open_world)) 0].
Proof.
  apply (plan_path_at_goal_raises open_world goal_drone
           (colliders_data open_world)
           (grid_of (create_grid (colliders_data open_world)
                       (inject_Z TARGET_ALTITUDE) (inject_Z SAFETY_DISTANCE)))
           0 0).
  - reflexivity.
  - vm_compute. reflexivity.
  - vm_compute. reflexivity.
Defined.

End PlanPathAtGoal.

(** ** create_grid in binary64 *)

Section SpecFloatFacts.

Import PlanningUtils Binary64 Binary64Spec.

(** *** Rounding never gives NaN *)

Lemma iter_pos_invariant {A : Type} (P : A -> Prop) (f : A -> A) :
  (forall x, P x -> P (f x)) ->
  forall (n : positive) (x : A), P x -> P (SpecFloat.iter_pos f n x).
Proof.
  intros Hf. induction n as [n IH|n IH|]; intros x Hx; cbn [SpecFloat.iter_pos].
  - apply IH. apply IH. apply Hf. exact Hx.
  - apply IH. apply IH. exact Hx.
  - apply Hf. exact Hx.
Qed.

Lemma shr_1_bounds (mrs : shr_record) (b : Z) :
  (0 <= shr_m mrs <= b)%Z -> (0 <= shr_m (shr_1 mrs) <= b)%Z.
Proof.
  destruct mrs as [m r s]. cbn [shr_m].
  destruct m as [|[p|p|]|p]; cbn [shr_1 shr_m]; lia.
Qed.

Lemma shr_bounds (mrs : shr_record) (e n b : Z) :
  (0 <= shr_m mrs <= b)%Z ->
  (0 <= shr_m (fst (shr mrs e n)) <= b)%Z
  /\ (snd (shr mrs e n) = e \/ snd (shr mrs e n) = (e + n)%Z).
Proof.
  intros H. destruct n as [|p|p]; cbn [shr fst snd];
    [split; [exact H|left; reflexivity]|
    |split; [exact H|left; reflexivity]].
  split; [|right; reflexivity].
  apply (iter_pos_invariant (fun x => (0 <= shr_m x <= b)%Z)); [|exact H].
  intros x Hx. apply shr_1_bounds. exact Hx.
Qed.

Lemma shr_record_of_loc_m (m : Z) (l : location) :
  shr_m (shr_record_of_loc m l) = m.
Proof. destruct l as [|[ | | ]]; reflexivity. Qed.

Lemma shr_fexp_bounds (prec emax m e b : Z) (l : location) :
  (0 <= m <= b)%Z ->
  (0 <= shr_m (fst (shr_fexp prec emax m e l)) <= b)%Z
  /\ (snd (shr_fexp prec emax m e l) = e
      \/ snd (shr_fexp prec emax m e l)
         = fexp prec emax (Zdigits2 m + e)).
Proof.
  intros H. unfold shr_fexp.
  destruct (shr_bounds (shr_record_of_loc m l) e
              (fexp prec emax (Zdigits2 m + e) - e) b) as [H1 H2].
  { rewrite shr_record_of_loc_m. exact H. }
  split; [exact H1|]. destruct H2 as [H2|H2]; [left; exact H2|].
  right. rewrite H2. lia.
Qed.

Lemma round_nearest_even_bounds (m b : Z) (l : location) :
  (0 <= m <= b)%Z -> (0 <= round_nearest_even m l <= b + 1)%Z.
Proof.
  intros H. destruct l as [|[ | | ]]; cbn [round_nearest_even];
    try lia. destruct (Z.even m); lia.
Qed.

(** The result of a rounding of a mantissa that is not negative: zero,
    a number, or an infinity, of the sign given. *)
Lemma binary_round_aux_cases (prec emax : Z) (sx : bool) (mx ex : Z)
    (lx : location) :
  (0 <= mx)%Z ->
  binary_round_aux prec emax sx mx ex lx = S754_zero sx
  \/ binary_round_aux prec emax sx mx ex lx = S754_infinity sx
  \/ exists (m : positive) (e : Z),
       binary_round_aux prec emax sx mx ex lx = S754_finite sx m e.
Proof.
  intros H. unfold binary_round_aux.
  destruct (shr_fexp_bounds prec emax mx ex mx lx) as [H1 _]; [lia|].
  destruct (shr_fexp prec emax mx ex lx) as [mrs' e']. cbn [fst] in H1.
  pose proof (round_nearest_even_bounds (shr_m mrs') mx
                (loc_of_shr_record mrs') H1) as H2.
  destruct (shr_fexp_bounds prec emax
              (round_nearest_even (shr_m mrs') (loc_of_shr_record mrs'))
              e' (mx + 1) loc_Exact H2) as [H3 _].
  destruct (shr_fexp prec emax _ e' loc_Exact) as [mrs'' e''].
  cbn [fst] in H3.
  destruct (shr_m mrs'') as [|m|m]; [left; reflexivity| |lia].
  destruct (e'' <=? emax - prec)%Z; [|right; left; reflexivity].
  right. right. exists m, e''. reflexivity.
Qed.

Lemma binary_normalize_not_nan (prec emax m e : Z) (s : bool) :
  binary_normalize prec emax m e s <> S754_nan.
Proof.
  unfold binary_normalize, binary_round.
  destruct m as [|p|p]; [discriminate| |].
  - destruct (shl_align p e _) as [mz ez].
    destruct (binary_round_aux_cases prec emax false (Zpos mz) ez loc_Exact)
      as [E|[E|(m' & e' & E)]]; [lia| | |]; rewrite E; discriminate.
  - destruct (shl_align p e _) as [mz ez].
    destruct (binary_round_aux_cases prec emax true (Zpos mz) ez loc_Exact)
      as [E|[E|(m' & e' & E)]]; [lia| | |]; rewrite E; discriminate.
Qed.

End SpecFloatFacts.

Section ConversionFacts.

Import PlanningUtils Binary64 Binary64Spec.

(** *** The float of an integer is a number *)

Lemma digits2_pos_upper (p : positive) :
  (Zpos p < 2 ^ Zpos (digits2_pos p))%Z.
Proof.
  induction p as [p IH|p IH|]; cbn [digits2_pos];
    rewrite ?Pos2Z.inj_succ, ?Z.pow_succ_r by lia; try lia.
Qed.

Lemma digits2_pos_lower (p : positive) :
  (2 ^ (Zpos (digits2_pos p) - 1) <= Zpos p)%Z.
Proof.
  induction p as [p IH|p IH|]; cbn [digits2_pos];
    rewrite ?Pos2Z.inj_succ; [| |cbn; lia].
  - replace (Z.succ (Zpos (digits2_pos p)) - 1)%Z
      with (Z.succ (Zpos (digits2_pos p) - 1)) by lia.
    rewrite Z.pow_succ_r by lia. lia.
  - replace (Z.succ (Zpos (digits2_pos p)) - 1)%Z
      with (Z.succ (Zpos (digits2_pos p) - 1)) by lia.
    rewrite Z.pow_succ_r by lia. lia.
Qed.

Lemma digits2_pos_bound (p : positive) (k : Z) :
  (0 <= k)%Z -> (Zpos p < 2 ^ k)%Z -> (Zpos (digits2_pos p) <= k)%Z.
Proof.
  intros Hk H. pose proof (digits2_pos_lower p) as L.
  assert (Hlt : (2 ^ (Zpos (digits2_pos p) - 1) < 2 ^ k)%Z) by lia.
  apply Z.pow_lt_mono_r_iff in Hlt; lia.
Qed.

Lemma Zdigits2_bound (m k : Z) :
  (0 <= k)%Z -> (0 <= m < 2 ^ k)%Z -> (Zdigits2 m <= k)%Z.
Proof.
  intros Hk [H0 H]. destruct m as [|p|p]; cbn [Zdigits2]; [lia| |lia].
  apply digits2_pos_bound; assumption.
Qed.

Lemma digits2_pos_shift (d p : positive) :
  digits2_pos (Pos.iter xO p d) = (digits2_pos p + d)%positive.
Proof.
  induction d as [|d IH] using Pos.peano_ind.
  - cbn. rewrite Pos.add_1_r. reflexivity.
  - rewrite Pos.iter_succ. cbn [digits2_pos]. rewrite IH.
    rewrite Pos.add_succ_r. reflexivity.
Qed.

(** The rounding of a mantissa below 2^63 at an exponent that is not
    above 0 does not overflow. *)
Lemma binary_round_aux_small (sx : bool) (mx ex : Z) :
  (0 <= mx < 2 ^ 63)%Z -> (ex <= 0)%Z ->
  binary_round_aux prec emax sx mx ex loc_Exact = S754_zero sx
  \/ exists (m : positive) (e : Z),
       binary_round_aux prec emax sx mx ex loc_Exact = S754_finite sx m e.
Proof.
  intros H He. unfold binary_round_aux.
  destruct (shr_fexp_bounds prec emax mx ex (2 ^ 63 - 1) loc_Exact)
    as [H1 E1]; [lia|].
  destruct (shr_fexp prec emax mx ex loc_Exact) as [mrs' e'].
  cbn [fst snd] in H1, E1.
  assert (He' : (e' <= 10)%Z).
  { destruct E1 as [-> | ->]; [lia|].
    pose proof (Zdigits2_bound mx 63 ltac:(lia) H).
    unfold fexp, emin, prec, emax. lia. }
  pose proof (round_nearest_even_bounds (shr_m mrs') (2 ^ 63 - 1)
                (loc_of_shr_record mrs') H1) as H2.
  destruct (shr_fexp_bounds prec emax
              (round_nearest_even (shr_m mrs') (loc_of_shr_record mrs'))
              e' (2 ^ 63 - 1 + 1) loc_Exact H2) as [H3 E3].
  assert (Hd : (Zdigits2 (round_nearest_even (shr_m mrs')
                            (loc_of_shr_record mrs')) <= 64)%Z).
  { apply Zdigits2_bound; [lia|].
    change (2 ^ 64)%Z with (2 * 2 ^ 63)%Z. lia. }
  destruct (shr_fexp prec emax _ e' loc_Exact) as [mrs'' e''].
  cbn [fst snd] in H3, E3.
  assert (He'' : (e'' <= emax - prec)%Z).
  { destruct E3 as [-> | ->]; unfold fexp, emin, prec, emax in *; lia. }
  destruct (shr_m mrs'') as [|m|m]; [left; reflexivity| |lia].
  apply Z.leb_le in He''. rewrite He''.
  right. exists m, e''. reflexivity.
Qed.

Lemma binary_normalize_small (z : Z) :
  (0 <= z < 2 ^ 63)%Z ->
  binary_normalize prec emax z 0 false = S754_zero false
  \/ exists (m : positive) (e : Z),
       binary_normalize prec emax z 0 false = S754_finite false m e.
Proof.
  intros H. destruct z as [|p|p]; [left; reflexivity| |lia].
  cbn [binary_normalize]. unfold binary_round, shl_align.
  pose proof (digits2_pos_bound p 63 ltac:(lia) ltac:(lia)) as Hd.
  pose proof (digits2_pos_upper p) as Hu.
  destruct (fexp prec emax (Zpos (digits2_pos p) + 0) - 0)%Z as [|d|d] eqn:E.
  - apply binary_round_aux_small; lia.
  - apply binary_round_aux_small; lia.
  - apply binary_round_aux_small.
    + split; [lia|].
      pose proof (digits2_pos_upper (Pos.iter xO p d)) as Hs.
      rewrite digits2_pos_shift in Hs.
      assert (Hle : (Zpos (digits2_pos p + d) <= 63)%Z).
      { unfold fexp, emin, prec, emax in E. lia. }
      apply Z.lt_le_trans with (1 := Hs).
      apply Z.pow_le_mono_r; lia.
    + unfold fexp, emin, prec, emax in *. lia.
Qed.

Lemma of_uint63_number (n : Uint63.int) :
  Prim2SF (of_uint63 n) = S754_zero false
  \/ exists (m : positive) (e : Z),
       Prim2SF (of_uint63 n) = S754_finite false m e.
Proof.
  rewrite of_uint63_spec. apply binary_normalize_small.
  pose proof (Uint63.to_Z_bounded n) as H.
  change Uint63.wB with (2 ^ 63)%Z in H. exact H.
Qed.

Lemma float_of_Z_finite (z : Z) : finite (float_of_Z z) = true.
Proof.
  unfold finite, float_of_Z. destruct (z <? 0)%Z.
  - rewrite opp_spec.
    destruct (of_uint63_number (Uint63.of_Z (- z))) as [->|(m & e & ->)];
      reflexivity.
  - destruct (of_uint63_number (Uint63.of_Z z)) as [->|(m & e & ->)];
      reflexivity.
Qed.

(** The float of an integer that is not negative has no sign. *)
Lemma float_of_Z_sign (z : Z) :
  (0 <= z)%Z ->
  Prim2SF (float_of_Z z) = S754_zero false
  \/ exists (m : positive) (e : Z),
       Prim2SF (float_of_Z z) = S754_finite false m e.
Proof.
  intros H. unfold float_of_Z.
  replace (z <? 0)%Z with false by (symmetry; apply Z.ltb_ge; exact H).
  apply of_uint63_number.
Qed.

End ConversionFacts.

Section FloatKinds.

Import PlanningUtils Binary64 Binary64Spec.

Local Open Scope float_scope.

(** *** NaN, infinities and numbers through the operations *)

Lemma SFcompare_refl (x : spec_float) :
  x <> S754_nan -> SFcompare x x = Some Eq.
Proof.
  destruct x as [s|s| |s m e]; cbn; intros H; try reflexivity;
    [destruct s; reflexivity|contradiction|].
  rewrite Z.compare_refl, Pos.compare_cont_refl. destruct s; reflexivity.
Qed.

Lemma is_nan_nan (x : float) : PrimFloat.is_nan x = nan x.
Proof.
  unfold PrimFloat.is_nan, nan. rewrite eqb_spec. unfold SFeqb.
  destruct (Prim2SF x) as [s|s| |s m e] eqn:E; [| |reflexivity|];
    rewrite SFcompare_refl by discriminate; reflexivity.
Qed.

Lemma finite_not_nan (x : float) : finite x = true -> nan x = false.
Proof. unfold finite, nan. destruct (Prim2SF x); congruence. Qed.

Lemma minimum_cases (a b : float) :
  nan (minimum a b) = false ->
  nan a = false /\ nan b = false /\ (minimum a b = a \/ minimum a b = b).
Proof.
  unfold minimum. rewrite !is_nan_nan.
  destruct (nan a) eqn:Ea; [congruence|].
  destruct (nan b) eqn:Eb; [congruence|]. intros _.
  split; [reflexivity|]. split; [reflexivity|].
  destruct (b <? a); [right|left]; reflexivity.
Qed.

Lemma maximum_cases (a b : float) :
  nan (maximum a b) = false ->
  nan a = false /\ nan b = false /\ (maximum a b = a \/ maximum a b = b).
Proof.
  unfold maximum. rewrite !is_nan_nan.
  destruct (nan a) eqn:Ea; [congruence|].
  destruct (nan b) eqn:Eb; [congruence|]. intros _.
  split; [reflexivity|]. split; [reflexivity|].
  destruct (a <? b); [right|left]; reflexivity.
Qed.

(** A NaN in the array is the result of [np.min] and of [np.max]. *)
Lemma fold_minimum_nan (r : list float) :
  forall x : float,
    nan (fold_left minimum r x) = false ->
    forall y : float, In y (x :: r) -> nan y = false.
Proof.
  induction r as [|z r IH]; intros x H y Hy; cbn [fold_left] in H.
  - destruct Hy as [<-|[]]. exact H.
  - pose proof (IH (minimum x z) H) as Hall.
    destruct (minimum_cases x z (Hall _ (or_introl eq_refl)))
      as (Hx & Hz & _).
    destruct Hy as [<-|[<-|Hy]]; [exact Hx|exact Hz|].
    apply Hall. right. exact Hy.
Qed.

Lemma fold_maximum_nan (r : list float) :
  forall x : float,
    nan (fold_left maximum r x) = false ->
    forall y : float, In y (x :: r) -> nan y = false.
Proof.
  induction r as [|z r IH]; intros x H y Hy; cbn [fold_left] in H.
  - destruct Hy as [<-|[]]. exact H.
  - pose proof (IH (maximum x z) H) as Hall.
    destruct (maximum_cases x z (Hall _ (or_introl eq_refl)))
      as (Hx & Hz & _).
    destruct Hy as [<-|[<-|Hy]]; [exact Hx|exact Hz|].
    apply Hall. right. exact Hy.
Qed.

Lemma np_min_nan (l : list float) (m : float) :
  np_min l = Ok m -> nan m = false ->
  forall y : float, In y l -> nan y = false.
Proof.
  destruct l as [|x r]; [discriminate|]. intros H. injection H as <-.
  apply fold_minimum_nan.
Qed.

Lemma np_max_nan (l : list float) (m : float) :
  np_max l = Ok m -> nan m = false ->
  forall y : float, In y l -> nan y = false.
Proof.
  destruct l as [|x r]; [discriminate|]. intros H. injection H as <-.
  apply fold_maximum_nan.
Qed.

(** A difference that is a number has numbers as operands. *)
Lemma sub_finite (x y : float) :
  finite (x - y) = true -> finite x = true /\ finite y = true.
Proof.
  unfold finite. rewrite sub_spec. unfold SF64sub, SFsub.
  destruct (Prim2SF x) as [sx|sx| |sx mx ex];
    destruct (Prim2SF y) as [sy|sy| |sy my ey];
    try (intros H; split; reflexivity); try discriminate;
    destruct sx, sy; discriminate.
Qed.

(** No NaN comes out of a subtraction or an addition of a number. *)
Lemma sub_not_nan (x y : float) :
  nan x = false -> finite y = true -> nan (x - y) = false.
Proof.
  unfold finite, nan. rewrite sub_spec. unfold SF64sub, SFsub.
  destruct (Prim2SF x) as [sx|sx| |sx mx ex];
    destruct (Prim2SF y) as [sy|sy| |sy my ey];
    try reflexivity; try discriminate; intros _ _.
  - destruct sx, sy; reflexivity.
  - destruct (binary_normalize prec emax _ _ false) eqn:E; try reflexivity.
    exfalso. exact (binary_normalize_not_nan _ _ _ _ _ E).
Qed.

Lemma add_not_nan (x y : float) :
  nan x = false -> finite y = true -> nan (x + y) = false.
Proof.
  unfold finite, nan. rewrite add_spec. unfold SF64add, SFadd.
  destruct (Prim2SF x) as [sx|sx| |sx mx ex];
    destruct (Prim2SF y) as [sy|sy| |sy my ey];
    try reflexivity; try discriminate; intros _ _.
  - destruct sx, sy; reflexivity.
  - destruct (binary_normalize prec emax _ _ false) eqn:E; try reflexivity.
    exfalso. exact (binary_normalize_not_nan _ _ _ _ _ E).
Qed.

Lemma opp_finite (x : float) : finite (- x) = finite x.
Proof.
  unfold finite. rewrite opp_spec. destruct (Prim2SF x); reflexivity.
Qed.

(** [np.floor] and [np.ceil] give a number on numbers only. *)
Lemma np_floor_finite (x : float) : finite (np_floor x) = finite x.
Proof.
  unfold np_floor. destruct (Prim2SF x) as [s|s| |s m e] eqn:E;
    try reflexivity.
  destruct (e <? 0)%Z; [|reflexivity].
  rewrite float_of_Z_finite. unfold finite. rewrite E. reflexivity.
Qed.

Lemma np_ceil_finite (x : float) : finite (np_ceil x) = finite x.
Proof.
  unfold np_ceil. rewrite opp_finite, np_floor_finite. apply opp_finite.
Qed.

(** [int] returns on the numbers, and on them only. *)
Lemma py_int_finite (x : float) :
  finite x = true <-> exists z : Z, py_int x = Ok z.
Proof.
  unfold finite, py_int. destruct (Prim2SF x) as [s|s| |s m e]; split;
    try discriminate; try (intros _; eexists; reflexivity);
    try reflexivity; intros [z H]; discriminate H.
Qed.

Lemma py_int_error (x : float) (e : exn) :
  py_int x = Raise e -> e = ValueError \/ e = OverflowError.
Proof.
  unfold py_int. destruct (Prim2SF x); intros H; try discriminate H;
    injection H as <-; [right|left]; reflexivity.
Qed.

End FloatKinds.

Section ClipIndex.

Import PlanningUtils Binary64 Binary64Spec.

Local Open Scope float_scope.

(** *** The indices of a block *)

Lemma float_of_Z_zero : Prim2SF (float_of_Z 0) = S754_zero false.
Proof. reflexivity. Qed.

(** [int] of a float that is not a negative number is not negative. *)
Lemma py_int_unsigned (x : float) (r : Z) :
  (forall (m : positive) (e : Z), Prim2SF x <> S754_finite true m e) ->
  py_int x = Ok r -> (0 <= r)%Z.
Proof.
  unfold py_int. intros Hs.
  destruct (Prim2SF x) as [s|s| |s m e]; intros H; try discriminate H;
    injection H as <-; [lia|].
  destruct s; [exfalso; exact (Hs m e eq_refl)|].
  cbn [signed]. destruct (e <? 0)%Z eqn:Ee.
  - apply Z.ltb_lt in Ee.
    apply Z.quot_pos; [lia|]. apply Z.pow_pos_nonneg; lia.
  - apply Z.mul_nonneg_nonneg; [lia|]. apply Z.pow_nonneg. lia.
Qed.

Lemma float_of_Z_unsigned (z : Z) :
  (0 <= z)%Z ->
  forall (m : positive) (e : Z),
    Prim2SF (float_of_Z z) <> S754_finite true m e.
Proof.
  intros H m e.
  destruct (float_of_Z_sign z H) as [->|(m' & e' & ->)]; discriminate.
Qed.

(** [int(np.clip(x, 0, size - 1))] returns when [x] is not NaN: an
    infinity is brought to a bound. *)
Lemma clip_index_returns (x : float) (size : Z) :
  nan x = false -> exists r : Z, clip_index x size = Ok r.
Proof.
  intros Hx. apply py_int_finite.
  pose proof (float_of_Z_finite (size - 1)) as Hk.
  unfold np_clip, maximum, minimum. rewrite !is_nan_nan, Hx.
  replace (nan (float_of_Z 0)) with false by reflexivity.
  rewrite (finite_not_nan _ Hk).
  destruct (x <? float_of_Z 0) eqn:E0.
  - replace (nan (float_of_Z 0)) with false by reflexivity.
    destruct (float_of_Z (size - 1) <? float_of_Z 0); [exact Hk|reflexivity].
  - rewrite Hx. destruct (float_of_Z (size - 1) <? x) eqn:E1; [exact Hk|].
    rewrite ltb_spec in E0, E1. unfold SFltb in E0, E1.
    rewrite float_of_Z_zero in E0.
    unfold finite in Hk |- *. unfold nan in Hx.
    destruct (Prim2SF x) as [s|s| |s m e]; try reflexivity; try discriminate.
    destruct s.
    + cbn in E0. discriminate E0.
    + destruct (Prim2SF (float_of_Z (size - 1))); cbn in E1;
        discriminate.
Qed.

(** On a grid that has a row, the index is not negative. *)
Lemma clip_index_nonneg (x : float) (size r : Z) :
  (1 <= size)%Z -> clip_index x size = Ok r -> (0 <= r)%Z.
Proof.
  intros Hs. unfold clip_index, np_clip, maximum, minimum.
  rewrite !is_nan_nan.
  replace (nan (float_of_Z 0)) with false by reflexivity.
  pose proof (float_of_Z_unsigned (size - 1) ltac:(lia)) as Hk.
  pose proof (float_of_Z_unsigned 0 ltac:(lia)) as Hz.
  destruct (nan x) eqn:Hx.
  - rewrite Hx. unfold py_int. unfold nan in Hx.
    destruct (Prim2SF x); discriminate.
  - destruct (x <? float_of_Z 0) eqn:E0.
    + replace (nan (float_of_Z 0)) with false by reflexivity.
      destruct (nan (float_of_Z (size - 1)));
        [apply py_int_unsigned; exact Hk|].
      destruct (float_of_Z (size - 1) <? float_of_Z 0);
        apply py_int_unsigned; assumption.
    + rewrite Hx.
      destruct (nan (float_of_Z (size - 1)));
        [apply py_int_unsigned; exact Hk|].
      destruct (float_of_Z (size - 1) <? x);
        [apply py_int_unsigned; exact Hk|].
      apply py_int_unsigned. intros m e E.
      rewrite ltb_spec in E0. unfold SFltb in E0.
      rewrite float_of_Z_zero, E in E0. cbn in E0. discriminate E0.
Qed.

(** [grid[o0:o1+1, o2:o3+1] = 1] with indices that are not negative marks
    the cells from [o0] to [o1] and from [o2] to [o3]. *)
Lemma assign_block_cell (g : grid) (o0 o1 o2 o3 i j : Z) :
  (0 <= o0)%Z -> (0 <= o1)%Z -> (0 <= o2)%Z -> (0 <= o3)%Z ->
  (0 <= i < shape0 g)%Z -> (0 <= j < shape1 g)%Z ->
  cell (assign_block g o0 (o1 + 1) o2 (o3 + 1) 1) i j
  = if ((o0 <=? i) && (i <=? o1) && (o2 <=? j) && (j <=? o3))%Z then 1%Z
    else cell g i j.
Proof.
  intros H0 H1 H2 H3 Hi Hj. unfold assign_block, slice_bound. cbn [cell].
  replace (o0 <? 0)%Z with false by (symmetry; apply Z.ltb_ge; lia).
  replace (o1 + 1 <? 0)%Z with false by (symmetry; apply Z.ltb_ge; lia).
  replace (o2 <? 0)%Z with false by (symmetry; apply Z.ltb_ge; lia).
  replace (o3 + 1 <? 0)%Z with false by (symmetry; apply Z.ltb_ge; lia).
  replace (Z.max 0 (Z.min (shape0 g) o0) <=? i)%Z with (o0 <=? i)%Z
    by (apply Bool.eq_true_iff_eq; rewrite !Z.leb_le; lia).
  replace (i <? Z.max 0 (Z.min (shape0 g) (o1 + 1)))%Z with (i <=? o1)%Z
    by (apply Bool.eq_true_iff_eq; rewrite Z.ltb_lt, Z.leb_le; lia).
  replace (Z.max 0 (Z.min (shape1 g) o2) <=? j)%Z with (o2 <=? j)%Z
    by (apply Bool.eq_true_iff_eq; rewrite !Z.leb_le; lia).
  replace (j <? Z.max 0 (Z.min (shape1 g) (o3 + 1)))%Z with (j <=? o3)%Z
    by (apply Bool.eq_true_iff_eq; rewrite Z.ltb_lt, Z.leb_le; lia).
  reflexivity.
Qed.

End ClipIndex.

Section CreateGridBinary64.

Import PlanningUtils Binary64 Binary64Spec.

Local Open Scope float_scope.

(** *** The loop over the obstacles *)

Section ObstacleLoop.

Variables drone_altitude safety_distance north_min east_min : float.
Variables north_size east_size : Z.

Let mark : grid -> obstacle -> result grid :=
  mark_obstacle drone_altitude safety_distance north_min east_min
                north_size east_size.

Let marks : list obstacle -> grid -> result grid :=
  mark_obstacles drone_altitude safety_distance north_min east_min
                 north_size east_size.

Lemma block_returns (o : obstacle) :
  finite safety_distance = true ->
  finite north_min = true -> finite east_min = true ->
  edges_not_nan o ->
  exists b : Z * Z * Z * Z,
    block safety_distance north_min east_min north_size east_size o = Ok b.
Proof.
  intros Hsd Hn He (H0 & H1 & H2 & H3). unfold block.
  destruct (clip_index_returns
              (north o - d_north o - safety_distance - north_min) north_size)
    as [o0 ->]; [apply sub_not_nan; [apply sub_not_nan|]; assumption|].
  destruct (clip_index_returns
              (north o + d_north o + safety_distance - north_min) north_size)
    as [o1 ->];
    [apply sub_not_nan; [apply add_not_nan|]; assumption|].
  destruct (clip_index_returns
              (east o - d_east o - safety_distance - east_min) east_size)
    as [o2 ->]; [apply sub_not_nan; [apply sub_not_nan|]; assumption|].
  destruct (clip_index_returns
              (east o + d_east o + safety_distance - east_min) east_size)
    as [o3 ->];
    [apply sub_not_nan; [apply add_not_nan|]; assumption|].
  eexists. reflexivity.
Qed.

Lemma mark_obstacle_shape (g g' : grid) (o : obstacle) :
  mark g o = Ok g' -> shape0 g' = shape0 g /\ shape1 g' = shape1 g.
Proof.
  unfold mark, mark_obstacle. destruct (tall _ _ o).
  - destruct (block _ _ _ _ _ o) as [[[[o0 o1] o2] o3]| |]; cbn [bind];
      try discriminate.
    intros H. injection H as <-. split; reflexivity.
  - intros H. injection H as <-. split; reflexivity.
Qed.

Lemma mark_obstacles_returns (data : list obstacle) :
  finite safety_distance = true ->
  finite north_min = true -> finite east_min = true ->
  (forall o, In o data -> edges_not_nan o) ->
  forall g : grid, exists g' : grid, marks data g = Ok g'.
Proof.
  intros Hsd Hn He. unfold marks.
  induction data as [|o data IH]; intros Hall g; cbn [mark_obstacles].
  - exists g. reflexivity.
  - assert (Ho : exists g1, mark g o = Ok g1).
    { unfold mark, mark_obstacle. destruct (tall _ _ o);
        [|eexists; reflexivity].
      destruct (block_returns o Hsd Hn He (Hall o (or_introl eq_refl)))
        as [[[[o0 o1] o2] o3] ->].
      eexists. reflexivity. }
    destruct Ho as [g1 Eg]. unfold mark in Eg. rewrite Eg. cbn [bind].
    apply IH. intros x Hx. apply Hall. right. exact Hx.
Qed.

(** The cells after an obstacle. *)
Lemma mark_obstacle_cells (g g' : grid) (o : obstacle) :
  shape0 g = north_size -> shape1 g = east_size ->
  mark g o = Ok g' ->
  forall i j : Z,
    (0 <= i < north_size)%Z -> (0 <= j < east_size)%Z ->
    (cell g' i j = 1%Z
     <-> cell g i j = 1%Z
         \/ (tall drone_altitude safety_distance o = true
             /\ in_block safety_distance north_min east_min
                         north_size east_size o i j))
    /\ (cell g' i j = cell g i j \/ cell g' i j = 1%Z).
Proof.
  intros S0 S1. unfold mark, mark_obstacle, in_block.
  destruct (tall _ _ o) eqn:Et.
  - destruct (block _ _ _ _ _ o) as [[[[o0 o1] o2] o3]| |] eqn:Eb;
      cbn [bind]; try discriminate.
    intros H i j Hi Hj. injection H as <-.
    assert (Hpos : (0 <= o0 /\ 0 <= o1 /\ 0 <= o2 /\ 0 <= o3)%Z).
    { unfold block in Eb.
      destruct (clip_index _ north_size) as [a0| |] eqn:E0; cbn [bind] in Eb;
        try discriminate Eb.
      destruct (clip_index _ north_size) as [a1| |] eqn:E1 in Eb;
        cbn [bind] in Eb; try discriminate Eb.
      destruct (clip_index _ east_size) as [a2| |] eqn:E2 in Eb;
        cbn [bind] in Eb; try discriminate Eb.
      destruct (clip_index _ east_size) as [a3| |] eqn:E3 in Eb;
        cbn [bind] in Eb; try discriminate Eb.
      injection Eb as <- <- <- <-.
      apply clip_index_nonneg in E0, E1, E2, E3; lia. }
    rewrite assign_block_cell by lia.
    destruct ((o0 <=? i) && (i <=? o1) && (o2 <=? j) && (j <=? o3))%Z eqn:E.
    + split; [|right; reflexivity]. split; [|reflexivity]. intros _.
      right. split; [reflexivity|]. exists o0, o1, o2, o3.
      rewrite !andb_true_iff, !Z.leb_le in E. split; [reflexivity|lia].
    + split; [|left; reflexivity]. split; [intros H; left; exact H|].
      intros [H|(_ & a0 & a1 & a2 & a3 & Ea & Hr & Hc)]; [exact H|].
      injection Ea as <- <- <- <-. exfalso.
      assert (Et' : ((o0 <=? i) && (i <=? o1) && (o2 <=? j) && (j <=? o3))%Z
                    = true)
        by (rewrite !andb_true_iff, !Z.leb_le; lia).
      congruence.
  - intros H i j Hi Hj. injection H as <-.
    split; [|left; reflexivity]. split; [intros H; left; exact H|].
    intros [H|[H _]]; [exact H|discriminate H].
Qed.

(** The cells after the loop. *)
Lemma mark_obstacles_cells (data : list obstacle) :
  forall g g' : grid,
    shape0 g = north_size -> shape1 g = east_size ->
    marks data g = Ok g' ->
    shape0 g' = north_size /\ shape1 g' = east_size
    /\ forall i j : Z,
         (0 <= i < north_size)%Z -> (0 <= j < east_size)%Z ->
         (cell g' i j = 1%Z
          <-> cell g i j = 1%Z
              \/ exists o : obstacle,
                   In o data
                   /\ tall drone_altitude safety_distance o = true
                   /\ in_block safety_distance north_min east_min
                               north_size east_size o i j)
         /\ (cell g' i j = cell g i j \/ cell g' i j = 1%Z).
Proof.
  unfold marks.
  induction data as [|o data IH]; intros g g' S0 S1 H; cbn [mark_obstacles] in H.
  - injection H as <-. split; [exact S0|]. split; [exact S1|].
    intros i j _ _. split; [|left; reflexivity].
    split; [intros H; left; exact H|].
    intros [H|(o & [] & _)]. exact H.
  - destruct (mark_obstacle _ _ _ _ _ _ g o) as [g1| |] eqn:E1;
      cbn [bind] in H; try discriminate H.
    destruct (mark_obstacle_shape g g1 o E1) as [T0 T1].
    destruct (IH g1 g' ltac:(congruence) ltac:(congruence) H)
      as (U0 & U1 & Hc).
    split; [exact U0|]. split; [exact U1|].
    intros i j Hi Hj.
    destruct (Hc i j Hi Hj) as [Hiff Hor].
    destruct (mark_obstacle_cells g g1 o S0 S1 E1 i j Hi Hj) as [Hiff1 Hor1].
    split.
    + rewrite Hiff, Hiff1. split.
      * intros [[H1|[Ht Hb]]|(x & Hx & Ht & Hb)].
        -- left. exact H1.
        -- right. exists o. split; [left; reflexivity|]. split; assumption.
        -- right. exists x. split; [right; exact Hx|]. split; assumption.
      * intros [H1|(x & [<-|Hx] & Ht & Hb)].
        -- left. left. exact H1.
        -- left. right. split; assumption.
        -- right. exists x. split; [exact Hx|]. split; assumption.
    + destruct Hor as [Hor|Hor]; [|right; exact Hor].
      destruct Hor1 as [Hor1|Hor1]; [left; congruence|right; congruence].
Qed.

End ObstacleLoop.

End CreateGridBinary64.

Section CreateGridResults.

Import PlanningUtils Binary64 Binary64Spec.

Local Open Scope float_scope.

(** [create_grid], from the edges and the dimensions on. *)
Lemma np_zeros_allocatable (capacity r c : Z) :
  allocatable capacity r c = true ->
  np_zeros capacity r c = Ok (mkGrid r c (fun _ _ => 0%Z)).
Proof.
  unfold allocatable, np_zeros. rewrite !andb_true_iff.
  rewrite !Z.leb_le, !Z.ltb_lt. intros H.
  replace ((r <? 0)%Z || (c <? 0)%Z) with false
    by (symmetry; apply orb_false_iff; rewrite !Z.ltb_ge; lia).
  replace ((2 ^ 63 <=? r) || (2 ^ 63 <=? c) || (2 ^ 63 <=? 8 * (r * c)))%Z
    with false
    by (symmetry; rewrite !orb_false_iff, !Z.leb_gt; lia).
  replace (capacity <? r * c)%Z with false
    by (symmetry; apply Z.ltb_ge; lia).
  reflexivity.
Qed.

Lemma np_zeros_refused (capacity r c : Z) :
  allocatable capacity r c = false ->
  np_zeros capacity r c = Raise ValueError
  \/ np_zeros capacity r c = Raise MemoryError.
Proof.
  unfold allocatable, np_zeros. intros H.
  destruct ((r <? 0)%Z || (c <? 0)%Z) eqn:E0; [left; reflexivity|].
  destruct ((2 ^ 63 <=? r) || (2 ^ 63 <=? c) || (2 ^ 63 <=? 8 * (r * c)))%Z
    eqn:E1; [left; reflexivity|].
  destruct (capacity <? r * c)%Z eqn:E2; [right; reflexivity|].
  exfalso. rewrite !orb_false_iff in E0, E1.
  rewrite !Z.ltb_ge in E0. rewrite !Z.leb_gt in E1. rewrite Z.ltb_ge in E2.
  assert (Ht : ((0 <=? r) && (0 <=? c) && (r <? 2 ^ 63) && (c <? 2 ^ 63)
                && (8 * (r * c) <? 2 ^ 63) && (r * c <=? capacity))%Z = true)
    by (rewrite !andb_true_iff, !Z.leb_le, !Z.ltb_lt; lia).
  congruence.
Qed.


Lemma create_grid_eq (capacity : Z) (data : list obstacle)
    (drone_altitude safety_distance : float) :
  create_grid capacity data drone_altitude safety_distance
  = ('(lo_n, hi_n, lo_e, hi_e) <- bounds data ;;
     north_size <- dimension lo_n hi_n ;;
     east_size <- dimension lo_e hi_e ;;
     g <- np_zeros capacity north_size east_size ;;
     g' <- mark_obstacles drone_altitude safety_distance
                          (np_floor lo_n) (np_floor lo_e)
                          north_size east_size data g ;;
     n0 <- py_int (np_floor lo_n) ;;
     e0 <- py_int (np_floor lo_e) ;;
     Ok (g', n0, e0))%result.
Proof.
  unfold create_grid, bounds, dimension.
  destruct (np_min (map (fun o => north o - d_north o) data)); try reflexivity.
  destruct (np_max (map (fun o => north o + d_north o) data)); try reflexivity.
  destruct (np_min (map (fun o => east o - d_east o) data)); try reflexivity.
  destruct (np_max (map (fun o => east o + d_east o) data)); reflexivity.
Qed.

(** A dimension that [int] returns has numbers as edges. *)
Lemma dimension_finite (lo hi : float) (n : Z) :
  dimension lo hi = Ok n ->
  finite lo = true /\ finite hi = true /\ finite (np_floor lo) = true.
Proof.
  unfold dimension. intros H.
  assert (Hf : finite (np_ceil (np_ceil hi - np_floor lo)) = true)
    by (apply py_int_finite; exists n; exact H).
  rewrite np_ceil_finite in Hf. apply sub_finite in Hf as [Hh Hl].
  rewrite np_ceil_finite in Hh. pose proof Hl as Hl'.
  rewrite np_floor_finite in Hl'. repeat split; assumption.
Qed.

Lemma bounds_not_nan (data : list obstacle) (lo_n hi_n lo_e hi_e : float) :
  bounds data = Ok (lo_n, hi_n, lo_e, hi_e) ->
  finite lo_n = true -> finite hi_n = true ->
  finite lo_e = true -> finite hi_e = true ->
  forall o : obstacle, In o data -> edges_not_nan o.
Proof.
  unfold bounds.
  destruct (np_min (map (fun o => north o - d_north o) data)) as [a| |] eqn:E0;
    cbn [bind]; try discriminate.
  destruct (np_max (map (fun o => north o + d_north o) data)) as [b| |] eqn:E1;
    cbn [bind]; try discriminate.
  destruct (np_min (map (fun o => east o - d_east o) data)) as [c| |] eqn:E2;
    cbn [bind]; try discriminate.
  destruct (np_max (map (fun o => east o + d_east o) data)) as [d| |] eqn:E3;
    cbn [bind]; try discriminate.
  intros H. injection H as -> -> -> ->. intros F0 F1 F2 F3 o Ho.
  unfold edges_not_nan. repeat split.
  - apply (np_min_nan _ _ E0 (finite_not_nan _ F0)).
    apply (in_map (fun o => north o - d_north o)). exact Ho.
  - apply (np_max_nan _ _ E1 (finite_not_nan _ F1)).
    apply (in_map (fun o => north o + d_north o)). exact Ho.
  - apply (np_min_nan _ _ E2 (finite_not_nan _ F2)).
    apply (in_map (fun o => east o - d_east o)). exact Ho.
  - apply (np_max_nan _ _ E3 (finite_not_nan _ F3)).
    apply (in_map (fun o => east o + d_east o)). exact Ho.
Qed.

Lemma bounds_error (data : list obstacle) (e : exn) :
  bounds data = Raise e -> data = [] /\ e = ValueError.
Proof.
  unfold bounds. destruct data as [|o data]; cbn.
  - intros H. injection H as <-. split; reflexivity.
  - discriminate.
Qed.

Lemma bounds_returned (data : list obstacle) : bounds data <> Diverge.
Proof. unfold bounds. destruct data; cbn; discriminate. Qed.


(** C7, amended: [create_grid] raises [ValueError] on the empty array,
    from [np.min], before it builds a grid.  On an array that is not
    empty, and with a safety distance that is a number, it returns exactly
    when the two dimensions are integers and the grid can be allocated:
    it raises [ValueError] when a dimension is negative, [ValueError] or
    [MemoryError] when the grid is too large, and the error of [int],
    [ValueError] on NaN or [OverflowError] on an infinity, when a
    dimension is not an integer. *)
Theorem create_grid_fails (capacity : Z) (data : list obstacle)
    (drone_altitude safety_distance : float)
    (Hsd : finite safety_distance = true) :
  (data = [] ->
   create_grid capacity data drone_altitude safety_distance
   = Raise ValueError)
  /\ (forall north_size east_size : Z,
        dimensions data = Ok (north_size, east_size) ->
        allocatable capacity north_size east_size = true ->
        exists (g : grid) (north_min east_min : Z),
          create_grid capacity data drone_altitude safety_distance
          = Ok (g, north_min, east_min)
          /\ shape0 g = north_size /\ shape1 g = east_size)
  /\ (forall north_size east_size : Z,
        dimensions data = Ok (north_size, east_size) ->
        allocatable capacity north_size east_size = false ->
        create_grid capacity data drone_altitude safety_distance
        = Raise ValueError
        \/ create_grid capacity data drone_altitude safety_distance
           = Raise MemoryError)
  /\ (forall north_size east_size : Z,
        dimensions data = Ok (north_size, east_size) ->
        (north_size < 0)%Z \/ (east_size < 0)%Z ->
        create_grid capacity data drone_altitude safety_distance
        = Raise ValueError)
  /\ (forall e : exn,
        dimensions data = Raise e ->
        create_grid capacity data drone_altitude safety_distance = Raise e
        /\ (e = ValueError \/ e = OverflowError))
  /\ dimensions data <> Diverge.
Proof.
  split; [intros ->; reflexivity|].
  rewrite create_grid_eq. unfold dimensions.
  destruct (bounds data) as [[[[lo_n hi_n] lo_e] hi_e]| |] eqn:Eb;
    cbn [bind].
  - destruct (dimension lo_n hi_n) as [ns| |] eqn:En; cbn [bind].
    + destruct (dimension lo_e hi_e) as [es| |] eqn:Ee; cbn [bind].
      * split; [|split; [|split;
                 [|split; [intros e He; discriminate He|discriminate]]]].
        -- intros ns' es' E Ha. injection E as <- <-.
           rewrite (np_zeros_allocatable _ _ _ Ha). cbn [bind].
           destruct (dimension_finite _ _ _ En) as (F0 & F1 & G0).
           destruct (dimension_finite _ _ _ Ee) as (F2 & F3 & G1).
           destruct (mark_obstacles_returns drone_altitude safety_distance
                       (np_floor lo_n) (np_floor lo_e) ns es data Hsd G0 G1
                       (bounds_not_nan data _ _ _ _ Eb F0 F1 F2 F3)
                       (mkGrid ns es (fun _ _ => 0%Z))) as [g' Eg].
           rewrite Eg. cbn [bind].
           destruct (proj1 (py_int_finite _) G0) as [n0 ->].
           destruct (proj1 (py_int_finite _) G1) as [e0 ->]. cbn [bind].
           exists g', n0, e0. split; [reflexivity|].
           destruct (mark_obstacles_cells drone_altitude safety_distance
                       (np_floor lo_n) (np_floor lo_e) ns es data
                       (mkGrid ns es (fun _ _ => 0%Z)) g'
                       eq_refl eq_refl Eg) as (S0 & S1 & _).
           split; assumption.
        -- intros ns' es' E Ha. injection E as <- <-.
           destruct (np_zeros_refused _ _ _ Ha) as [-> | ->];
             [left|right]; reflexivity.
        -- intros ns' es' E Hneg. injection E as <- <-.
           unfold np_zeros.
           replace ((ns <? 0)%Z || (es <? 0)%Z) with true
             by (symmetry; apply orb_true_iff; rewrite !Z.ltb_lt; exact Hneg).
           reflexivity.
      * split; [intros ? ? E; discriminate E|].
        split; [intros ? ? E; discriminate E|].
        split; [intros ? ? E; discriminate E|].
        split; [|discriminate].
        intros e' He. injection He as <-. split; [reflexivity|].
        exact (py_int_error _ _ Ee).
      * exfalso. unfold dimension, py_int in Ee.
        destruct (Prim2SF _); discriminate Ee.
    + split; [intros ? ? E; discriminate E|].
      split; [intros ? ? E; discriminate E|].
      split; [intros ? ? E; discriminate E|].
      split; [|discriminate].
      intros e' He. injection He as <-. split; [reflexivity|].
      exact (py_int_error _ _ En).
    + exfalso. unfold dimension, py_int in En.
      destruct (Prim2SF _); discriminate En.
  - split; [intros ? ? E; discriminate E|].
    split; [intros ? ? E; discriminate E|].
    split; [intros ? ? E; discriminate E|].
    split; [|discriminate].
    intros e' He. injection He as <-. split; [reflexivity|].
    left. exact (proj2 (bounds_error _ _ Eb)).
  - exfalso. exact (bounds_returned data Eb).
Qed.

End CreateGridResults.

Section CreateGridExamples.

Import PlanningUtils Binary64 Binary64Spec Binary64Inputs MoreInputs.

Local Open Scope float_scope.




Lemma create_grid_fails_witness :
  (two_rows = [] -> create_grid machine_cells two_rows 10 2 = Raise ValueError)
  /\ (forall north_size east_size : Z,
        dimensions two_rows = Ok (north_size, east_size) ->
        allocatable machine_cells north_size east_size = true ->
        exists (g : grid) (north_min east_min : Z),
          create_grid machine_cells two_rows 10 2 = Ok (g, north_min, east_min)
          /\ shape0 g = north_size /\ shape1 g = east_size)
  /\ (forall north_size east_size : Z,
        dimensions two_rows = Ok (north_size, east_size) ->
        allocatable machine_cells north_size east_size = false ->
        create_grid machine_cells two_rows 10 2 = Raise ValueError
        \/ create_grid machine_cells two_rows 10 2 = Raise MemoryError)
  /\ (forall north_size east_size : Z,
        dimensions two_rows = Ok (north_size, east_size) ->
        (north_size < 0)%Z \/ (east_size < 0)%Z ->
        create_grid machine_cells two_rows 10 2 = Raise ValueError)
  /\ (forall e : exn,
        dimensions two_rows = Raise e ->
        create_grid machine_cells two_rows 10 2 = Raise e
        /\ (e = ValueError \/ e = OverflowError))
  /\ dimensions two_rows <> Diverge.
Proof.
  apply (create_grid_fails machine_cells two_rows 10 2). reflexivity.
Defined.

(** C7, as stated, fails: an array that is not empty makes [create_grid]
    fail when a half-extent is negative, when a coordinate is NaN, when an
    edge is beyond the numbers of binary64, and when the obstacles are too
    far apart for the grid to be allocated; and an obstacle without extent
    at integer coordinates gives, without an error, a grid without rows
    and columns. *)
Lemma create_grid_fails_on_rows :
  create_grid machine_cells negative_extent 10 0 = Raise ValueError
  /\ create_grid machine_cells nan_row 10 0 = Raise ValueError
  /\ create_grid machine_cells huge_row 10 0 = Raise OverflowError
  /\ create_grid machine_cells far_rows 10 0 = Raise MemoryError
  /\ exists g : grid,
       create_grid machine_cells point_row 10 0 = Ok (g, 1%Z, 1%Z)
       /\ shape0 g = 0%Z /\ shape1 g = 0%Z.
Proof.
  split; [vm_compute; reflexivity|]. split; [vm_compute; reflexivity|].
  split; [vm_compute; reflexivity|]. split; [vm_compute; reflexivity|].
  exists (grid_of (create_grid machine_cells point_row 10 0)).
  split; [vm_compute; reflexivity|]. split; vm_compute; reflexivity.
Qed.

End CreateGridExamples.
